(** * Killtone tooling: method catalog generator and duplicate analyzer

    A shallow embedding of [generate_method_catalog.py] and
    [analyze_duplicates.py], and the properties of the catalog pipeline
    (function detection, doc-comment association, persistence, duplicate and
    similarity analysis, summary statistics).

    Python values are modelled as follows.
    - [str] is a list of Unicode code points ([N]); literals are written with
      [lit].
    - [int] is [Z].
    - a [dict] is an association list in insertion order (Python keeps it),
      updated with [dict_set]; a [defaultdict(list)] is updated with
      [dict_append].
    - [print] appends a line to an output log (standard output is taken to
      accept every string); an exception is the left injection of a sum.
    - [float] is IEEE binary64 ([SpecFloat] with precision 53, emax 1024). *)

From Stdlib Require Import ZArith NArith List Bool String Ascii Lia SpecFloat.
From Stdlib Require Import Sorted Permutation.
From Stdlib Require DecimalFacts DecimalPos DecimalZ.
Import ListNotations.

Local Open Scope N_scope.

(** ** Python text primitives *)

Module Py.

Definition char := N.
Definition str := list char.

(** A string literal of the source, as code points. *)
Definition lit (s : string) : str := map N_of_ascii (list_ascii_of_string s).

Fixpoint str_eqb (a b : str) : bool :=
  match a, b with
  | [], [] => true
  | x :: a', y :: b' => (x =? y) && str_eqb a' b'
  | _, _ => false
  end.

(** [str.isspace] on one character, which is also what [str.strip] removes
    and what the pattern [\s] matches on [str] patterns. *)
Definition isspace (c : char) : bool :=
  ((0x09 <=? c) && (c <=? 0x0D)) || ((0x1C <=? c) && (c <=? 0x20))
  || (c =? 0x85) || (c =? 0xA0) || (c =? 0x1680)
  || ((0x2000 <=? c) && (c <=? 0x200A))
  || (c =? 0x2028) || (c =? 0x2029) || (c =? 0x202F) || (c =? 0x205F)
  || (c =? 0x3000).

Fixpoint drop_while (p : char -> bool) (s : str) : str :=
  match s with
  | c :: s' => if p c then drop_while p s' else s
  | [] => []
  end.

Fixpoint take_while (p : char -> bool) (s : str) : str :=
  match s with
  | c :: s' => if p c then c :: take_while p s' else []
  | [] => []
  end.

Definition lstrip (s : str) : str := drop_while isspace s.
Definition rstrip (s : str) : str := rev (drop_while isspace (rev s)).
Definition strip (s : str) : str := rstrip (lstrip s).

Fixpoint startswith (p s : str) : bool :=
  match p, s with
  | [], _ => true
  | x :: p', y :: s' => (x =? y) && startswith p' s'
  | _ :: _, [] => false
  end.

Definition endswith (p s : str) : bool := startswith (rev p) (rev s).

(** [needle in hay] *)
Fixpoint contains (needle hay : str) : bool :=
  startswith needle hay
  || match hay with
     | [] => false
     | _ :: hay' => contains needle hay'
     end.

(** [sep.join(parts)] *)
Fixpoint join (sep : str) (parts : list str) : str :=
  match parts with
  | [] => []
  | [p] => p
  | p :: ps => p ++ sep ++ join sep ps
  end.

(** [s.split(sep)] for a one-character separator. *)
Fixpoint split (sep : char) (s : str) : list str :=
  match s with
  | [] => [[]]
  | c :: s' =>
      if c =? sep then [] :: split sep s'
      else match split sep s' with
           | l :: ls => (c :: l) :: ls
           | [] => [[c]]
           end
  end.

(** [x in xs] for a list of strings. *)
Definition mem (x : str) (xs : list str) : bool := existsb (str_eqb x) xs.

(** Exceptions: the class and the message [str(e)] prints. *)
Inductive exn_class :=
| OSError | FileNotFoundError | UnicodeDecodeError | UnicodeEncodeError
| JSONDecodeError | ZeroDivisionError | TypeError.

Record exn := Exn { exn_kind : exn_class; exn_msg : str }.

(** Encoding as UTF-8, as a file opened with [encoding='utf-8'] does on
    [write]: every code point has an encoding but the surrogates, on which
    the codec raises [UnicodeEncodeError]. *)
Definition is_surrogate (c : char) : bool := (0xD800 <=? c) && (c <=? 0xDFFF).

Definition utf8_encodable (s : str) : bool :=
  forallb (fun c => negb (is_surrogate c)) s.

(** *** Numbers *)

Fixpoint uint_str (u : Decimal.uint) : str :=
  match u with
  | Decimal.Nil => []
  | Decimal.D0 u => 48 :: uint_str u
  | Decimal.D1 u => 49 :: uint_str u
  | Decimal.D2 u => 50 :: uint_str u
  | Decimal.D3 u => 51 :: uint_str u
  | Decimal.D4 u => 52 :: uint_str u
  | Decimal.D5 u => 53 :: uint_str u
  | Decimal.D6 u => 54 :: uint_str u
  | Decimal.D7 u => 55 :: uint_str u
  | Decimal.D8 u => 56 :: uint_str u
  | Decimal.D9 u => 57 :: uint_str u
  end.

(** [str(n)] of an [int]: the decimal digits, with a minus sign when
    negative. *)
Definition int_repr (z : Z) : str :=
  match Z.to_int z with
  | Decimal.Pos u => uint_str u
  | Decimal.Neg u => 45 :: uint_str u
  end.

(** [len(x)] *)
Definition len {A} (l : list A) : Z := Z.of_nat (List.length l).

(** [float]: IEEE 754 binary64, rounding to nearest, ties to even. *)
Definition float := spec_float.
Definition prec : Z := 53.
Definition emax : Z := 1024.

(** [float(n)] *)
Definition float_of_int (n : Z) : float := binary_normalize prec emax n 0 false.

Definition fmul (x y : float) : float := SFmul prec emax x y.

(** [a / b] on two [int]s: the quotient of the two operands as floats (what
    CPython computes when both are below 2^53, as counts are), or
    [ZeroDivisionError]. *)
Definition true_div (a b : Z) : exn + float :=
  if (b =? 0)%Z then inl (Exn ZeroDivisionError (lit "division by zero"))
  else inr (SFdiv prec emax (float_of_int a) (float_of_int b)).

(** [q] rounded to an integer, ties to even, for [q = n / d] with [d > 0]. *)
Definition round_half_even (n d : Z) : Z :=
  let q := (n / d)%Z in
  let r := (n mod d)%Z in
  match (2 * r ?= d)%Z with
  | Lt => q
  | Gt => (q + 1)%Z
  | Eq => if Z.even q then q else (q + 1)%Z
  end.

(** The absolute value of a finite float in tenths, correctly rounded: what
    the format [.1f] prints, without the decimal point. *)
Definition tenths (m : positive) (e : Z) : Z :=
  match e with
  | Zneg p => round_half_even (Zpos m * 10) (2 ^ Zpos p)
  | _ => (Zpos m * 2 ^ e * 10)%Z
  end.

(** [format(x, '.1f')] *)
Definition format_1f (x : float) : str :=
  let sign (s : bool) : str := if s then [45] else [] in
  match x with
  | S754_zero s => sign s ++ lit "0.0"
  | S754_infinity s => sign s ++ lit "inf"
  | S754_nan => lit "nan"
  | S754_finite s m e =>
      let t := tenths m e in
      sign s ++ int_repr (t / 10) ++ [46] ++ int_repr (t mod 10)
  end.

(** Insertion-ordered dictionaries. *)
Definition dict (V : Type) := list (str * V).

Fixpoint dict_get {V} (k : str) (d : dict V) : option V :=
  match d with
  | [] => None
  | (k', v) :: d' => if str_eqb k k' then Some v else dict_get k d'
  end.

(** [d[k] = v] *)
Fixpoint dict_set {V} (k : str) (v : V) (d : dict V) : dict V :=
  match d with
  | [] => [(k, v)]
  | (k', v') :: d' =>
      if str_eqb k k' then (k', v) :: d' else (k', v') :: dict_set k v d'
  end.

(** [d[k].append(x)] on a [defaultdict(list)] *)
Fixpoint dict_append {V} (k : str) (x : V) (d : dict (list V)) : dict (list V) :=
  match d with
  | [] => [(k, [x])]
  | (k', xs) :: d' =>
      if str_eqb k k' then (k', xs ++ [x]) :: d'
      else (k', xs) :: dict_append k x d'
  end.

End Py.

(** ** The fragment of Python's [re] the catalog generator uses

    A backtracking matcher in continuation-passing style, with Python's
    greedy quantifiers and one capture group. Every starred expression of the
    source is a one-character class, so [Star] takes a class. *)

Module Re.
Import Py.

Inductive regex :=
| Eps
| Bol                        (* ^ *)
| Lit (c : char)             (* one literal character *)
| Cls (p : char -> bool)     (* a character class: [...] or \s *)
| Seq (r1 r2 : regex)
| Star (p : char -> bool)    (* greedy p* *)
| Opt (r : regex)            (* greedy (?:r)? *)
| Group (r : regex).         (* ( r ), group 1 *)

(** The match object, reduced to what the source reads: [group(1)]
    ([None] when the group took no part in the match). *)
Record match_obj := Match { group1 : option str }.

Section Run.
Context {A : Type}.

Fixpoint star (p : char -> bool) (k : nat -> str -> option A)
    (pos : nat) (s : str) : option A :=
  match s with
  | c :: s' =>
      if p c then
        match star p k (S pos) s' with
        | Some r => Some r
        | None => k pos s
        end
      else k pos s
  | [] => k pos s
  end.

(** [run r k pos s g]: match [r] at offset [pos], where [s] is the rest of
    the input and [g] the capture so far; on success continue with [k],
    and backtrack into [r] when [k] fails. *)
Fixpoint run (r : regex) (k : nat -> str -> option str -> option A)
    (pos : nat) (s : str) (g : option str) : option A :=
  match r with
  | Eps => k pos s g
  | Bol => if Nat.eqb pos 0 then k pos s g else None
  | Lit c =>
      match s with
      | c' :: s' => if c' =? c then k (S pos) s' g else None
      | [] => None
      end
  | Cls p =>
      match s with
      | c' :: s' => if p c' then k (S pos) s' g else None
      | [] => None
      end
  | Seq r1 r2 => run r1 (fun pos' s' g' => run r2 k pos' s' g') pos s g
  | Star p => star p (fun pos' s' => k pos' s' g) pos s
  | Opt r' =>
      match run r' k pos s g with
      | Some x => Some x
      | None => k pos s g
      end
  | Group r' =>
      run r' (fun pos' s' _ => k pos' s' (Some (firstn (pos' - pos) s))) pos s g
  end.

End Run.

(** [re.match]-like attempt at one offset. *)
Definition match_at (r : regex) (pos : nat) (s : str) : option match_obj :=
  run r (fun _ _ g => Some (Match g)) pos s None.

(** [re.search(r, s)]: the first offset, from the left, where [r] matches. *)
Fixpoint search_from (r : regex) (pos : nat) (s : str) : option match_obj :=
  match match_at r pos s with
  | Some m => Some m
  | None =>
      match s with
      | [] => None
      | _ :: s' => search_from r (S pos) s'
      end
  end.

Definition search (r : regex) (s : str) : option match_obj := search_from r 0 s.

Fixpoint cat (rs : list regex) : regex :=
  match rs with
  | [] => Eps
  | [r] => r
  | r :: rs' => Seq r (cat rs')
  end.

(** A literal word. *)
Definition word (w : str) : regex := cat (map Lit w).

Definition plus (p : char -> bool) : regex := Seq (Cls p) (Star p).

End Re.


(** ** The standard library's JSON encoder and decoder

    [json.dump(obj, f, indent=2, ensure_ascii=False)] and [json.load(f)],
    after the encoder and decoder of CPython's [json] package, on text. The
    decoder is the strict standard one; a number with a fraction or an
    exponent is a float in Python and is kept here as its lexeme. *)

Module Json.
Import Py.

#[warnings="-register-all"]
Inductive value :=
| JNull
| JBool (b : bool)
| JInt (z : Z)
| JFloat (lexeme : str)
| JStr (s : str)
| JList (items : list value)
| JDict (items : list (str * value)).

Definition dquote : char := 34.
Definition backslash : char := 92.
Definition ch (a : ascii) : char := N_of_ascii a.

(** *** Encoder *)

Definition hexdigit (n : N) : char :=
  if n <? 10 then 48 + n else 87 + n.

(** One character of a string, as [ESCAPE_DCT] replaces it: the two-character
    escapes, a [\u00XX] escape for the other control characters, the character
    itself otherwise. *)
Definition escape_char (c : char) : str :=
  if c =? dquote then [backslash; dquote]
  else if c =? backslash then [backslash; backslash]
  else if c =? 8 then [backslash; ch "b"]
  else if c =? 12 then [backslash; ch "f"]
  else if c =? 10 then [backslash; ch "n"]
  else if c =? 13 then [backslash; ch "r"]
  else if c =? 9 then [backslash; ch "t"]
  else if c <? 32 then
    [backslash; ch "u"; ch "0"; ch "0"; hexdigit (c / 16); hexdigit (c mod 16)]
  else [c].

Definition encode_string (s : str) : str :=
  dquote :: flat_map escape_char s ++ [dquote].

(** A newline and the indentation of nesting level [level], two spaces a
    level. *)
Definition newline_indent (level : nat) : str :=
  10 :: repeat 32 (2 * level).

(** The items of a container, one a line. *)
Definition dump_items (level : nat) (items : list str) : str :=
  newline_indent (S level)
  ++ join (ch "," :: newline_indent (S level)) items
  ++ newline_indent level.

Fixpoint dump (level : nat) (v : value) : str :=
  match v with
  | JNull => lit "null"
  | JBool true => lit "true"
  | JBool false => lit "false"
  | JInt z => int_repr z
  | JFloat lexeme => lexeme
  | JStr s => encode_string s
  | JList [] => lit "[]"
  | JList items =>
      ch "[" :: dump_items level (map (dump (S level)) items) ++ [ch "]"]
  | JDict [] => lit "{}"
  | JDict items =>
      ch "{"
      :: dump_items level
           (map (fun kv => encode_string (fst kv) ++ lit ": " ++ dump (S level) (snd kv))
                items)
      ++ [ch "}"]
  end.

Definition dumps (v : value) : str := dump 0 v.

(** [json.dump] writes the text chunk by chunk, as [iterencode] yields it.
    A value that is no container is one chunk. *)
Definition atom_text (v : value) : option str :=
  match v with
  | JNull => Some (lit "null")
  | JBool true => Some (lit "true")
  | JBool false => Some (lit "false")
  | JInt z => Some (int_repr z)
  | JFloat lexeme => Some lexeme
  | JStr s => Some (encode_string s)
  | JList _ | JDict _ => None
  end.

(** The loop of [_iterencode_list]: [buf] is the opening bracket and the
    indentation before the first item and the separator before the others;
    it is yielded with an item that is no container and on its own before a
    container. [f] gives the chunks of a container. *)
Fixpoint list_chunks (f : value -> list str) (buf separator : str)
    (lst : list value) : list str :=
  match lst with
  | [] => []
  | value :: rest =>
      match atom_text value with
      | Some text => [buf ++ text]
      | None => buf :: f value
      end
      ++ list_chunks f separator separator rest
  end.

(** The loop of [_iterencode_dict]: the separator (but before the first
    item), the key, the key separator and the value are chunks of their
    own. *)
Fixpoint dict_chunks (f : value -> list str) (first : bool) (item_separator : str)
    (items : list (str * value)) : list str :=
  match items with
  | [] => []
  | (key, value) :: rest =>
      (if first then [] else [item_separator])
      ++ [encode_string key; lit ": "]
      ++ match atom_text value with
         | Some text => [text]
         | None => f value
         end
      ++ dict_chunks f false item_separator rest
  end.

Fixpoint dump_chunks (level : nat) (v : value) : list str :=
  match v with
  | JList [] => [lit "[]"]
  | JList items =>
      list_chunks (dump_chunks (S level)) (ch "[" :: newline_indent (S level))
                  (ch "," :: newline_indent (S level)) items
      ++ [newline_indent level; [ch "]"]]
  | JDict [] => [lit "{}"]
  | JDict items =>
      [ch "{"] :: newline_indent (S level)
      :: dict_chunks (dump_chunks (S level)) true (ch "," :: newline_indent (S level))
                     items
      ++ [newline_indent level; [ch "}"]]
  | _ => [dump level v]
  end.

(** *** Decoder *)

(** The decoder's whitespace: space, tab, line feed, carriage return. *)
Definition is_ws (c : char) : bool :=
  (c =? 32) || (c =? 9) || (c =? 10) || (c =? 13).

Definition skip_ws (s : str) : str := drop_while is_ws s.

Definition is_digit (c : char) : bool := (48 <=? c) && (c <=? 57).

Definition hexval (c : char) : option N :=
  if (48 <=? c) && (c <=? 57) then Some (c - 48)
  else if (97 <=? c) && (c <=? 102) then Some (c - 87)
  else if (65 <=? c) && (c <=? 70) then Some (c - 55)
  else None.

Definition hex4 (a b c d : char) : option N :=
  match hexval a, hexval b, hexval c, hexval d with
  | Some x, Some y, Some z, Some w => Some (((x * 16 + y) * 16 + z) * 16 + w)
  | _, _, _, _ => None
  end.

(** The character a two-character escape stands for ([BACKSLASH]). *)
Definition unescape (e : char) : option char :=
  if e =? dquote then Some dquote
  else if e =? backslash then Some backslash
  else if e =? ch "/" then Some (ch "/")
  else if e =? ch "b" then Some 8
  else if e =? ch "f" then Some 12
  else if e =? ch "n" then Some 10
  else if e =? ch "r" then Some 13
  else if e =? ch "t" then Some 9
  else None.

Definition cons_fst (c : char) (r : option (str * str)) : option (str * str) :=
  match r with
  | Some (x, rest) => Some (c :: x, rest)
  | None => None
  end.

(** [scanstring], strict, from the character after the opening quote: the
    decoded string and the text after the closing quote. *)
Fixpoint scanstring (s : str) : option (str * str) :=
  match s with
  | [] => None
  | c :: s1 =>
      if c =? dquote then Some ([], s1)
      else if c =? backslash then
        match s1 with
        | [] => None
        | e :: s2 =>
            if e =? ch "u" then
              match s2 with
              | h1 :: h2 :: h3 :: h4 :: s3 =>
                  match hex4 h1 h2 h3 h4 with
                  | None => None
                  | Some uni =>
                      if (0xD800 <=? uni) && (uni <=? 0xDBFF) then
                        match s3 with
                        | b :: u :: s4 =>
                            if (b =? backslash) && (u =? ch "u") then
                              match s4 with
                              | g1 :: g2 :: g3 :: g4 :: s5 =>
                                  match hex4 g1 g2 g3 g4 with
                                  | None => None
                                  | Some uni2 =>
                                      if (0xDC00 <=? uni2) && (uni2 <=? 0xDFFF)
                                      then cons_fst
                                             (0x10000 + ((uni - 0xD800) * 1024
                                                         + (uni2 - 0xDC00)))
                                             (scanstring s5)
                                      else cons_fst uni (scanstring s3)
                                  end
                              | _ => None
                              end
                            else cons_fst uni (scanstring s3)
                        | _ => cons_fst uni (scanstring s3)
                        end
                      else cons_fst uni (scanstring s3)
                  end
              | _ => None
              end
            else
              match unescape e with
              | Some c' => cons_fst c' (scanstring s2)
              | None => None
              end
        end
      else if c <? 32 then None
      else cons_fst c (scanstring s1)
  end.

Fixpoint str_uint (s : str) : Decimal.uint :=
  match s with
  | [] => Decimal.Nil
  | c :: s' =>
      let u := str_uint s' in
      match c - 48 with
      | 0 => Decimal.D0 u
      | 1 => Decimal.D1 u
      | 2 => Decimal.D2 u
      | 3 => Decimal.D3 u
      | 4 => Decimal.D4 u
      | 5 => Decimal.D5 u
      | 6 => Decimal.D6 u
      | 7 => Decimal.D7 u
      | 8 => Decimal.D8 u
      | _ => Decimal.D9 u
      end
  end.

(** The integer part of [NUMBER_RE] (an optional minus sign, then a zero or
    a non-zero digit followed by digits): its sign, its digits and the rest. *)
Definition scan_int (s : str) : option (bool * str * str) :=
  let (neg, s1) :=
    match s with
    | c :: s' => if c =? ch "-" then (true, s') else (false, s)
    | [] => (false, s)
    end in
  match s1 with
  | c :: s2 =>
      if c =? 48 then Some (neg, [c], s2)
      else if is_digit c then Some (neg, c :: take_while is_digit s2, drop_while is_digit s2)
      else None
  | [] => None
  end.

(** The optional fraction of [NUMBER_RE]: a dot and at least one digit. *)
Definition scan_frac (s : str) : str * str :=
  match s with
  | dot :: d :: s' =>
      if (dot =? ch ".") && is_digit d
      then (dot :: d :: take_while is_digit s', drop_while is_digit s')
      else ([], s)
  | _ => ([], s)
  end.

(** The optional exponent of [NUMBER_RE]. *)
Definition scan_exp (s : str) : str * str :=
  match s with
  | e :: s1 =>
      if (e =? ch "e") || (e =? ch "E") then
        match s1 with
        | d :: s2 =>
            if is_digit d then (e :: d :: take_while is_digit s2, drop_while is_digit s2)
            else if (d =? ch "+") || (d =? ch "-") then
              match s2 with
              | d2 :: s3 =>
                  if is_digit d2
                  then (e :: d :: d2 :: take_while is_digit s3, drop_while is_digit s3)
                  else ([], s)
              | [] => ([], s)
              end
            else ([], s)
        | [] => ([], s)
        end
      else ([], s)
  | [] => ([], s)
  end.

Definition parse_number (s : str) : option (value * str) :=
  match scan_int s with
  | None => None
  | Some (neg, digits, s1) =>
      let (frac, s2) := scan_frac s1 in
      let (exp, s3) := scan_exp s2 in
      match frac ++ exp with
      | [] =>
          let u := str_uint digits in
          Some (JInt (Z.of_int (if neg then Decimal.Neg u else Decimal.Pos u)), s3)
      | _ :: _ =>
          Some (JFloat ((if neg then [ch "-"] else []) ++ digits ++ frac ++ exp), s3)
      end
  end.

(** A constant of the grammar: [null], [true], [false], [NaN], [Infinity],
    [-Infinity]. *)
Definition const (w : string) (v : value) (s : str) : option (value * str) :=
  if startswith (lit w) s then Some (v, skipn (String.length w) s) else None.

Definition or_else {A} (x y : option A) : option A :=
  match x with
  | Some r => Some r
  | None => y
  end.

Definition parse_const (s : str) : option (value * str) :=
  or_else (const "null" JNull s)
  (or_else (const "true" (JBool true) s)
  (or_else (const "false" (JBool false) s)
  (or_else (const "NaN" (JFloat (lit "NaN")) s)
  (or_else (const "Infinity" (JFloat (lit "Infinity")) s)
           (const "-Infinity" (JFloat (lit "-Infinity")) s))))).

(** [dict(pairs)]: a later pair of the same key replaces the value. *)
Definition dict_of_pairs (pairs : list (str * value)) : list (str * value) :=
  fold_left (fun d kv => dict_set (fst kv) (snd kv) d) pairs [].

(** [scan_once], [JSONArray] and [JSONObject]. The recursion of the decoder
    follows the nesting of the text; [fuel] bounds it, and the length of the
    text is always enough ([loads]). [parse_items] and [parse_pairs] are the
    loops of [JSONArray] and [JSONObject], entered at the first item, with
    the items read so far. *)
Fixpoint parse_value (fuel : nat) (s : str) : option (value * str) :=
  match fuel with
  | O => None
  | S fuel' =>
      match s with
      | [] => None
      | c :: s1 =>
          if c =? dquote then
            match scanstring s1 with
            | Some (x, r) => Some (JStr x, r)
            | None => None
            end
          else if c =? ch "{" then
            match skip_ws s1 with
            | c2 :: r =>
                if c2 =? ch "}" then Some (JDict [], r)
                else parse_pairs fuel' (c2 :: r) []
            | [] => None
            end
          else if c =? ch "[" then
            match skip_ws s1 with
            | c2 :: r =>
                if c2 =? ch "]" then Some (JList [], r)
                else parse_items fuel' (c2 :: r) []
            | [] => None
            end
          else
            match parse_const s with
            | Some r => Some r
            | None => parse_number s
            end
      end
  end
with parse_items (fuel : nat) (s : str) (acc : list value) : option (value * str) :=
  match fuel with
  | O => None
  | S fuel' =>
      match parse_value fuel' s with
      | None => None
      | Some (v, r) =>
          match skip_ws r with
          | c :: r' =>
              if c =? ch "]" then Some (JList (acc ++ [v]), r')
              else if c =? ch "," then parse_items fuel' (skip_ws r') (acc ++ [v])
              else None
          | [] => None
          end
      end
  end
with parse_pairs (fuel : nat) (s : str) (acc : list (str * value))
    : option (value * str) :=
  match fuel with
  | O => None
  | S fuel' =>
      match s with
      | q :: s1 =>
          if q =? dquote then
            match scanstring s1 with
            | None => None
            | Some (key, r) =>
                match skip_ws r with
                | colon :: r1 =>
                    if colon =? ch ":" then
                      match parse_value fuel' (skip_ws r1) with
                      | None => None
                      | Some (v, r2) =>
                          match skip_ws r2 with
                          | c :: r3 =>
                              if c =? ch "}"
                              then Some (JDict (dict_of_pairs (acc ++ [(key, v)])), r3)
                              else if c =? ch ","
                              then parse_pairs fuel' (skip_ws r3) (acc ++ [(key, v)])
                              else None
                          | [] => None
                          end
                      end
                    else None
                | [] => None
                end
            end
          else None
      | [] => None
      end
  end.

(** The exception of a text that does not parse; what its message says of
    the place and the cause is not modelled. *)
Definition decode_error : exn := Exn JSONDecodeError (lit "Expecting value").

(** [json.loads]: one value, with whitespace around it and nothing else. *)
Definition loads (s : str) : exn + value :=
  match parse_value (S (List.length s)) (skip_ws s) with
  | Some (v, r) =>
      match skip_ws r with
      | [] => inr v
      | _ :: _ => inl (Exn JSONDecodeError (lit "Extra data"))
      end
  | None => inl decode_error
  end.

End Json.
(** ** generate_method_catalog.py *)

Module Gen.
Import Py Re Json.

(** One catalog entry: the dict with keys [name], [description], [file] and
    [line] that [extract_functions_from_file] appends. *)
Record entry := Entry {
  name : str;
  description : str;
  file : str;
  line : Z
}.

Definition catalog := dict (list entry).

(** *** extract_jsdoc_comment *)

(** The inner [while i >= 0] loop, entered below a terminator line: [k] is
    [i + 1], [acc] is [comment_lines]. *)
Fixpoint collect_comment (lines : list str) (k : nat) (acc : list str) : list str :=
  match k with
  | O => acc
  | S i =>
      let line := strip (nth i lines []) in
      let acc' := line :: acc in
      if startswith (lit "/**") line then acc' else collect_comment lines i acc'
  end.

(** The outer [while i >= 0] loop: [k] is [i + 1]; the result is
    [comment_lines] when the loop is left. *)
Fixpoint scan_back (lines : list str) (k : nat) : list str :=
  match k with
  | O => []
  | S i =>
      let line := strip (nth i lines []) in
      if endswith (lit "*/") line then collect_comment lines i [line]
      else if str_eqb line [] || startswith (lit "//") line then scan_back lines i
      else []
  end.

(** The clean-up loop over [comment_lines], giving the list [description]. *)
Fixpoint clean_lines (comment_lines : list str) : list str :=
  match comment_lines with
  | [] => []
  | l :: rest =>
      let line := strip l in
      if startswith (lit "/**") line || startswith (lit "*/") line
      then clean_lines rest
      else
        let line := if startswith (lit "*") line then strip (tl line) else line in
        match line with
        | [] => clean_lines rest
        | _ :: _ => line :: clean_lines rest
        end
  end.

Definition extract_jsdoc_comment (lines : list str) (function_line_index : nat)
    : option str :=
  match scan_back lines function_line_index with
  | [] => None
  | comment_lines => Some (join (lit " ") (clean_lines comment_lines))
  end.

(** *** The line patterns of extract_functions_from_file *)

Definition in_range (lo hi : ascii) (c : char) : bool :=
  (ch lo <=? c) && (c <=? ch hi).

(** [[a-zA-Z_$]] *)
Definition ident_start (c : char) : bool :=
  in_range "a" "z" c || in_range "A" "Z" c || (c =? ch "_") || (c =? ch "$").

(** [[a-zA-Z0-9_$]] *)
Definition ident_char (c : char) : bool :=
  in_range "a" "z" c || in_range "A" "Z" c || in_range "0" "9" c
  || (c =? ch "_") || (c =? ch "$").

(** [[^)]] *)
Definition not_rparen (c : char) : bool := negb (c =? ch ")").

(** The capture group: an identifier start followed by identifier
    characters, as many as possible. *)
Definition ident : regex := Group (Seq (Cls ident_start) (Star ident_char)).

(** Whitespace, any number and at least one. *)
Definition ws : regex := Star isspace.
Definition ws1 : regex := plus isspace.

(** The parameter list, optional whitespace and the opening brace that end
    three of the four patterns. *)
Definition params_brace : list regex :=
  [Lit (ch "("); Star not_rparen; Lit (ch ")"); ws; Lit (ch "{")].

Definition pat_method : regex :=
  cat ([Bol; ws; ident; ws] ++ params_brace).

Definition pat_function : regex :=
  cat ([Bol; ws; word (lit "function"); ws1; ident; ws] ++ params_brace).

Definition pat_arrow : regex :=
  cat [Bol; ws; ident; ws; Lit (ch "="); ws;
       Lit (ch "("); Star not_rparen; Lit (ch ")"); ws;
       word (lit "=>"); ws; Lit (ch "{")].

Definition pat_async : regex :=
  cat ([Bol; ws; Opt (Seq (word (lit "async")) ws1); ident; ws] ++ params_brace).

Definition patterns : list regex :=
  [pat_method; pat_function; pat_arrow; pat_async].

Definition stoplist : list str :=
  [lit "if"; lit "for"; lit "while"; lit "switch"; lit "catch"; lit "else"].

Definition no_description : str := lit "No description available".

(** [description or 'No description available'] *)
Definition or_default (d : option str) : str :=
  match d with
  | Some (c :: s) => c :: s
  | Some [] | None => no_description
  end.

(** *** extract_functions_from_file *)

(** The [for pattern in patterns] loop on one line. The first component
    logs, by index, the patterns handed to [re.search]; the second is the
    name of the entry appended, if one is. [continue] goes on with the next
    pattern, [break] leaves the loop. Group 1 is mandatory in each of the
    four patterns, so a match always has it ([patterns_capture] below). *)
Fixpoint try_patterns (idx : nat) (pats : list regex) (line : str)
    : list nat * option str :=
  match pats with
  | [] => ([], None)
  | pattern :: pats' =>
      match search pattern line with
      | Some m =>
          match group1 m with
          | Some function_name =>
              if mem function_name stoplist
              then let (log, r) := try_patterns (S idx) pats' line in (idx :: log, r)
              else ([idx], Some function_name)
          | None => let (log, r) := try_patterns (S idx) pats' line in (idx :: log, r)
          end
      | None => let (log, r) := try_patterns (S idx) pats' line in (idx :: log, r)
      end
  end.

(** The [for i, line in enumerate(lines)] loop, from line [i] on. *)
Fixpoint scan_lines (file_path : str) (lines : list str) (i : nat) (rest : list str)
    : list entry :=
  match rest with
  | [] => []
  | line :: rest' =>
      match snd (try_patterns 0 patterns line) with
      | Some function_name =>
          Entry function_name (or_default (extract_jsdoc_comment lines i))
                file_path (Z.of_nat i + 1)
          :: scan_lines file_path lines (S i) rest'
      | None => scan_lines file_path lines (S i) rest'
      end
  end.

(** The body of [extract_functions_from_file] after the file was read. *)
Definition extract_functions (file_path content : str) : list entry :=
  let lines := split (ch "010") content in
  scan_lines file_path lines 0 lines.

(** The file store: what [open(path, 'r', encoding='utf-8').read()] gives,
    the text or the exception raised. Writing replaces the text. *)
Definition filesystem := str -> exn + str.

Definition fs_write (path text : str) (fs : filesystem) : filesystem :=
  fun p => if str_eqb p path then inr text else fs p.

(** Returns what was printed and the list of entries. *)
Definition extract_functions_from_file (fs : filesystem) (file_path : str)
    : list str * list entry :=
  match fs file_path with
  | inl e => ([lit "Error reading " ++ file_path ++ lit ": " ++ exn_msg e], [])
  | inr content => ([], extract_functions file_path content)
  end.

(** *** Directory scan and catalog generation *)

Section Generate.

(** The operating system's part: [os.path.exists], [os.walk] (the triples
    root, dirs, files in the order it yields them), [os.path.join] and
    [os.path.relpath]. *)
Variable os_path_exists : str -> bool.
Variable os_walk : str -> list (str * list str * list str).
Variable os_path_join : str -> str -> str.
Variable os_path_relpath : str -> str.

Definition scan_directory (directory : str) : list str :=
  flat_map
    (fun '(root, _, files) =>
       map (os_path_join root) (filter (endswith (lit ".js")) files))
    (os_walk directory).

(** The first loop of [generate_catalog]: output and [all_files]. *)
Fixpoint gather_files (source_dirs : list str) : list str * list str :=
  match source_dirs with
  | [] => ([], [])
  | source_dir :: rest =>
      let (out, all_files) := gather_files rest in
      if os_path_exists source_dir
      then (out, scan_directory source_dir ++ all_files)
      else ((lit "Warning: Directory '" ++ source_dir ++ lit "' not found") :: out,
            all_files)
  end.

(** The second loop: output and [self.catalog] after it. *)
Fixpoint process_files (fs : filesystem) (all_files : list str) (cat : catalog)
    : list str * catalog :=
  match all_files with
  | [] => ([], cat)
  | file_path :: rest =>
      let (out1, functions) := extract_functions_from_file fs file_path in
      let cat' :=
        match functions with
        | [] => cat
        | _ :: _ => dict_set (os_path_relpath file_path) functions cat
        end in
      let (out2, cat'') := process_files fs rest cat' in
      ((lit "Processing: " ++ file_path) :: out1 ++ out2, cat'')
  end.

Definition generate_catalog (fs : filesystem) (source_dirs : list str)
    (self_catalog : catalog) : list str * catalog :=
  let (out1, all_files) := gather_files source_dirs in
  let (out2, cat) := process_files fs all_files self_catalog in
  (lit "Generating method catalog..." :: out1 ++ out2, cat).

End Generate.

(** *** save_catalog *)

(** The Python object a catalog is, as the JSON encoder sees it. *)
Definition entry_json (e : entry) : value :=
  JDict [(lit "name", JStr (name e));
         (lit "description", JStr (description e));
         (lit "file", JStr (file e));
         (lit "line", JInt (line e))].

Definition catalog_json (cat : catalog) : value :=
  JDict (map (fun kv => (fst kv, JList (map entry_json (snd kv)))) cat).

Definition default_output : str := lit "method_catalog.json".

(** The exception of a text that cannot be encoded; what its message says
    of the character and its position is not modelled. *)
Definition encode_error : exn := Exn UnicodeEncodeError (lit "surrogates not allowed").

(** The [f.write(chunk)] calls of [json.dump] on a file opened with
    [encoding='utf-8']: the text written and, if a chunk cannot be encoded,
    the exception of that [write]. Each chunk is encoded when it is
    written, so of the chunk that raises nothing is written, and what was
    written before it stays. *)
Fixpoint write_chunks (chunks : list str) : str * option exn :=
  match chunks with
  | [] => ([], None)
  | chunk :: rest =>
      if utf8_encodable chunk
      then let (text, r) := write_chunks rest in (chunk ++ text, r)
      else ([], Some encode_error)
  end.

(** What a run leaves: the lines printed, the file store, and the exception
    that ended it, if one did. *)
Record outcome := Outcome {
  printed : list str;
  store : filesystem;
  raised : option exn
}.

(** [open(output_file, 'w', encoding='utf-8')] empties the document (it is
    taken to succeed: the store has no permissions), [json.dump] writes the
    chunks, and the [with] block closes the file, also on an exception, so
    the document then holds what was written before the chunk that could
    not be encoded. The line is printed after the block. *)
Definition save_catalog (cat : catalog) (output_file : str) (fs : filesystem)
    : outcome :=
  let (text, r) := write_chunks (dump_chunks 0 (catalog_json cat)) in
  let fs' := fs_write output_file text fs in
  match r with
  | Some e => Outcome [] fs' (Some e)
  | None => Outcome [lit "Catalog saved to " ++ output_file] fs' None
  end.

(** *** print_summary *)

(** [sum(len(functions) for functions in self.catalog.values())] *)
Definition total_functions (cat : catalog) : Z :=
  fold_left (fun acc kv => (acc + len (snd kv))%Z) cat 0%Z.

(** The description as a summary line shows it: its first 50 characters and
    three dots when it is longer than 50, itself otherwise. *)
Definition shown_description (func : entry) : str :=
  if (50 <? len (description func))%Z
  then firstn 50 (description func) ++ lit "..."
  else description func.

(** The lines printed for one file: its count, its first three functions
    and, when there are more, how many more. *)
Definition summary_block (file_path : str) (functions : list entry) : list str :=
  (lit "  " ++ file_path ++ lit ": " ++ int_repr (len functions) ++ lit " functions")
  :: map (fun func => lit "    - " ++ name func ++ lit ": " ++ shown_description func)
         (firstn 3 functions)
  ++ (if (3 <? len functions)%Z
      then [lit "    ... and " ++ int_repr (len functions - 3) ++ lit " more"]
      else []).

Definition print_summary (cat : catalog) : list str :=
  let total_files := len cat in
  [[10] ++ lit "=== Method Catalog Summary ===";
   lit "Files processed: " ++ int_repr total_files;
   lit "Functions found: " ++ int_repr (total_functions cat);
   [10] ++ lit "Files with functions:"]
  ++ flat_map (fun kv => summary_block (fst kv) (snd kv)) cat.

(** *** __init__ and main *)

Definition default_source_dirs : list str := [lit "src"; lit "assets"].

(** [MethodCatalogGenerator(source_dirs)]: the directories to scan
    ([source_dirs or ['src', 'assets']], so the default also stands in for
    an empty list) and the empty catalog. *)
Definition init (source_dirs : option (list str)) : list str * catalog :=
  (match source_dirs with
   | Some (d :: ds) => d :: ds
   | Some [] | None => default_source_dirs
   end,
   []).

Section Main.

Variable os_path_exists : str -> bool.
Variable os_walk : str -> list (str * list str * list str).
Variable os_path_join : str -> str -> str.
Variable os_path_relpath : str -> str.

(** [main]: an exception of [save_catalog] is not caught, so the summary
    is printed only after a save that succeeded. *)
Definition main (fs : filesystem) : outcome :=
  let (source_dirs, self_catalog) := init None in
  let (out1, cat) :=
    generate_catalog os_path_exists os_walk os_path_join os_path_relpath
                     fs source_dirs self_catalog in
  let saved := save_catalog cat default_output fs in
  match raised saved with
  | Some e => Outcome (out1 ++ printed saved) (store saved) (Some e)
  | None =>
      Outcome (out1 ++ printed saved ++ print_summary cat) (store saved) None
  end.

End Main.

End Gen.

(** ** analyze_duplicates.py *)

Module Ana.
Import Py Json Gen.

(** *** load_catalog *)

Definition load_catalog (fs : filesystem) : exn + value :=
  match fs (lit "method_catalog.json") with
  | inl e => inl e
  | inr text => loads text
  end.

Fixpoint traverse {A B} (f : A -> option B) (l : list A) : option (list B) :=
  match l with
  | [] => Some []
  | x :: l' =>
      match f x, traverse f l' with
      | Some y, Some ys => Some (y :: ys)
      | _, _ => None
      end
  end.

(** The loaded object read as a catalog: a dict of lists of dicts that have
    a string under [name], [description] and [file] and an int under
    [line]. *)
Definition as_entry (v : value) : option entry :=
  match v with
  | JDict d =>
      match dict_get (lit "name") d, dict_get (lit "description") d,
            dict_get (lit "file") d, dict_get (lit "line") d with
      | Some (JStr n), Some (JStr ds), Some (JStr f), Some (JInt l) =>
          Some (Entry n ds f l)
      | _, _, _, _ => None
      end
  | _ => None
  end.

Definition as_catalog (v : value) : option catalog :=
  match v with
  | JDict items =>
      traverse
        (fun kv =>
           match snd kv with
           | JList es => option_map (pair (fst kv)) (traverse as_entry es)
           | _ => None
           end)
        items
  | _ => None
  end.

(** *** analyze_duplicates *)

Record occurrence := Occurrence {
  occ_file : str;
  occ_description : str;
  occ_line : Z
}.

(** The inner loop over the methods of one file. *)
Fixpoint group_methods (file_path : str) (methods : list entry)
    (methods_by_name : dict (list occurrence)) : dict (list occurrence) :=
  match methods with
  | [] => methods_by_name
  | method :: rest =>
      group_methods file_path rest
        (dict_append (name method)
           (Occurrence file_path (description method) (line method))
           methods_by_name)
  end.

(** The loop over [catalog.items()]. *)
Fixpoint group_catalog (cat : catalog) (methods_by_name : dict (list occurrence))
    : dict (list occurrence) :=
  match cat with
  | [] => methods_by_name
  | (file_path, methods) :: rest =>
      group_catalog rest (group_methods file_path methods methods_by_name)
  end.

(** The loop over [methods_by_name.items()] that fills [duplicates]. *)
Fixpoint find_duplicates (items : list (str * list occurrence))
    (duplicates : dict (list occurrence)) : dict (list occurrence) :=
  match items with
  | [] => duplicates
  | (method_name, occurrences) :: rest =>
      find_duplicates rest
        (if (1 <? len occurrences)%Z
         then dict_set method_name occurrences duplicates
         else duplicates)
  end.

Definition analyze_duplicates (cat : catalog) : dict (list occurrence) :=
  find_duplicates (group_catalog cat []) [].

(** *** analyze_similar_functionality *)

Record method_info := MethodInfo {
  mi_name : str;
  mi_file : str;
  mi_description : str;
  mi_line : Z
}.

Definition patterns : dict (list str) :=
  [(lit "initialization", [lit "initialize"; lit "init"; lit "setup"; lit "create"]);
   (lit "disposal", [lit "dispose"; lit "cleanup"; lit "destroy"; lit "remove"]);
   (lit "update", [lit "update"; lit "tick"; lit "refresh"]);
   (lit "audio", [lit "play"; lit "sound"; lit "audio"; lit "music"]);
   (lit "player", [lit "player"; lit "spawn"; lit "death"; lit "kill"]);
   (lit "weapon", [lit "weapon"; lit "fire"; lit "shoot"; lit "reload"]);
   (lit "effects", [lit "effect"; lit "particle"; lit "visual"; lit "animation"]);
   (lit "manager", [lit "manager"; lit "handle"; lit "process"])].

Section TextCase.

(** [str.lower] and [str.upper]: Unicode case mapping, taken as given. *)
Variable lower : str -> str.
Variable upper : str -> str.

(** The condition of the [any(...)], for one keyword. *)
Definition keyword_hit (method : entry) (keyword : str) : bool :=
  contains (lower keyword) (lower (name method))
  || contains (lower keyword) (lower (description method)).

(** The loop over [patterns.items()] for one method. *)
Fixpoint classify (cats : list (str * list str)) (info : method_info)
    (method : entry) (similar_groups : dict (list method_info))
    : dict (list method_info) :=
  match cats with
  | [] => similar_groups
  | (category, keywords) :: rest =>
      classify rest info method
        (if existsb (keyword_hit method) keywords
         then dict_append category info similar_groups
         else similar_groups)
  end.

Fixpoint classify_methods (file_path : str) (methods : list entry)
    (similar_groups : dict (list method_info)) : dict (list method_info) :=
  match methods with
  | [] => similar_groups
  | method :: rest =>
      classify_methods file_path rest
        (classify patterns
           (MethodInfo (name method) file_path (description method) (line method))
           method similar_groups)
  end.

Fixpoint classify_catalog (cat : catalog) (similar_groups : dict (list method_info))
    : dict (list method_info) :=
  match cat with
  | [] => similar_groups
  | (file_path, methods) :: rest =>
      classify_catalog rest (classify_methods file_path methods similar_groups)
  end.

Definition analyze_similar_functionality (cat : catalog) : dict (list method_info) :=
  classify_catalog cat [].

(** Reading [similar_groups[category]]: a [defaultdict] gives the empty list
    for a category nothing was appended to. *)
Definition group_of (category : str) (similar_groups : dict (list method_info))
    : list method_info :=
  match dict_get category similar_groups with
  | Some l => l
  | None => []
  end.

(** *** Reports

    Each report is the list of the strings handed to [print], in order. *)

Definition nl : str := [10].

Definition print_duplicates (duplicates : dict (list occurrence)) : list str :=
  (lit "=== DUPLICATE METHOD NAMES ===" ++ nl)
  :: flat_map
       (fun kv =>
          (lit "Method: " ++ fst kv ++ lit " (" ++ int_repr (len (snd kv))
           ++ lit " occurrences)")
          :: map (fun occ =>
                    lit "  - " ++ occ_file occ ++ lit ":" ++ int_repr (occ_line occ)
                    ++ lit " - " ++ firstn 80 (occ_description occ) ++ lit "...")
                 (snd kv)
          ++ [[]])
       duplicates.

Definition print_similar_functionality (similar_groups : dict (list method_info))
    : list str :=
  (nl ++ lit "=== SIMILAR FUNCTIONALITY GROUPS ===" ++ nl)
  :: flat_map
       (fun kv =>
          let methods := snd kv in
          if (3 <? len methods)%Z then
            (lit "Category: " ++ upper (fst kv) ++ lit " (" ++ int_repr (len methods)
             ++ lit " methods)")
            :: map (fun m => lit "  - " ++ mi_name m ++ lit " in " ++ mi_file m)
                   (firstn 10 methods)
            ++ (if (10 <? len methods)%Z
                then [lit "  ... and " ++ int_repr (len methods - 10) ++ lit " more"]
                else [])
            ++ [[]]
          else [])
       similar_groups.

(** [sorted(..., key=method_count, reverse=True)]: descending and stable. *)
Fixpoint insert_desc (x : str * Z) (l : list (str * Z)) : list (str * Z) :=
  match l with
  | [] => [x]
  | y :: l' => if (snd y <? snd x)%Z then x :: l else y :: insert_desc x l'
  end.

Definition sorted_desc (l : list (str * Z)) : list (str * Z) :=
  fold_left (fun acc x => insert_desc x acc) l [].

(** Of [file_stats] only the method count is read. *)
Definition analyze_file_structure (cat : catalog) : list str :=
  let file_stats : dict Z :=
    fold_left (fun d kv => dict_set (fst kv) (len (snd kv)) d) cat [] in
  let large_files := filter (fun fs => (15 <? snd fs)%Z) file_stats in
  (nl ++ lit "=== FILE STRUCTURE ANALYSIS ===" ++ nl)
  :: lit "Large files (>15 methods) that might benefit from splitting:"
  :: map (fun fs => lit "  - " ++ fst fs ++ lit ": " ++ int_repr (snd fs) ++ lit " methods")
         (sorted_desc large_files)
  ++ [[]].

(** *** main *)

(** [sum(len(methods) for methods in catalog.values())] *)
Definition total_methods (cat : catalog) : Z :=
  fold_left (fun acc kv => (acc + len (snd kv))%Z) cat 0%Z.

(** The summary block of [main]: the lines printed, and the exception that
    ends it if one is raised. The f-string of the last line is evaluated
    before its [print]. *)
Definition summary (cat : catalog) (duplicates : dict (list occurrence))
    : list str * option exn :=
  let total_files := len cat in
  let total := total_methods cat in
  let duplicate_methods := len duplicates in
  let out :=
    [nl ++ lit "=== SUMMARY ===";
     lit "Total files: " ++ int_repr total_files;
     lit "Total methods: " ++ int_repr total;
     lit "Duplicate method names: " ++ int_repr duplicate_methods] in
  match true_div duplicate_methods total with
  | inl e => (out, Some e)
  | inr q =>
      (out ++ [lit "Duplication rate: "
               ++ format_1f (fmul q (float_of_int 100)) ++ lit "%"],
       None)
  end.

(** [main] once the catalog is loaded. *)
Definition main_on (cat : catalog) : list str * option exn :=
  let duplicates := analyze_duplicates cat in
  let out1 := print_duplicates duplicates in
  let similar_groups := analyze_similar_functionality cat in
  let out2 := print_similar_functionality similar_groups in
  let out3 := analyze_file_structure cat in
  let (out4, r) := summary cat duplicates in
  (out1 ++ out2 ++ out3 ++ out4, r).

(** [main]: what is printed, and the exception that reaches the caller, if
    any. An exception of [load_catalog] is not caught. The analyses are
    modelled on documents that have the shape of a catalog; for a document
    that is well-formed JSON of another shape the model reports a
    [TypeError] and follows neither where the analyses would raise nor what
    they would print before. *)
Definition main (fs : filesystem) : list str * option exn :=
  match load_catalog fs with
  | inl e => ([], Some e)
  | inr v =>
      match as_catalog v with
      | Some cat => main_on cat
      | None => ([], Some (Exn TypeError (lit "not a catalog")))
      end
  end.

End TextCase.

End Ana.

(** * Definitions for the properties

    The notions the statements below are written with (the discovery
    sequence of a catalog, the shapes of comment lines, the description the
    specification words, well-formed JSON values, the line shapes as
    scanners), the concrete files and catalogs the statements are
    instantiated at, and the tactics for character classes. *)

Import Py Re Json Gen Ana.

#[global] Arguments mem : simpl never.

(** ** Catalogs *)

(** The keys of a dictionary, in order. *)
Definition keys {V} (d : dict V) : list str := map fst d.

(** The entries of a file, line by line: each line gives the entries of
    [entry_at], none or one. *)
Definition entry_at (file_path : str) (lines : list str) (i : nat) (ln : str)
    : list entry :=
  match snd (try_patterns 0 Gen.patterns ln) with
  | Some nm =>
      [Entry nm (or_default (extract_jsdoc_comment lines i)) file_path
             (Z.of_nat i + 1)]
  | None => []
  end.

(** Every entry of every file of a catalog satisfies [P]. *)
Definition all_entries (P : entry -> Prop) (cat : catalog) : Prop :=
  Forall (fun kv => Forall P (snd kv)) cat.

(** ** Duplicate analysis *)

(** The discovery sequence of a catalog: every entry, files in the order of
    the catalog and entries in the order of their file, as the pair of its
    name and the occurrence recorded for it. *)
Definition discoveries (cat : catalog) : list (str * occurrence) :=
  flat_map
    (fun kv =>
       map (fun m => (name m, Occurrence (fst kv) (description m) (line m))) (snd kv))
    cat.

(** The values recorded under key [n], in order. *)
Definition occurrences_of {V} (n : str) (ds : list (str * V)) : list V :=
  map snd (filter (fun p => str_eqb (fst p) n) ds).

(** The distinct names of a list, in the order of their first occurrence. *)
Definition distinct (names : list str) : list str :=
  fold_left (fun acc n => if mem n acc then acc else acc ++ [n]) names [].

(** The number of entries of the catalog that are named [n]. *)
Definition count_name (n : str) (cat : catalog) : nat :=
  List.length (filter (fun m => str_eqb (name m) n) (flat_map snd cat)).

(** Grouping a sequence of keyed values with [dict_append]. *)
Definition group_all {V} (events : list (str * V)) (d : dict (list V))
    : dict (list V) :=
  fold_left (fun d p => dict_append (fst p) (snd p) d) events d.

Definition grouped {V} (events : list (str * V)) : dict (list V) :=
  map (fun n => (n, occurrences_of n events)) (distinct (map fst events)).

(** ** Similarity classification *)

(** [keyword] is a case-insensitive substring of [s]: it occurs in [s] once
    both are lower-cased. *)
Definition ci_substring (lower : str -> str) (keyword s : str) : bool :=
  contains (lower keyword) (lower s).

(** The entries of a catalog with the path they are filed under, in order. *)
Definition filed_entries (cat : catalog) : list (str * entry) :=
  flat_map (fun kv => map (pair (fst kv)) (snd kv)) cat.

Definition info_of (fm : str * entry) : method_info :=
  MethodInfo (name (snd fm)) (fst fm) (description (snd fm)) (line (snd fm)).

(** Lower-casing of ASCII text. *)
Definition ascii_lower (c : char) : char :=
  if (65 <=? c) && (c <=? 90) then c + 32 else c.

Definition is_ascii (s : str) : bool := forallb (fun c => c <? 128) s.

Definition sample_effect_entry : entry :=
  Entry (lit "initAudioEffect") (lit "Spawns a particle burst with sound")
        (lit "src/effects/Burst.js") 12.

Definition sample_effect_catalog : catalog :=
  [(lit "src/effects/Burst.js", [sample_effect_entry])].

(** ** Summary statistics *)

Definition summary_head (cat : catalog) (duplicates : dict (list occurrence))
    : list str :=
  [nl ++ lit "=== SUMMARY ===";
   lit "Total files: " ++ int_repr (len cat);
   lit "Total methods: " ++ int_repr (total_methods cat);
   lit "Duplicate method names: " ++ int_repr (len duplicates)].

Definition division_by_zero : exn := Exn ZeroDivisionError (lit "division by zero").

(** The float the summary formats: the quotient of the two counts, times
    one hundred, each operation rounded to binary64. *)
Definition rate_float (duplicate_methods total : Z) : float :=
  fmul (SFdiv prec emax (float_of_int duplicate_methods) (float_of_int total))
       (float_of_int 100).

(** A catalog of 100 entries in which the names of seven occur twice. *)
Definition numbered (file_path : str) (k : nat) : entry :=
  Entry (lit "method" ++ int_repr (Z.of_nat k)) no_description file_path
        (Z.of_nat k + 1).


(** ** Failures *)

Definition read_warning (file_path : str) (e : exn) : str :=
  lit "Error reading " ++ file_path ++ lit ": " ++ exn_msg e.

(** A store with one readable source file, one that cannot be decoded, and
    a catalog document cut short. *)
Definition sample_store : filesystem :=
  fun p =>
    if str_eqb p (lit "src/a.js") then inr (lit "update() {")
    else if str_eqb p (lit "src/bad.js")
    then inl (Exn UnicodeDecodeError (lit "invalid start byte"))
    else if str_eqb p (lit "method_catalog.json") then inr (lit "{")
    else inl (Exn FileNotFoundError (lit "No such file or directory")).

(** ** Doc comments *)

(** The two upward loops, on the lines above the index, nearest first. *)
Fixpoint collect_up (above_rev : list str) (acc : list str) : list str :=
  match above_rev with
  | [] => acc
  | l :: rest =>
      let line := strip l in
      if startswith (lit "/**") line then line :: acc
      else collect_up rest (line :: acc)
  end.

Fixpoint scan_up (above_rev : list str) : list str :=
  match above_rev with
  | [] => []
  | l :: rest =>
      let line := strip l in
      if endswith (lit "*/") line then collect_up rest [line]
      else if str_eqb line [] || startswith (lit "//") line then scan_up rest
      else []
  end.


Definition no_opener (l : str) : Prop := startswith (lit "/**") (strip l) = false.

Definition is_terminator (l : str) : Prop := endswith (lit "*/") (strip l) = true.

(** A blank line or a single-line comment (that does not end like a block
    comment). *)
Definition skippable (l : str) : Prop :=
  endswith (lit "*/") (strip l) = false
  /\ (str_eqb (strip l) [] || startswith (lit "//") (strip l)) = true.

Definition stray_terminator_file : str :=
  join nl [lit "let volume = 1;"; lit " * stray text"; lit " */"; lit "mute() {"].









(** ** JSON values *)

Definition digit_char (c : char) : Prop := is_digit c = true.

(** The text after a value the encoder wrote: nothing, a comma or a line
    feed. *)
Definition delimited (rest : str) : Prop :=
  match rest with
  | [] => True
  | c :: _ => c = 10 \/ c = Json.ch ","
  end.

(** The values the round trip is stated for: no float, and no key twice in
    a dict (a Python dict has no key twice). *)
Fixpoint wf (v : value) : Prop :=
  match v with
  | JFloat _ => False
  | JList items =>
      (fix go (l : list value) : Prop :=
         match l with
         | [] => True
         | x :: r => wf x /\ go r
         end) items
  | JDict items =>
      NoDup (keys items)
      /\ (fix go (l : list (str * value)) : Prop :=
            match l with
            | [] => True
            | kv :: r => wf (snd kv) /\ go r
            end) items
  | _ => True
  end.

(** The fuel that decoding the text of a value takes. *)
Fixpoint size (v : value) : nat :=
  match v with
  | JList items =>
      S ((fix go (l : list value) : nat :=
            match l with
            | [] => O
            | x :: r => S (size x + go r)
            end) items)
  | JDict items =>
      S ((fix go (l : list (str * value)) : nat :=
            match l with
            | [] => O
            | kv :: r => S (size (snd kv) + go r)
            end) items)
  | _ => 1%nat
  end.

Definition size_items (items : list value) : nat :=
  fold_right (fun x n => S (size x + n)) O items.

Definition size_pairs (items : list (str * value)) : nat :=
  fold_right (fun kv n => S (size (snd kv) + n)) O items.

(** The first character of the text of a value: no whitespace and no closing
    bracket. *)
Definition opens_value (c : char) : Prop :=
  is_ws c = false /\ (c =? Json.ch "]") = false /\ (c =? Json.ch "}") = false.

(** The decoder reads back the text of [v] at every nesting level, with
    enough fuel, whatever delimited text follows. *)
Definition reads_back (v : value) : Prop :=
  forall level fuel rest,
    (size v <= fuel)%nat -> delimited rest ->
    parse_value fuel (dump level v ++ rest) = Some (v, rest).

Definition item_sep (level : nat) : str := Json.ch "," :: newline_indent (S level).

Definition pair_text (level : nat) (kv : str * value) : str :=
  encode_string (fst kv) ++ lit ": " ++ dump (S level) (snd kv).

(** A catalog whose text needs escapes: a quote, a backslash, a line feed, a
    control character and a character outside ASCII. *)
Definition escaped_catalog : catalog :=
  [(lit "src/hud/Hud.js",
    [Entry (lit "drawText") (lit "Draws " ++ [34] ++ lit "text" ++ [34; 92; 10; 7; 233])
           (lit "src/hud/Hud.js") 10;
     Entry (lit "update") no_description (lit "src/hud/Hud.js") 42]);
   (lit "src/Game.js", [Entry (lit "update") no_description (lit "src/Game.js") 7])].

(** ** Line shapes *)

(** A continuation that fails on every input that starts with a character
    of class [p], whatever the offset and the capture. *)
Definition krejects {A} (k : nat -> str -> option str -> option A)
    (p : char -> bool) : Prop :=
  forall pos c s g, p c = true -> k pos (c :: s) g = None.

(** Reading one given character, and a given word. *)
Definition expect (c : char) (s : str) : option str :=
  match s with
  | c' :: s' => if c' =? c then Some s' else None
  | [] => None
  end.

Fixpoint expect_word (w s : str) : option str :=
  match w with
  | [] => Some s
  | c :: w' =>
      match expect c s with
      | Some s' => expect_word w' s'
      | None => None
      end
  end.

(** Reading an identifier: a start character and the longest run of
    identifier characters. Gives the identifier and the rest. *)
Definition lex_ident (s : str) : option (str * str) :=
  match s with
  | c :: s' =>
      if ident_start c
      then Some (c :: take_while ident_char s', drop_while ident_char s')
      else None
  | [] => None
  end.

Ltac class_facts :=
  unfold isspace, ident_start, ident_char, not_rparen, in_range in *;
  repeat match goal with
         | H : context [Json.ch ?a] |- _ =>
             let v := eval vm_compute in (Json.ch a) in
             change (Json.ch a) with v in H
         | |- context [Json.ch ?a] =>
             let v := eval vm_compute in (Json.ch a) in
             change (Json.ch a) with v
         end;
  repeat match goal with
         | H : _ = true |- _ =>
             progress rewrite ?orb_true_iff, ?andb_true_iff, ?negb_true_iff,
               ?N.leb_le, ?N.eqb_eq, ?N.eqb_neq in H
         end.

(** Two classes with no character in common. *)
Ltac disjoint_classes :=
  match goal with
  | |- ?b = false =>
      let E := fresh "E" in
      destruct b eqn:E; [exfalso; class_facts; lia | reflexivity]
  end.

Definition lex_ws (s : str) : str := drop_while isspace s.

Definition lex_ws1 (s : str) : option str :=
  match s with
  | c :: s' => if isspace c then Some (drop_while isspace s') else None
  | [] => None
  end.

(** Optional whitespace, a parameter list up to the first closing
    parenthesis, optional whitespace and an opening brace. *)
Definition lex_tail (s : str) : bool :=
  match expect (Json.ch "(") (lex_ws s) with
  | Some s1 =>
      match expect (Json.ch ")") (drop_while not_rparen s1) with
      | Some s2 =>
          match expect (Json.ch "{") (lex_ws s2) with
          | Some _ => true
          | None => false
          end
      | None => false
      end
  | None => false
  end.

(** An identifier and the tail, from the first character. *)
Definition lex_call (s : str) : option str :=
  match lex_ident s with
  | Some (nm, s1) => if lex_tail s1 then Some nm else None
  | None => None
  end.

(** A keyword, at least one whitespace character, then a call. *)
Definition lex_keyword_call (kw s : str) : option str :=
  match expect_word kw s with
  | Some s1 =>
      match lex_ws1 s1 with
      | Some s2 => lex_call s2
      | None => None
      end
  | None => None
  end.

Definition lex_method (line : str) : option str := lex_call (lex_ws line).

Definition lex_function (line : str) : option str :=
  lex_keyword_call (lit "function") (lex_ws line).

Definition lex_arrow (line : str) : option str :=
  match lex_ident (lex_ws line) with
  | Some (nm, s1) =>
      match expect (Json.ch "=") (lex_ws s1) with
      | Some s2 =>
          match expect (Json.ch "(") (lex_ws s2) with
          | Some s3 =>
              match expect (Json.ch ")") (drop_while not_rparen s3) with
              | Some s4 =>
                  match expect_word (lit "=>") (lex_ws s4) with
                  | Some s5 =>
                      match expect (Json.ch "{") (lex_ws s5) with
                      | Some _ => Some nm
                      | None => None
                      end
                  | None => None
                  end
              | None => None
              end
          | None => None
          end
      | None => None
      end
  | None => None
  end.

Definition lex_async (line : str) : option str :=
  match lex_keyword_call (lit "async") (lex_ws line) with
  | Some nm => Some nm
  | None => lex_call (lex_ws line)
  end.

Definition found (r : option str) : option match_obj :=
  option_map (fun nm => Match (Some nm)) r.

Definition final : nat -> str -> option str -> option match_obj :=
  fun _ _ g => Some (Match g).

(** A word made of identifier characters. *)
Definition ident_word (kw : str) : Prop :=
  match kw with
  | k0 :: kw' => ident_start k0 = true /\ forallb ident_char kw' = true
  | [] => False
  end.

(** The loop goes past a pattern: it did not match, or it matched and what
    it captured is on the stoplist. *)
Definition passed_over (q : regex) (line : str) : Prop :=
  match search q line with
  | None => True
  | Some m =>
      match group1 m with
      | Some kw => mem kw stoplist = true
      | None => True
      end
  end.

(** ** Declaration lines *)

(** What the pattern loop finds on a line: the name of the entry, if the
    line gives one. *)
Definition detect (line : str) : option str :=
  snd (try_patterns 0 Gen.patterns line).

Definition blank (s : str) : Prop := forallb isspace s = true.

(** The text between the parentheses: no closing parenthesis in it. *)
Definition param_text (ps : str) : Prop := forallb not_rparen ps = true.

(** Optional whitespace, a parameter list, optional whitespace, an opening
    brace, and whatever follows on the line. *)
Definition call_tail (sp1 ps sp2 rest : str) : str :=
  sp1 ++ lit "(" ++ ps ++ lit ")" ++ sp2 ++ lit "{" ++ rest.

Inductive tail_text : str -> Prop :=
| TailText (sp1 ps sp2 rest : str) :
    blank sp1 -> param_text ps -> blank sp2 ->
    tail_text (call_tail sp1 ps sp2 rest).

(** The four shapes of a declaration of [nm]: a method, a [function], an
    [async] method, an arrow function assigned to [nm]. *)
Inductive declares (nm : str) : str -> Prop :=
| DeclMethod (ind t : str) :
    blank ind -> tail_text t -> declares nm (ind ++ nm ++ t)
| DeclFunction (ind sp t : str) :
    blank ind -> blank sp -> sp <> [] -> tail_text t ->
    declares nm (ind ++ lit "function" ++ sp ++ nm ++ t)
| DeclAsync (ind sp t : str) :
    blank ind -> blank sp -> sp <> [] -> tail_text t ->
    declares nm (ind ++ lit "async" ++ sp ++ nm ++ t)
| DeclArrow (ind sp1 sp2 ps sp3 sp4 rest : str) :
    blank ind -> blank sp1 -> blank sp2 -> param_text ps -> blank sp3 -> blank sp4 ->
    declares nm (ind ++ nm ++ sp1 ++ lit "=" ++ sp2 ++ lit "(" ++ ps ++ lit ")"
                 ++ sp3 ++ lit "=>" ++ sp4 ++ lit "{" ++ rest).

(** What the loop keeps of a capture: a keyword of the stoplist is passed
    over, and the loop goes on to [next]. *)
Definition keep (r next : option str) : option str :=
  match r with
  | Some nm => if mem nm stoplist then next else Some nm
  | None => next
  end.

(** ** The entries of a file *)

(** [enumerate(lines)] *)
Definition enumerate {A} (l : list A) : list (nat * A) :=
  combine (seq 0 (List.length l)) l.

(** The name and the line number a line gives, if it is a declaration. *)
Definition declared_at (iln : nat * str) : list (str * Z) :=
  match detect (snd iln) with
  | Some nm => [(nm, (Z.of_nat (fst iln) + 1)%Z)]
  | None => []
  end.

(** A text that does not begin with whitespace. *)
Definition starts_solid (s : str) : Prop :=
  match s with
  | [] => True
  | c :: _ => isspace c = false
  end.

(** A text with no whitespace at either end, and not empty. *)
Definition trimmed (s : str) : Prop :=
  s <> [] /\ starts_solid s /\ starts_solid (rev s).

(** A line of code: after stripping it is not empty, does not begin a
    single-line comment and does not end a block comment. *)
Definition code_line (l : str) : Prop :=
  endswith (lit "*/") (strip l) = false
  /\ (str_eqb (strip l) [] || startswith (lit "//") (strip l)) = false.

(** The last of the lines, if there is one, is a line of code. *)
Definition ends_in_code (ls : list str) : Prop :=
  match rev ls with
  | [] => True
  | l :: _ => code_line l
  end.

(** [' '.join(description) or 'No description available'] *)
Definition described (cleaned : list str) : str :=
  match join (lit " ") cleaned with
  | [] => no_description
  | c :: s => c :: s
  end.

(** A doc comment with padded lines and an empty line. *)
Definition padded_comment_file : str :=
  join nl [lit "/**"; lit " *   Fades the music out.  "; lit " *";
           lit " * Called on pause.   "; lit " */"; lit "fadeOut(ms) {"].

(** A function below a statement, a blank line and a single-line comment. *)
Definition undocumented_file : str :=
  join nl [lit "let score = 0;"; lit ""; lit "// resets the score";
           lit "reset() {"].

(** ** Catalog generation *)

Definition not_found_warning (d : str) : str :=
  lit "Warning: Directory '" ++ d ++ lit "' not found".

(** What is printed while one file is processed. *)
Definition processing_lines (fs : filesystem) (p : str) : list str :=
  (lit "Processing: " ++ p) :: fst (extract_functions_from_file fs p).

(** A source tree: [src] holds two scripts and a text file, [src/audio] one
    script, and there is no directory [assets]. One of the scripts cannot
    be decoded. *)
Definition sample_exists (d : str) : bool := str_eqb d (lit "src").

Definition sample_walk (d : str) : list (str * list str * list str) :=
  if str_eqb d (lit "src")
  then [(lit "src", [lit "audio"], [lit "a.js"; lit "notes.md"; lit "bad.js"]);
        (lit "src/audio", [], [lit "mixer.js"])]
  else [].

Definition sample_join (root file : str) : str := root ++ lit "/" ++ file.

Definition sample_relpath (p : str) : str := p.

Definition sample_tree : filesystem :=
  fun p =>
    if str_eqb p (lit "src/a.js") then inr (lit "update() {")
    else if str_eqb p (lit "src/bad.js")
    then inl (Exn UnicodeDecodeError (lit "invalid start byte"))
    else if str_eqb p (lit "src/audio/mixer.js")
    then inr (join nl [lit "/**"; lit " * Mixes two channels."; lit " */";
                       lit "mix(a, b) {"; lit "}"; lit "update() {"])
    else if str_eqb p (lit "src/notes.md") then inr (lit "notes() {")
    else inl (Exn FileNotFoundError (lit "No such file or directory")).

(** The second loop of [generate_catalog], one file at a time: a file with
    functions is filed under its relative path, a file without is left
    out. *)
Definition file_step (os_path_relpath : str -> str) (fs : filesystem)
    (cat : catalog) (file_path : str) : catalog :=
  match snd (extract_functions_from_file fs file_path) with
  | [] => cat
  | f :: functions => dict_set (os_path_relpath file_path) (f :: functions) cat
  end.

(** ** The analyzer's reports *)

Definition duplicates_heading : str := lit "=== DUPLICATE METHOD NAMES ===" ++ nl.

(** The line that opens the block of a duplicate name. *)
Definition method_line (n : str) (count : nat) : str :=
  lit "Method: " ++ n ++ lit " (" ++ int_repr (Z.of_nat count) ++ lit " occurrences)".

Definition similar_heading : str :=
  nl ++ lit "=== SIMILAR FUNCTIONALITY GROUPS ===" ++ nl.

(** What a [defaultdict(list)] that is only appended to looks like: no key
    twice, no empty list, and keys among [allowed]. *)
Definition appended_only {V} (allowed : list str) (d : dict (list V)) : Prop :=
  NoDup (keys d)
  /\ Forall (fun kv => snd kv <> []) d
  /\ incl (keys d) allowed.

(** The files of a catalog with their number of methods, and those of them
    with more than 15. *)
Definition file_counts (cat : catalog) : list (str * Z) :=
  map (fun kv => (fst kv, len (snd kv))) cat.

Definition large_files (cat : catalog) : list (str * Z) :=
  filter (fun fc => (15 <? snd fc)%Z) (file_counts cat).

Definition large_file_line (fc : str * Z) : str :=
  lit "  - " ++ fst fc ++ lit ": " ++ int_repr (snd fc) ++ lit " methods".

Definition structure_heading : list str :=
  [nl ++ lit "=== FILE STRUCTURE ANALYSIS ===" ++ nl;
   lit "Large files (>15 methods) that might benefit from splitting:"].

(** The order of the listing: no file before one with more methods. *)
Definition by_count_desc (a b : str * Z) : Prop := (snd b <= snd a)%Z.

(** The files of a given count, in order. *)
Definition with_count (c : Z) (l : list (str * Z)) : list (str * Z) :=
  filter (fun fc => (snd fc =? c)%Z) l.

(** A catalog with three large files, two of them of the same size. *)
Definition large_catalog : catalog :=
  [(lit "src/Game.js", map (numbered (lit "src/Game.js")) (seq 0 20));
   (lit "src/Hud.js", map (numbered (lit "src/Hud.js")) (seq 0 3));
   (lit "src/Net.js", map (numbered (lit "src/Net.js")) (seq 0 20));
   (lit "src/Ai.js", map (numbered (lit "src/Ai.js")) (seq 0 31))].

(** Upper-casing of ASCII text. *)
Definition ascii_upper (c : char) : char :=
  if (97 <=? c) && (c <=? 122) then c - 32 else c.

(** A catalog of twelve update methods in one file. *)
Definition update_catalog : catalog :=
  [(lit "src/World.js",
    map (fun k => Entry (lit "update" ++ int_repr (Z.of_nat k))
                        (lit "Advances one part of the world.")
                        (lit "src/World.js") (Z.of_nat k + 1))
        (seq 0 12))].

(** The lines that the report of the similarity groups prints for one
    group. *)
Definition similar_block (upper : str -> str) (kv : str * list method_info)
    : list str :=
  let methods := snd kv in
  if (3 <? len methods)%Z then
    (lit "Category: " ++ upper (fst kv) ++ lit " (" ++ int_repr (len methods)
     ++ lit " methods)")
    :: map (fun m => lit "  - " ++ mi_name m ++ lit " in " ++ mi_file m)
           (firstn 10 methods)
    ++ (if (10 <? len methods)%Z
        then [lit "  ... and " ++ int_repr (len methods - 10) ++ lit " more"]
        else [])
    ++ [[]]
  else [].

(** The entries that reading a file gives. *)
Definition file_functions (fs : filesystem) (p : str) : list entry :=
  snd (extract_functions_from_file fs p).

(** ** From the generator to the analyzer *)

(** Where an occurrence is: the file it is filed under and its line. *)
Definition occurrence_place (o : occurrence) : str * Z := (occ_file o, occ_line o).

(** A store and a walk with no source directory. *)
Definition empty_tree : filesystem :=
  fun _ => inl (Exn FileNotFoundError (lit "No such file or directory")).

Definition no_directory (d : str) : bool := false.

Definition empty_walk (d : str) : list (str * list str * list str) := [].

(** ** Text that can be encoded *)

(** No string of the value holds a surrogate. *)
Fixpoint value_encodable (v : value) : bool :=
  match v with
  | JStr s => utf8_encodable s
  | JFloat lexeme => utf8_encodable lexeme
  | JList items => forallb value_encodable items
  | JDict items =>
      forallb (fun kv => utf8_encodable (fst kv) && value_encodable (snd kv)) items
  | _ => true
  end.

Definition entry_encodable (e : entry) : bool :=
  utf8_encodable (name e) && utf8_encodable (description e)
  && utf8_encodable (file e).

(** No key and no string field of the catalog holds a surrogate. *)
Definition catalog_encodable (cat : catalog) : bool :=
  forallb (fun kv => utf8_encodable (fst kv) && forallb entry_encodable (snd kv)) cat.

(** The text of a value that is no container, and of a container the text
    of its chunks. *)
Definition chunk_text (f : value -> list str) (v : value) : str :=
  match atom_text v with
  | Some text => text
  | None => List.concat (f v)
  end.

(** A file name that is not valid UTF-8, as [os.walk] gives it: the byte
    0xE9 has become the surrogate U+DCE9. *)
Definition surrogate_path : str := lit "src/caf" ++ [0xDCE9] ++ lit ".js".

Definition surrogate_catalog : catalog :=
  [(surrogate_path, [Entry (lit "brew") no_description surrogate_path 1])].

(** ** Cut documents *)

(** A character that can follow a number in a document: whitespace, a comma
    or a closing bracket. *)
Definition ends_number (c : char) : bool :=
  is_ws c || (c =? Json.ch ",") || (c =? Json.ch "]") || (c =? Json.ch "}").

(** Text that begins with such a character. *)
Definition closed (r : str) : Prop :=
  match r with
  | c :: _ => ends_number c = true
  | [] => False
  end.

(** Text that begins a string, an object or an array: values whose end does
    not depend on what follows them. *)
Definition bracketed (s : str) : Prop :=
  match s with
  | c :: _ => c = dquote \/ c = Json.ch "{" \/ c = Json.ch "["
  | [] => False
  end.

(** The three decoders read the same value from a text when more text is
    put after it. *)
Definition reads_more (fuel : nat) : Prop :=
  (forall s v r, parse_value fuel s = Some (v, r) -> bracketed s \/ closed r ->
     forall fuel' t, (fuel <= fuel')%nat ->
       parse_value fuel' (s ++ t) = Some (v, r ++ t))
  /\ (forall s acc v r, parse_items fuel s acc = Some (v, r) ->
        forall fuel' t, (fuel <= fuel')%nat ->
          parse_items fuel' (s ++ t) acc = Some (v, r ++ t))
  /\ (forall s acc v r, parse_pairs fuel s acc = Some (v, r) ->
        forall fuel' t, (fuel <= fuel')%nat ->
          parse_pairs fuel' (s ++ t) acc = Some (v, r ++ t)).

(** [main] of the generator after the generation: the save, and the summary
    if the save succeeded. *)
Definition generator_run (generated : list str * catalog) (fs : filesystem) : outcome :=
  let saved := save_catalog (snd generated) default_output fs in
  match raised saved with
  | Some e => Outcome (fst generated ++ printed saved) (store saved) (Some e)
  | None =>
      Outcome (fst generated ++ printed saved ++ print_summary (snd generated))
              (store saved) None
  end.

(** A source tree with one script whose name is not valid UTF-8: the byte
    [0xE9] of the name reaches Python as the surrogate [U+DCE9]. *)
Definition surrogate_walk (d : str) : list (str * list str * list str) :=
  if str_eqb d (lit "src")
  then [(lit "src", [], [lit "caf" ++ [0xDCE9] ++ lit ".js"])]
  else [].

Definition surrogate_tree : filesystem :=
  fun p =>
    if str_eqb p surrogate_path then inr (lit "brew() {")
    else inl (Exn FileNotFoundError (lit "No such file or directory")).


(** * Properties *)

(** ** Text and dictionary lemmas *)

Lemma str_eqb_eq (a b : str) : str_eqb a b = true <-> a = b.
Proof.
  revert b; induction a as [|x a IH]; intros [|y b]; simpl; split;
    try congruence; try reflexivity.
  - intros H. apply andb_true_iff in H as [H1 H2].
    apply N.eqb_eq in H1. apply IH in H2. congruence.
  - intros [= -> ->]. rewrite N.eqb_refl. simpl. now apply IH.
Qed.

Lemma str_eqb_refl (a : str) : str_eqb a a = true.
Proof. now apply str_eqb_eq. Qed.

Lemma str_eqb_neq (a b : str) : str_eqb a b = false <-> a <> b.
Proof.
  rewrite <- str_eqb_eq. destruct (str_eqb a b); split; congruence.
Qed.

Lemma str_eqb_sym (a b : str) : str_eqb a b = str_eqb b a.
Proof.
  destruct (str_eqb a b) eqn:E; symmetry.
  - apply str_eqb_eq. apply str_eqb_eq in E. congruence.
  - apply str_eqb_neq. apply str_eqb_neq in E. congruence.
Qed.

Lemma mem_In (x : str) (xs : list str) : mem x xs = true <-> In x xs.
Proof.
  unfold mem. rewrite existsb_exists. split.
  - intros (y & Hy & E). apply str_eqb_eq in E. now subst.
  - intros H. exists x. split; [assumption | apply str_eqb_refl].
Qed.

Lemma mem_not_In (x : str) (xs : list str) : mem x xs = false <-> ~ In x xs.
Proof.
  rewrite <- mem_In. destruct (mem x xs); split; congruence.
Qed.

Lemma dict_get_None {V} (k : str) (d : dict V) :
  dict_get k d = None <-> ~ In k (keys d).
Proof.
  induction d as [|[k' v] d IH]; simpl.
  - tauto.
  - destruct (str_eqb k k') eqn:E.
    + apply str_eqb_eq in E. subst. split; [discriminate | tauto].
    + apply str_eqb_neq in E. rewrite IH. split; [intros H [H1|H1] | ]; intuition congruence.
Qed.

Lemma dict_get_In {V} (k : str) (v : V) (d : dict V) :
  NoDup (keys d) -> In (k, v) d -> dict_get k d = Some v.
Proof.
  induction d as [|[k' v'] d IH]; simpl; [tauto|].
  intros ND [H|H]; inversion ND as [|? ? Hn ND']; subst.
  - injection H as -> ->. now rewrite str_eqb_refl.
  - destruct (str_eqb k k') eqn:E.
    + apply str_eqb_eq in E. subst. exfalso. apply Hn.
      change k' with (fst (k', v)). now apply in_map.
    + now apply IH.
Qed.

Lemma dict_set_fresh {V} (k : str) (v : V) (d : dict V) :
  ~ In k (keys d) -> dict_set k v d = d ++ [(k, v)].
Proof.
  induction d as [|[k' v'] d IH]; simpl; [reflexivity|].
  intros H. destruct (str_eqb k k') eqn:E.
  - apply str_eqb_eq in E. subst. tauto.
  - rewrite IH; [reflexivity | tauto].
Qed.

Lemma dict_append_fresh {V} (k : str) (x : V) (d : dict (list V)) :
  ~ In k (keys d) -> dict_append k x d = d ++ [(k, [x])].
Proof.
  induction d as [|[k' v'] d IH]; simpl; [reflexivity|].
  intros H. destruct (str_eqb k k') eqn:E.
  - apply str_eqb_eq in E. subst. tauto.
  - rewrite IH; [reflexivity | tauto].
Qed.

Lemma dict_get_append {V} (k k' : str) (x : V) (d : dict (list V)) :
  dict_get k (dict_append k' x d)
  = if str_eqb k k'
    then Some (match dict_get k d with Some l => l ++ [x] | None => [x] end)
    else dict_get k d.
Proof.
  induction d as [|[k0 l0] d IH]; simpl.
  - destruct (str_eqb k k'); reflexivity.
  - destruct (str_eqb k' k0) eqn:E0; simpl.
    + apply str_eqb_eq in E0. subst k0.
      destruct (str_eqb k k'); reflexivity.
    + destruct (str_eqb k k0) eqn:E1.
      * apply str_eqb_eq in E1. subst k0.
        rewrite str_eqb_sym in E0. now rewrite E0.
      * apply IH.
Qed.

(** ** The stoplist (C5) *)

Lemma try_patterns_cons (idx : nat) (p : regex) (pats : list regex) (line : str) :
  try_patterns idx (p :: pats) line
  = let next := let (log, r) := try_patterns (S idx) pats line in (idx :: log, r) in
    match search p line with
    | Some m =>
        match group1 m with
        | Some function_name =>
            if mem function_name stoplist then next else ([idx], Some function_name)
        | None => next
        end
    | None => next
    end.
Proof. reflexivity. Qed.

Lemma try_patterns_not_stoplisted (idx : nat) (pats : list regex) (line nm : str) :
  snd (try_patterns idx pats line) = Some nm -> mem nm stoplist = false.
Proof.
  revert idx. induction pats as [|p pats IH]; intros idx; [discriminate|].
  rewrite try_patterns_cons. cbv zeta.
  specialize (IH (S idx)).
  destruct (try_patterns (S idx) pats line) as [log r].
  destruct (search p line) as [m|]; [|exact IH].
  destruct (group1 m) as [fname|]; [|exact IH].
  destruct (mem fname stoplist) eqn:E; [exact IH|].
  simpl. congruence.
Qed.

Lemma scan_lines_cons (fp : str) (lines : list str) (i : nat) (ln : str)
    (rest : list str) :
  scan_lines fp lines i (ln :: rest)
  = entry_at fp lines i ln ++ scan_lines fp lines (S i) rest.
Proof.
  unfold entry_at. cbn [scan_lines].
  destruct (snd (try_patterns 0 Gen.patterns ln)); reflexivity.
Qed.

Lemma scan_lines_app (fp : str) (lines : list str) (i : nat) (l1 l2 : list str) :
  scan_lines fp lines i (l1 ++ l2)
  = scan_lines fp lines i l1 ++ scan_lines fp lines (i + List.length l1) l2.
Proof.
  revert i. induction l1 as [|ln l1 IH]; intros i.
  - simpl. now rewrite Nat.add_0_r.
  - rewrite <- app_comm_cons, !scan_lines_cons, IH, <- app_assoc.
    simpl List.length. now rewrite Nat.add_succ_r.
Qed.

Lemma scan_lines_In (fp : str) (lines : list str) (i : nat) (rest : list str)
    (e : entry) :
  In e (scan_lines fp lines i rest)
  <-> exists j ln, nth_error rest j = Some ln /\ In e (entry_at fp lines (i + j) ln).
Proof.
  revert i. induction rest as [|ln rest IH]; intros i.
  - simpl. split; [tauto|]. intros (j & l & H & _). now destruct j.
  - rewrite scan_lines_cons, in_app_iff, IH. split.
    + intros [H|(j & l & H1 & H2)].
      * exists 0%nat, ln. now rewrite Nat.add_0_r.
      * exists (S j), l. now rewrite Nat.add_succ_r.
    + intros ([|j] & l & H1 & H2); simpl in H1.
      * injection H1 as ->. rewrite Nat.add_0_r in H2. now left.
      * right. exists j, l. now rewrite Nat.add_succ_r in H2.
Qed.

(** Where an entry comes from: a line of the file, by its number, and the
    name the pattern loop gave for that line. *)
Lemma entry_origin (fp content : str) (e : entry) :
  In e (extract_functions fp content) ->
  exists i ln,
    nth_error (split (Json.ch "010") content) i = Some ln
    /\ line e = (Z.of_nat i + 1)%Z
    /\ snd (try_patterns 0 Gen.patterns ln) = Some (name e)
    /\ description e
       = or_default (extract_jsdoc_comment (split (Json.ch "010") content) i)
    /\ file e = fp.
Proof.
  unfold extract_functions. intros H.
  apply scan_lines_In in H as (j & ln & Hj & H). simpl in H.
  exists j, ln. split; [exact Hj|]. unfold entry_at in H.
  destruct (snd (try_patterns 0 Gen.patterns ln)) as [nm|]; [|destruct H].
  destruct H as [<-|[]]. repeat split.
Qed.

Lemma entry_at_not_stoplisted (fp : str) (lines : list str) (i : nat) (ln : str)
    (e : entry) :
  In e (entry_at fp lines i ln) -> ~ In (name e) stoplist.
Proof.
  unfold entry_at.
  destruct (snd (try_patterns 0 Gen.patterns ln)) as [nm|] eqn:E; [|intros []].
  intros [<-|[]]. cbn [name]. apply mem_not_In.
  now apply try_patterns_not_stoplisted in E.
Qed.

Lemma extract_functions_not_stoplisted (fp content : str) :
  Forall (fun e => ~ In (name e) stoplist) (extract_functions fp content).
Proof.
  apply Forall_forall. intros e H. unfold extract_functions in H.
  apply scan_lines_In in H as (j & ln & _ & H).
  now apply entry_at_not_stoplisted in H.
Qed.

Lemma in_dict_set {V} (k k0 : str) (v v0 : V) (d : dict V) :
  In (k, v) (dict_set k0 v0 d) -> v = v0 \/ In (k, v) d.
Proof.
  induction d as [|[k' v'] d IH]; simpl.
  - intros [[= _ <-]|[]]. now left.
  - destruct (str_eqb k0 k'); simpl.
    + intros [[= _ <-]|H]; [now left | now right; right].
    + intros [H|H]; [now right; left | ].
      destruct (IH H); [now left | now right; right].
Qed.

Section GenerateInvariant.
Variable os_path_exists : str -> bool.
Variable os_walk : str -> list (str * list str * list str).
Variable os_path_join : str -> str -> str.
Variable os_path_relpath : str -> str.

Lemma process_files_all (P : entry -> Prop) (fs : filesystem) :
  (forall fp, Forall P (snd (extract_functions_from_file fs fp))) ->
  forall all_files cat,
    all_entries P cat ->
    all_entries P (snd (process_files os_path_relpath fs all_files cat)).
Proof.
  intros HP all_files. induction all_files as [|fp rest IH]; intros cat Hc.
  - exact Hc.
  - simpl. specialize (HP fp).
    destruct (extract_functions_from_file fs fp) as [out1 functions].
    simpl in HP.
    match goal with
    | |- context [process_files _ _ rest ?c] =>
        specialize (IH c); destruct (process_files os_path_relpath fs rest c)
    end.
    simpl in *. apply IH.
    destruct functions as [|f functions]; [exact Hc|].
    apply Forall_forall. intros [k v] Hin. simpl.
    apply in_dict_set in Hin as [->|Hin]; [exact HP|].
    unfold all_entries in Hc. rewrite Forall_forall in Hc. exact (Hc _ Hin).
Qed.

End GenerateInvariant.

(** C5. No entry is ever named by a control-flow keyword ([if], [for],
    [while], [switch], [catch], [else]): not by whatever list of patterns the
    line loop is run with, not in the entries extracted from any file of any
    file store, and so not in any catalog generated from an empty one. *)
Theorem no_keyword_entry :
  (forall idx pats line nm,
      snd (try_patterns idx pats line) = Some nm -> ~ In nm stoplist)
  /\ (forall fs file_path,
         Forall (fun e => ~ In (name e) stoplist)
                (snd (extract_functions_from_file fs file_path)))
  /\ (forall os_path_exists os_walk os_path_join os_path_relpath fs source_dirs,
         all_entries (fun e => ~ In (name e) stoplist)
           (snd (generate_catalog os_path_exists os_walk os_path_join
                                  os_path_relpath fs source_dirs []))).
Proof.
  assert (H2 : forall fs file_path,
             Forall (fun e => ~ In (name e) stoplist)
                    (snd (extract_functions_from_file fs file_path))).
  { intros fs fp. unfold extract_functions_from_file.
    destruct (fs fp); simpl; [constructor | apply extract_functions_not_stoplisted]. }
  split; [|split].
  - intros idx pats line nm H. apply mem_not_In.
    now apply try_patterns_not_stoplisted in H.
  - exact H2.
  - intros ex wk jn rp fs dirs. unfold generate_catalog.
    destruct (gather_files ex wk jn dirs) as [out1 files].
    pose proof (process_files_all rp _ fs (H2 fs) files [] (Forall_nil _)) as H.
    destruct (process_files rp fs files []). exact H.
Qed.

(** ** Duplicate analysis (C2) *)

Lemma distinct_snoc (names : list str) (n : str) :
  distinct (names ++ [n])
  = if mem n (distinct names) then distinct names else distinct names ++ [n].
Proof. unfold distinct. now rewrite fold_left_app. Qed.

Lemma distinct_spec (names : list str) :
  NoDup (distinct names) /\ forall n, In n (distinct names) <-> In n names.
Proof.
  induction names as [|n names [IH1 IH2]] using rev_ind.
  - split; [constructor | reflexivity].
  - rewrite distinct_snoc. destruct (mem n (distinct names)) eqn:E.
    + split; [assumption|]. intros k. rewrite in_app_iff, IH2. simpl.
      apply mem_In in E. apply IH2 in E. intuition (subst; auto).
    + apply mem_not_In in E. split.
      * apply NoDup_app; [assumption | repeat constructor; simpl; tauto | ].
        intros k Hk [<-|[]]. contradiction.
      * intros k. rewrite !in_app_iff, IH2. reflexivity.
Qed.

Lemma occurrences_of_snoc {V} (n k : str) (x : V) (ds : list (str * V)) :
  occurrences_of n (ds ++ [(k, x)])
  = occurrences_of n ds ++ (if str_eqb k n then [x] else []).
Proof.
  unfold occurrences_of. rewrite filter_app, map_app. simpl.
  destruct (str_eqb k n); reflexivity.
Qed.

Lemma occurrences_of_absent {V} (n : str) (ds : list (str * V)) :
  ~ In n (map fst ds) -> occurrences_of n ds = [].
Proof.
  unfold occurrences_of. induction ds as [|[k x] ds IH]; simpl; [reflexivity|].
  intros H. destruct (str_eqb k n) eqn:E.
  - apply str_eqb_eq in E. tauto.
  - apply IH. tauto.
Qed.

Lemma mem_cons (k a : str) (ns : list str) :
  mem k (a :: ns) = str_eqb k a || mem k ns.
Proof. reflexivity. Qed.

Lemma dict_append_map {V} (k : str) (x : V) (f : str -> list V) (ns : list str) :
  NoDup ns ->
  dict_append k x (map (fun n => (n, f n)) ns)
  = if mem k ns
    then map (fun n => (n, f n ++ (if str_eqb k n then [x] else []))) ns
    else map (fun n => (n, f n)) ns ++ [(k, [x])].
Proof.
  induction ns as [|a ns IH]; intros ND; [reflexivity|].
  inversion ND as [|? ? Ha ND']; subst.
  rewrite mem_cons. cbn [map dict_append].
  destruct (str_eqb k a) eqn:E; cbn [orb].
  - apply str_eqb_eq in E. subst a. f_equal.
    apply map_ext_in. intros n Hn.
    destruct (str_eqb k n) eqn:E'.
    + apply str_eqb_eq in E'. subst. contradiction.
    + now rewrite app_nil_r.
  - rewrite (IH ND'). rewrite app_nil_r.
    destruct (mem k ns); reflexivity.
Qed.

Lemma group_all_grouped {V} (events : list (str * V)) :
  group_all events [] = grouped events.
Proof.
  induction events as [|[k x] events IH] using rev_ind; [reflexivity|].
  unfold group_all in *. rewrite fold_left_app, IH. cbn [fold_left fst snd].
  unfold grouped. destruct (distinct_spec (map fst events)) as [ND Hin].
  rewrite (dict_append_map k x _ _ ND).
  rewrite map_app. cbn [map fst]. rewrite distinct_snoc.
  destruct (mem k (distinct (map fst events))) eqn:E.
  - apply map_ext. intros n. now rewrite occurrences_of_snoc.
  - rewrite map_app. cbn [map]. f_equal.
    + apply map_ext_in. intros n Hn. rewrite occurrences_of_snoc.
      destruct (str_eqb k n) eqn:E'; [|now rewrite app_nil_r].
      apply str_eqb_eq in E'. subst n. apply mem_not_In in E. contradiction.
    + rewrite occurrences_of_snoc, str_eqb_refl, occurrences_of_absent; [reflexivity|].
      apply mem_not_In in E. now rewrite <- Hin.
Qed.

Lemma group_methods_eq (fp : str) (methods : list entry) (d : dict (list occurrence)) :
  group_methods fp methods d
  = group_all (map (fun m => (name m, Occurrence fp (description m) (line m))) methods) d.
Proof.
  revert d. induction methods as [|m methods IH]; intros d; [reflexivity|].
  simpl. now rewrite IH.
Qed.

Lemma group_catalog_eq (cat : catalog) (d : dict (list occurrence)) :
  group_catalog cat d = group_all (discoveries cat) d.
Proof.
  revert d. induction cat as [|[fp methods] cat IH]; intros d; [reflexivity|].
  cbn [group_catalog discoveries flat_map]. rewrite IH, group_methods_eq.
  unfold group_all. now rewrite fold_left_app.
Qed.

Lemma find_duplicates_filter (items acc : dict (list occurrence)) :
  NoDup (keys acc ++ keys items) ->
  find_duplicates items acc
  = acc ++ filter (fun kv => (1 <? len (snd kv))%Z) items.
Proof.
  revert acc. induction items as [|[n occs] items IH]; intros acc ND.
  - simpl. now rewrite app_nil_r.
  - cbn [find_duplicates filter snd].
    assert (Hn : ~ In n (keys acc)).
    { apply NoDup_remove_2 in ND. intros H. apply ND. apply in_or_app. now left. }
    destruct (1 <? len occs)%Z.
    + rewrite dict_set_fresh by assumption. rewrite IH.
      * now rewrite <- app_assoc.
      * unfold keys in *. rewrite map_app, <- app_assoc. exact ND.
    + apply IH. apply NoDup_remove_1 in ND. exact ND.
Qed.

Lemma filter_map_comm {A B} (p : B -> bool) (f : A -> B) (l : list A) :
  filter p (map f l) = map f (filter (fun x => p (f x)) l).
Proof.
  induction l as [|x l IH]; simpl; [reflexivity|].
  destruct (p (f x)); simpl; now rewrite IH.
Qed.

Lemma keys_named {V} (f : str -> V) (ns : list str) :
  keys (map (fun n => (n, f n)) ns) = ns.
Proof. unfold keys. rewrite map_map. simpl. apply map_id. Qed.

Lemma analyze_duplicates_eq (cat : catalog) :
  analyze_duplicates cat
  = map (fun n => (n, occurrences_of n (discoveries cat)))
        (filter (fun n => (1 <? len (occurrences_of n (discoveries cat)))%Z)
                (distinct (map fst (discoveries cat)))).
Proof.
  unfold analyze_duplicates.
  rewrite group_catalog_eq, group_all_grouped, find_duplicates_filter.
  - simpl. unfold grouped. now rewrite filter_map_comm.
  - simpl. unfold grouped. rewrite keys_named. apply distinct_spec.
Qed.

Lemma occurrences_count (n : str) (cat : catalog) :
  List.length (occurrences_of n (discoveries cat)) = count_name n cat.
Proof.
  unfold occurrences_of, count_name, discoveries. rewrite length_map.
  induction cat as [|[fp methods] cat IH]; [reflexivity|].
  cbn [flat_map fst snd]. rewrite !filter_app, !length_app, IH. f_equal.
  clear IH. induction methods as [|m methods IH]; [reflexivity|].
  simpl. destruct (str_eqb (name m) n); simpl; now rewrite IH.
Qed.

(** C2. The duplicate analysis returns exactly the names that occur more
    than once in the catalog: each such name once, in the order the names
    are first discovered, with the list of its occurrences in discovery
    order (file order, then order in the file), whose length is the number
    of entries of that name. The result is this function of the catalog, so
    equal catalogs give equal groups in equal order. *)
Theorem duplicate_analysis_exact (cat : catalog) :
  let ds := discoveries cat in
  analyze_duplicates cat
  = map (fun n => (n, occurrences_of n ds))
        (filter (fun n => (1 <? len (occurrences_of n ds))%Z) (distinct (map fst ds)))
  /\ NoDup (keys (analyze_duplicates cat))
  /\ (forall n, In n (keys (analyze_duplicates cat)) <-> (1 < count_name n cat)%nat)
  /\ (forall n occs,
         In (n, occs) (analyze_duplicates cat) ->
         occs = occurrences_of n ds /\ List.length occs = count_name n cat).
Proof.
  intros ds. pose proof (analyze_duplicates_eq cat) as E. fold ds in E.
  destruct (distinct_spec (map fst ds)) as [ND Hin].
  split; [exact E|]. rewrite E. rewrite keys_named. split; [|split].
  - now apply NoDup_filter.
  - intros n. rewrite filter_In, Hin, <- occurrences_count. fold ds.
    unfold len. rewrite Z.ltb_lt. split.
    + intros [_ H]. lia.
    + intros H. split; [|lia].
      destruct (in_dec (list_eq_dec N.eq_dec) n (map fst ds)) as [Hi|Hn]; [assumption|].
      rewrite (occurrences_of_absent n ds Hn) in H. simpl in H. lia.
  - intros n occs H. apply in_map_iff in H as (k & [= -> <-] & _).
    split; [reflexivity | apply occurrences_count].
Qed.

(** ** Similarity classification (C3) *)

Section Similarity.
Variable lower : str -> str.

Lemma group_of_append (k c : str) (info : method_info) (g : dict (list method_info)) :
  group_of k (dict_append c info g)
  = group_of k g ++ (if str_eqb k c then [info] else []).
Proof.
  unfold group_of. rewrite dict_get_append.
  destruct (str_eqb k c).
  - destruct (dict_get k g); reflexivity.
  - now rewrite app_nil_r.
Qed.

Lemma group_of_classify (k : str) (cats : list (str * list str))
    (info : method_info) (m : entry) (g : dict (list method_info)) :
  group_of k (classify lower cats info m g)
  = group_of k g
    ++ flat_map
         (fun ck => if str_eqb k (fst ck) && existsb (keyword_hit lower m) (snd ck)
                    then [info] else [])
         cats.
Proof.
  revert g. induction cats as [|[c kws] cats IH]; intros g.
  - simpl. now rewrite app_nil_r.
  - cbn [classify flat_map fst snd]. rewrite IH.
    destruct (existsb (keyword_hit lower m) kws).
    + rewrite group_of_append, <- app_assoc, andb_true_r. reflexivity.
    + now rewrite andb_false_r.
Qed.

Lemma hits_unique (k : str) (kws : list str) (cats : list (str * list str))
    (info : method_info) (m : entry) :
  NoDup (keys cats) -> In (k, kws) cats ->
  flat_map
    (fun ck => if str_eqb k (fst ck) && existsb (keyword_hit lower m) (snd ck)
               then [info] else [])
    cats
  = if existsb (keyword_hit lower m) kws then [info] else [].
Proof.
  induction cats as [|[c kws'] cats IH]; intros ND Hin; [destruct Hin|].
  inversion ND as [|? ? Hc ND']; subst. cbn [flat_map fst snd].
  destruct Hin as [[= -> ->]|Hin].
  - rewrite str_eqb_refl. cbn [andb].
    assert (E : flat_map
                  (fun ck => if str_eqb k (fst ck)
                                && existsb (keyword_hit lower m) (snd ck)
                             then [info] else []) cats = []).
    { clear IH ND ND'. induction cats as [|[c' kws''] cats IH]; [reflexivity|].
      cbn [flat_map fst snd]. simpl in Hc.
      destruct (str_eqb k c') eqn:E.
      - apply str_eqb_eq in E. subst. tauto.
      - cbn [andb app]. apply IH. tauto. }
    rewrite E. now rewrite app_nil_r.
  - destruct (str_eqb k c) eqn:E.
    + apply str_eqb_eq in E. subst c. exfalso. apply Hc.
      change k with (fst (k, kws)). now apply in_map.
    + cbn [andb app]. now apply IH.
Qed.

Lemma patterns_NoDup : NoDup (keys Ana.patterns).
Proof.
  unfold keys. cbn [Ana.patterns map fst].
  repeat (apply NoDup_cons;
          [ apply mem_not_In; vm_compute; reflexivity | ]).
  apply NoDup_nil.
Qed.

(** The group of a category of the taxonomy: the entries that hit one of
    its keywords, in catalog order. *)
Lemma group_of_analysis (k : str) (kws : list str) (cat : catalog) :
  In (k, kws) Ana.patterns ->
  group_of k (analyze_similar_functionality lower cat)
  = map info_of
        (filter (fun fm => existsb (keyword_hit lower (snd fm)) kws)
                (filed_entries cat)).
Proof.
  intros Hk. unfold analyze_similar_functionality.
  assert (G : forall cat g,
             group_of k (classify_catalog lower cat g)
             = group_of k g
               ++ map info_of
                    (filter (fun fm => existsb (keyword_hit lower (snd fm)) kws)
                            (filed_entries cat))).
  { clear cat. intros c. induction c as [|[fp methods] c IH]; intros g.
    - simpl. now rewrite app_nil_r.
    - cbn [classify_catalog filed_entries flat_map fst snd].
      rewrite IH, filter_app, map_app, app_assoc. f_equal.
      clear IH. revert g. induction methods as [|m methods IH]; intros g.
      + simpl. now rewrite app_nil_r.
      + cbn [classify_methods map filter snd]. rewrite IH, group_of_classify.
        rewrite (hits_unique k kws _ _ m patterns_NoDup Hk), <- app_assoc.
        f_equal. destruct (existsb (keyword_hit lower m) kws); reflexivity. }
  rewrite G. reflexivity.
Qed.

Lemma filed_entries_In (cat : catalog) (fp : str) (m : entry) :
  In (fp, m) (filed_entries cat) <-> exists methods, In (fp, methods) cat /\ In m methods.
Proof.
  unfold filed_entries. rewrite in_flat_map. split.
  - intros ([fp' methods] & H1 & H2). simpl in H2.
    apply in_map_iff in H2 as (m' & [= -> ->] & H2). eauto.
  - intros (methods & H1 & H2). exists (fp, methods). split; [assumption|].
    simpl. now apply in_map.
Qed.

(** An entry is in the group of a category exactly when it hits one of the
    category's keywords. *)
Lemma in_group_iff (k : str) (kws : list str) (cat : catalog) (fp : str)
    (methods : list entry) (m : entry) :
  In (k, kws) Ana.patterns -> In (fp, methods) cat -> In m methods ->
  (In (info_of (fp, m)) (group_of k (analyze_similar_functionality lower cat))
   <-> exists kw, In kw kws
                  /\ (ci_substring lower kw (name m) = true
                      \/ ci_substring lower kw (description m) = true)).
Proof.
  intros Hk Hf Hm. rewrite (group_of_analysis k kws cat Hk).
  assert (Hhit : forall m', existsb (keyword_hit lower m') kws = true
            <-> exists kw, In kw kws
                  /\ (ci_substring lower kw (name m') = true
                      \/ ci_substring lower kw (description m') = true)).
  { intros m'. rewrite existsb_exists. unfold keyword_hit, ci_substring.
    split; intros (kw & H1 & H2); exists kw; split; try assumption.
    - now apply orb_true_iff in H2.
    - now apply orb_true_iff. }
  rewrite in_map_iff. split.
  - intros ([fp' m'] & E & Hin). apply filter_In in Hin as [_ Hin].
    simpl in Hin. apply Hhit in Hin. unfold info_of in E. simpl in E.
    injection E as E1 E2 E3 E4. now rewrite <- E1, <- E3.
  - intros H. exists (fp, m). split; [reflexivity|]. apply filter_In. split.
    + apply filed_entries_In. eauto.
    + simpl. now apply Hhit.
Qed.

End Similarity.

(** C3. For an entry of the catalog and each of the eight categories, the
    entry is in the category's group exactly when one of the category's
    keywords is a case-insensitive substring of its name or of its
    description. Groups are not exclusive: an entry named [initAudioEffect]
    is in the groups [initialization], [audio] and [effects] at once,
    whatever its description (so also when it contains [particle]). [lower]
    is Python's [str.lower], of which only its value on ASCII text is
    used. *)
Theorem similarity_groups (lower : str -> str) (cat : catalog) (fp : str)
    (methods : list entry) (m : entry) :
  (forall s, is_ascii s = true -> lower s = map ascii_lower s) ->
  In (fp, methods) cat -> In m methods ->
  let groups := analyze_similar_functionality lower cat in
  List.length Ana.patterns = 8%nat
  /\ Forall
       (fun ck =>
          In (info_of (fp, m)) (group_of (fst ck) groups)
          <-> exists kw, In kw (snd ck)
                         /\ (ci_substring lower kw (name m) = true
                             \/ ci_substring lower kw (description m) = true))
       Ana.patterns
  /\ (name m = lit "initAudioEffect" ->
      In (info_of (fp, m)) (group_of (lit "initialization") groups)
      /\ In (info_of (fp, m)) (group_of (lit "audio") groups)
      /\ In (info_of (fp, m)) (group_of (lit "effects") groups)).
Proof.
  intros Hlow Hf Hm groups. split; [reflexivity|]. split.
  - apply Forall_forall. intros [k kws] Hk. cbn [fst snd].
    exact (in_group_iff lower k kws cat fp methods m Hk Hf Hm).
  - intros Hname.
    assert (Hit : forall kw,
               is_ascii kw = true ->
               contains (map ascii_lower kw) (map ascii_lower (lit "initAudioEffect"))
               = true ->
               ci_substring lower kw (name m) = true).
    { intros kw Ha Hc. unfold ci_substring.
      rewrite Hname, (Hlow kw Ha), (Hlow (lit "initAudioEffect")); [exact Hc|].
      reflexivity. }
    repeat split.
    + apply (in_group_iff lower _ [lit "initialize"; lit "init"; lit "setup"; lit "create"]
               cat fp methods m); [cbn; tauto | assumption | assumption | ].
      exists (lit "init"). split; [cbn; tauto|]. left. now apply Hit.
    + apply (in_group_iff lower _ [lit "play"; lit "sound"; lit "audio"; lit "music"]
               cat fp methods m); [cbn; tauto | assumption | assumption | ].
      exists (lit "audio"). split; [cbn; tauto|]. left. now apply Hit.
    + apply (in_group_iff lower _
               [lit "effect"; lit "particle"; lit "visual"; lit "animation"]
               cat fp methods m); [cbn; tauto | assumption | assumption | ].
      exists (lit "effect"). split; [cbn; tauto|]. left. now apply Hit.
Qed.

Lemma similarity_groups_witness :
  let groups :=
    analyze_similar_functionality (map ascii_lower) sample_effect_catalog in
  let info := info_of (lit "src/effects/Burst.js", sample_effect_entry) in
  In info (group_of (lit "initialization") groups)
  /\ In info (group_of (lit "audio") groups)
  /\ In info (group_of (lit "effects") groups).
Proof.
  apply (similarity_groups (map ascii_lower) sample_effect_catalog
           (lit "src/effects/Burst.js") [sample_effect_entry] sample_effect_entry).
  - intros s _. reflexivity.
  - simpl. left. reflexivity.
  - simpl. left. reflexivity.
  - reflexivity.
Defined.

(** ** Summary statistics (C7, C9) *)

Lemma total_methods_from (cat : catalog) (acc : Z) :
  fold_left (fun a kv => (a + len (snd kv))%Z) cat acc
  = (acc + len (flat_map snd cat))%Z.
Proof.
  revert acc. induction cat as [|[fp ms] c IH]; intros acc.
  - simpl. unfold len. simpl. lia.
  - cbn [fold_left flat_map snd]. rewrite IH. unfold len.
    rewrite length_app. lia.
Qed.

Lemma total_methods_len (cat : catalog) :
  total_methods cat = len (flat_map snd cat).
Proof. unfold total_methods. now rewrite total_methods_from. Qed.

Lemma summary_zero (cat : catalog) (dups : dict (list occurrence)) :
  total_methods cat = 0%Z ->
  summary cat dups = (summary_head cat dups, Some division_by_zero).
Proof. intros H. unfold summary, true_div, summary_head. rewrite H. reflexivity. Qed.

Lemma summary_nonzero (cat : catalog) (dups : dict (list occurrence)) :
  total_methods cat <> 0%Z ->
  summary cat dups
  = (summary_head cat dups
     ++ [lit "Duplication rate: "
         ++ format_1f (rate_float (len dups) (total_methods cat)) ++ lit "%"],
     None).
Proof.
  intros H. unfold summary, true_div.
  destruct (Z.eqb_spec (total_methods cat) 0); [contradiction|]. reflexivity.
Qed.

Lemma main_on_result (lower upper : str -> str) (cat : catalog) :
  snd (main_on lower upper cat) = snd (summary cat (analyze_duplicates cat)).
Proof.
  unfold main_on. destruct (summary cat (analyze_duplicates cat)). reflexivity.
Qed.


(** C9. The summary divides the number of duplicate names by the number of
    entries with no guard: when the catalog has no entry (it is empty, or
    every file of it has an empty list) the summary prints its first four
    lines and raises [ZeroDivisionError], which ends [main]; when the
    catalog has at least one entry it prints the rate line and raises
    nothing. *)
Theorem summary_needs_an_entry (lower upper : str -> str) (cat : catalog) :
  total_methods cat = len (flat_map snd cat)
  /\ (flat_map snd cat = [] ->
      (forall dups, summary cat dups = (summary_head cat dups, Some division_by_zero))
      /\ snd (main_on lower upper cat) = Some division_by_zero)
  /\ (flat_map snd cat <> [] ->
      (forall dups,
          summary cat dups
          = (summary_head cat dups
             ++ [lit "Duplication rate: "
                 ++ format_1f (rate_float (len dups) (total_methods cat)) ++ lit "%"],
             None))
      /\ snd (main_on lower upper cat) = None).
Proof.
  split; [apply total_methods_len|]. split; intros H.
  - assert (Z : total_methods cat = 0%Z) by (rewrite total_methods_len, H; reflexivity).
    split; [intros dups; now apply summary_zero|].
    rewrite main_on_result, summary_zero by assumption. reflexivity.
  - assert (Z : total_methods cat <> 0%Z).
    { rewrite total_methods_len. unfold len.
      destruct (flat_map snd cat); [contradiction | simpl; lia]. }
    split; [intros dups; now apply summary_nonzero|].
    rewrite main_on_result, summary_nonzero by assumption. reflexivity.
Qed.

Lemma summary_needs_an_entry_witness :
  snd (main_on (map ascii_lower) (map ascii_lower) [(lit "src/empty.js", [])])
  = Some division_by_zero
  /\ snd (main_on (map ascii_lower) (map ascii_lower) sample_effect_catalog) = None.
Proof.
  split.
  - apply (summary_needs_an_entry (map ascii_lower) (map ascii_lower)
             [(lit "src/empty.js", [])]).
    reflexivity.
  - apply (summary_needs_an_entry (map ascii_lower) (map ascii_lower)
             sample_effect_catalog).
    discriminate.
Defined.






(** ** Failure containment and propagation (C8) *)

Section Containment.
Variable os_path_relpath : str -> str.
Variable fs : filesystem.

Lemma process_files_app (l1 l2 : list str) (c : catalog) :
  process_files os_path_relpath fs (l1 ++ l2) c
  = let (o1, c1) := process_files os_path_relpath fs l1 c in
    let (o2, c2) := process_files os_path_relpath fs l2 c1 in
    (o1 ++ o2, c2).
Proof.
  revert c. induction l1 as [|fp l1 IH]; intros c.
  - simpl. now destruct (process_files os_path_relpath fs l2 c).
  - cbn [app process_files].
    destruct (extract_functions_from_file fs fp) as [out1 functions].
    rewrite IH.
    destruct (process_files os_path_relpath fs l1 _) as [o1 c1].
    destruct (process_files os_path_relpath fs l2 c1) as [o2 c2].
    rewrite <- app_comm_cons. now rewrite app_assoc.
Qed.

Lemma unreadable_file (p : str) (e : exn) :
  fs p = inl e -> extract_functions_from_file fs p = ([read_warning p e], []).
Proof. intros H. unfold extract_functions_from_file. now rewrite H. Qed.

Lemma process_files_unreadable (p : str) (e : exn) (c : catalog) :
  fs p = inl e ->
  process_files os_path_relpath fs [p] c
  = ([lit "Processing: " ++ p; read_warning p e], c).
Proof.
  intros H. cbn [process_files]. now rewrite (unreadable_file p e H).
Qed.

Lemma process_files_skip (p : str) (e : exn) (before after : list str) (c : catalog) :
  fs p = inl e ->
  let (o1, c1) := process_files os_path_relpath fs before c in
  let (o2, c2) := process_files os_path_relpath fs after c1 in
  process_files os_path_relpath fs (before ++ p :: after) c
  = (o1 ++ [lit "Processing: " ++ p; read_warning p e] ++ o2, c2)
  /\ process_files os_path_relpath fs (before ++ after) c = (o1 ++ o2, c2).
Proof.
  intros H. rewrite !process_files_app.
  destruct (process_files os_path_relpath fs before c) as [o1 c1].
  change (p :: after) with ([p] ++ after). rewrite process_files_app.
  rewrite (process_files_unreadable p e c1 H).
  destruct (process_files os_path_relpath fs after c1) as [o2 c2].
  split; reflexivity.
Qed.

End Containment.

Lemma main_load_failure (lower upper : str -> str) (fs : filesystem) (e : exn) :
  load_catalog fs = inl e -> main lower upper fs = ([], Some e).
Proof. intros H. unfold main. now rewrite H. Qed.

(** C8. Generation: a file that cannot be read gives no entry and one
    warning, and the files before and after it are processed as if it were
    not in the list: the catalog is the same, and the output differs by the
    two lines of that file; so is the catalog that [generate_catalog]
    returns. Analysis: when the catalog document is missing
    (or unreadable) or does not parse, [load_catalog] raises, [main] prints
    nothing and ends with that exception. *)
Theorem failure_containment :
  (forall os_path_relpath fs p e before after c,
      fs p = inl e ->
      extract_functions_from_file fs p = ([read_warning p e], [])
      /\ (let (o1, c1) := process_files os_path_relpath fs before c in
          let (o2, c2) := process_files os_path_relpath fs after c1 in
          process_files os_path_relpath fs (before ++ p :: after) c
          = (o1 ++ [lit "Processing: " ++ p; read_warning p e] ++ o2, c2)
          /\ process_files os_path_relpath fs (before ++ after) c = (o1 ++ o2, c2))
      /\ forall os_path_exists os_walk os_path_join source_dirs,
           snd (gather_files os_path_exists os_walk os_path_join source_dirs)
           = before ++ p :: after ->
           snd (generate_catalog os_path_exists os_walk os_path_join
                                 os_path_relpath fs source_dirs c)
           = snd (process_files os_path_relpath fs (before ++ after) c))
  /\ (forall lower upper fs e,
         fs (lit "method_catalog.json") = inl e ->
         load_catalog fs = inl e /\ main lower upper fs = ([], Some e))
  /\ (forall lower upper fs text e,
         fs (lit "method_catalog.json") = inr text -> loads text = inl e ->
         load_catalog fs = inl e /\ main lower upper fs = ([], Some e)).
Proof.
  split; [|split].
  - intros rp fs p e before after c H. split; [now apply unreadable_file|].
    pose proof (process_files_skip rp fs p e before after c H) as S.
    split; [exact S|].
    intros ex wk jn dirs Hg. unfold generate_catalog.
    destruct (gather_files ex wk jn dirs) as [out1 files]. cbn [snd] in Hg. subst files.
    destruct (process_files rp fs before c) as [o1 c1].
    destruct (process_files rp fs after c1) as [o2 c2].
    destruct S as [S1 S2]. now rewrite S1, S2.
  - intros lower upper fs e H.
    assert (L : load_catalog fs = inl e) by (unfold load_catalog; now rewrite H).
    split; [exact L | now apply main_load_failure].
  - intros lower upper fs text e H1 H2.
    assert (L : load_catalog fs = inl e) by (unfold load_catalog; now rewrite H1).
    split; [exact L | now apply main_load_failure].
Qed.

Lemma failure_containment_witness :
  (process_files (fun p => p) sample_store [lit "src/bad.js"; lit "src/a.js"] []
   = ([lit "Processing: src/bad.js";
       lit "Error reading src/bad.js: invalid start byte";
       lit "Processing: src/a.js"],
      [(lit "src/a.js",
        [Entry (lit "update") no_description (lit "src/a.js") 1])])
   /\ process_files (fun p => p) sample_store [lit "src/a.js"] []
      = ([lit "Processing: src/a.js"],
         [(lit "src/a.js",
           [Entry (lit "update") no_description (lit "src/a.js") 1])]))
  /\ main (map ascii_lower) (map ascii_lower) sample_store
     = ([], Some decode_error)
  /\ main (map ascii_lower) (map ascii_lower)
          (fun _ => inl (Exn FileNotFoundError (lit "No such file or directory")))
     = ([], Some (Exn FileNotFoundError (lit "No such file or directory"))).
Proof.
  destruct failure_containment as (G & M & P).
  split; [|split].
  - apply (G (fun p => p) sample_store (lit "src/bad.js")
             (Exn UnicodeDecodeError (lit "invalid start byte")) [] [lit "src/a.js"] []).
    reflexivity.
  - apply (P (map ascii_lower) (map ascii_lower) sample_store (lit "{") decode_error);
      reflexivity.
  - apply (M (map ascii_lower) (map ascii_lower)); reflexivity.
Defined.

(** ** Doc-comment association (C1, C10) *)





Lemma firstn_succ_rev (lines : list str) (i : nat) :
  (i < List.length lines)%nat ->
  rev (firstn (S i) lines) = nth i lines [] :: rev (firstn i lines).
Proof.
  revert i. induction lines as [|l lines IH]; intros i H; simpl in H; [lia|].
  destruct i as [|i].
  - reflexivity.
  - change (firstn (S (S i)) (l :: lines)) with (l :: firstn (S i) lines).
    change (firstn (S i) (l :: lines)) with (l :: firstn i lines).
    cbn [rev nth]. rewrite IH by lia. reflexivity.
Qed.

Lemma collect_comment_up (lines : list str) (k : nat) (acc : list str) :
  (k <= List.length lines)%nat ->
  collect_comment lines k acc = collect_up (rev (firstn k lines)) acc.
Proof.
  revert acc. induction k as [|i IH]; intros acc H; [reflexivity|].
  rewrite firstn_succ_rev by lia. cbn [collect_comment collect_up].
  destruct (startswith (lit "/**") (strip (nth i lines []))); [reflexivity|].
  apply IH. lia.
Qed.

Lemma scan_back_up (lines : list str) (k : nat) :
  (k <= List.length lines)%nat ->
  scan_back lines k = scan_up (rev (firstn k lines)).
Proof.
  induction k as [|i IH]; intros H; [reflexivity|].
  rewrite firstn_succ_rev by lia. cbn [scan_back scan_up].
  destruct (endswith (lit "*/") (strip (nth i lines []))).
  - apply collect_comment_up. lia.
  - destruct (str_eqb (strip (nth i lines [])) []
              || startswith (lit "//") (strip (nth i lines []))); [|reflexivity].
    apply IH. lia.
Qed.

Lemma collect_up_no_opener (above acc : list str) :
  Forall no_opener above ->
  collect_up (rev above) acc = map strip above ++ acc.
Proof.
  revert acc. induction above as [|l above IH] using rev_ind; intros acc H.
  - reflexivity.
  - apply Forall_app in H as [H1 H2]. inversion H2 as [|? ? Hl _]; subst.
    rewrite rev_app_distr. cbn [rev app collect_up]. unfold no_opener in Hl.
    rewrite Hl, IH by assumption. rewrite map_app, <- app_assoc. reflexivity.
Qed.


Lemma scan_up_skip (skipped rest : list str) :
  Forall skippable skipped -> scan_up (rev skipped ++ rest) = scan_up rest.
Proof.
  induction skipped as [|l skipped IH] using rev_ind; intros H; [reflexivity|].
  apply Forall_app in H as [H1 H2]. inversion H2 as [|? ? [Ha Hb] _]; subst.
  rewrite rev_app_distr. cbn [rev app scan_up]. rewrite Ha, Hb. now apply IH.
Qed.

Lemma firstn_prefix {A} (l1 l2 : list A) : firstn (List.length l1) (l1 ++ l2) = l1.
Proof.
  rewrite firstn_app, Nat.sub_diag, firstn_all. simpl. apply app_nil_r.
Qed.

(** The comment lines found from a function line below a terminator line,
    with only skippable lines between them. *)
Lemma scan_back_terminator (above : list str) (term : str) (skipped rest : list str) :
  is_terminator term -> Forall skippable skipped ->
  scan_back ((above ++ term :: skipped) ++ rest) (List.length (above ++ term :: skipped))
  = collect_up (rev above) [strip term].
Proof.
  intros Ht Hs. rewrite scan_back_up by (rewrite !length_app; lia).
  rewrite firstn_prefix, rev_app_distr. cbn [rev]. rewrite <- app_assoc.
  rewrite scan_up_skip by assumption. cbn [app scan_up].
  unfold is_terminator in Ht. now rewrite Ht.
Qed.

(** The entry of a function line: the one entry with its line number. *)
Lemma entry_of_line (fp : str) (prefix : list str) (fline : str) (below : list str)
    (nm : str) (e : entry) :
  snd (try_patterns 0 Gen.patterns fline) = Some nm ->
  let lines := prefix ++ fline :: below in
  let i := List.length prefix in
  (In e (scan_lines fp lines 0 lines) /\ line e = (Z.of_nat i + 1)%Z)
  <-> e = Entry nm (or_default (extract_jsdoc_comment lines i)) fp (Z.of_nat i + 1).
Proof.
  intros Hnm lines i.
  assert (Hi : nth_error lines i = Some fline).
  { unfold lines, i. rewrite nth_error_app2, Nat.sub_diag by lia. reflexivity. }
  assert (Hat : entry_at fp lines i fline
                = [Entry nm (or_default (extract_jsdoc_comment lines i)) fp
                         (Z.of_nat i + 1)]).
  { unfold entry_at. now rewrite Hnm. }
  rewrite scan_lines_In. split.
  - intros [(j & ln & Hj & Hin) Hl]. simpl in Hin.
    assert (j = i).
    { unfold entry_at in Hin.
      destruct (snd (try_patterns 0 Gen.patterns ln)); [|destruct Hin].
      destruct Hin as [<-|[]]. simpl in Hl. lia. }
    subst j. rewrite Hi in Hj. injection Hj as <-.
    rewrite Hat in Hin. destruct Hin as [<-|[]]. reflexivity.
  - intros ->. split; [|reflexivity].
    exists i, fline. split; [exact Hi|]. simpl. rewrite Hat. now left.
Qed.

Lemma or_default_some (s : str) :
  or_default (Some s) = match s with [] => no_description | _ :: _ => s end.
Proof. now destruct s. Qed.

Lemma extract_some (lines : list str) (i : nat) (collected : list str) :
  scan_back lines i = collected -> collected <> [] ->
  extract_jsdoc_comment lines i = Some (join (lit " ") (clean_lines collected)).
Proof.
  intros H Hne. unfold extract_jsdoc_comment. rewrite H.
  destruct collected; [contradiction | reflexivity].
Qed.

(** C10, as amended. When the upward scan from a function line meets a
    terminator line and no opener line above it, every line from the first
    line of the file to the terminator is collected, ordinary code lines
    too, and the cleaned result, joined by single spaces, is the
    description of the entry; when that result is empty the description is
    the sentinel. *)
Theorem partial_comment_used (fp content : str) (above : list str) (term : str)
    (skipped : list str) (fline : str) (below : list str) (nm : str) :
  split (ch "010") content = (above ++ term :: skipped) ++ fline :: below ->
  Forall no_opener above -> is_terminator term -> Forall skippable skipped ->
  snd (try_patterns 0 Gen.patterns fline) = Some nm ->
  let lines := split (ch "010") content in
  let i := List.length (above ++ term :: skipped) in
  let collected := map strip (above ++ [term]) in
  let cleaned := join (lit " ") (clean_lines collected) in
  scan_back lines i = collected
  /\ extract_jsdoc_comment lines i = Some cleaned
  /\ forall e,
       (In e (extract_functions fp content) /\ line e = (Z.of_nat i + 1)%Z)
       <-> e = Entry nm (match cleaned with [] => no_description | _ :: _ => cleaned end)
                     fp (Z.of_nat i + 1).
Proof.
  intros Hsplit Ha Ht Hs Hnm lines i collected cleaned.
  assert (Hscan : scan_back lines i = collected).
  { unfold lines, i. rewrite Hsplit, scan_back_terminator by assumption.
    rewrite collect_up_no_opener by assumption.
    unfold collected. now rewrite map_app. }
  assert (Hex : extract_jsdoc_comment lines i = Some cleaned).
  { apply extract_some; [exact Hscan|]. unfold collected. rewrite map_app.
    intros E. apply app_eq_nil in E as [_ E]. discriminate. }
  split; [exact Hscan|]. split; [exact Hex|].
  intros e. unfold extract_functions. fold lines.
  rewrite <- or_default_some, <- Hex. unfold lines, i. rewrite Hsplit.
  now apply entry_of_line.
Qed.

Lemma partial_comment_used_witness :
  scan_back (split (Json.ch "010") stray_terminator_file) 3
  = [lit "let volume = 1;"; lit "* stray text"; lit "*/"]
  /\ In (Entry (lit "mute") (lit "let volume = 1; stray text") (lit "src/Audio.js") 4)
        (extract_functions (lit "src/Audio.js") stray_terminator_file).
Proof.
  destruct (partial_comment_used (lit "src/Audio.js") stray_terminator_file
              [lit "let volume = 1;"; lit " * stray text"] (lit " */") []
              (lit "mute() {") [] (lit "mute"))
    as (H1 & _ & H3);
    [ reflexivity | repeat constructor | reflexivity | constructor | reflexivity | ].
  split; [exact H1|].
  apply (H3 (Entry (lit "mute") (lit "let volume = 1; stray text")
                   (lit "src/Audio.js") 4)).
  reflexivity.
Defined.

(** C10 as stated fails when the cleaned result is empty: below a lone
    terminator line the collection is that line, its cleaned result is the
    empty string, and the description of the entry is the sentinel. *)
Lemma partial_comment_counterexample :
  let content := join nl [lit "*/"; lit "reset() {"] in
  let lines := split (ch "010") content in
  scan_back lines 1 = [lit "*/"]
  /\ join (lit " ") (clean_lines (scan_back lines 1)) = []
  /\ map description (extract_functions (lit "src/Game.js") content)
     = [lit "No description available"]
  /\ map description (extract_functions (lit "src/Game.js") content)
     <> [join (lit " ") (clean_lines (scan_back lines 1))].
Proof.
  vm_compute. repeat split; discriminate.
Qed.












(** ** Persistence: the JSON round trip (C6) *)

(** *** Strings *)

Lemma hex4_control (c : char) :
  c < 32 -> hex4 48 48 (hexdigit (c / 16)) (hexdigit (c mod 16)) = Some c.
Proof.
  intros H.
  assert (A : forallb
                (fun n => match hex4 48 48 (hexdigit (N.of_nat n / 16))
                                     (hexdigit (N.of_nat n mod 16)) with
                          | Some c' => c' =? N.of_nat n
                          | None => false
                          end) (seq 0 32) = true) by (vm_compute; reflexivity).
  rewrite forallb_forall in A.
  specialize (A (N.to_nat c)). rewrite N2Nat.id in A.
  destruct (hex4 48 48 (hexdigit (c / 16)) (hexdigit (c mod 16))) as [c'|].
  - f_equal. apply N.eqb_eq. apply A. apply in_seq. lia.
  - exfalso. enough (false = true) by discriminate. apply A. apply in_seq. lia.
Qed.

Lemma scanstring_escape (c : char) (s : str) (r : option (str * str)) :
  scanstring s = r ->
  scanstring (escape_char c ++ s) = cons_fst c r.
Proof.
  intros <-. unfold escape_char.
  destruct (N.eqb_spec c dquote) as [->|H1]; [reflexivity|].
  destruct (N.eqb_spec c backslash) as [->|H2]; [reflexivity|].
  destruct (N.eqb_spec c 8) as [->|H3]; [reflexivity|].
  destruct (N.eqb_spec c 12) as [->|H4]; [reflexivity|].
  destruct (N.eqb_spec c 10) as [->|H5]; [reflexivity|].
  destruct (N.eqb_spec c 13) as [->|H6]; [reflexivity|].
  destruct (N.eqb_spec c 9) as [->|H7]; [reflexivity|].
  destruct (N.ltb_spec c 32) as [H8|H8].
  - cbn [app scanstring].
    change (backslash =? dquote) with false. change (backslash =? backslash) with true.
    change (Json.ch "u" =? Json.ch "u") with true. cbv iota.
    change (Json.ch "0") with 48.
    rewrite (hex4_control c H8).
    assert (E : (0xD800 <=? c) = false) by (apply N.leb_gt; lia).
    rewrite E. reflexivity.
  - cbn [app scanstring].
    apply N.eqb_neq in H1, H2. rewrite H1, H2.
    assert (E : (c <? 32) = false) by (apply N.ltb_ge; lia).
    rewrite E. reflexivity.
Qed.

Lemma scanstring_encoded (s rest : str) :
  scanstring (flat_map escape_char s ++ dquote :: rest) = Some (s, rest).
Proof.
  induction s as [|c s IH]; [reflexivity|].
  cbn [flat_map]. rewrite <- app_assoc.
  rewrite (scanstring_escape c _ _ IH). reflexivity.
Qed.

Lemma encode_string_app (s rest : str) :
  encode_string s ++ rest = dquote :: flat_map escape_char s ++ dquote :: rest.
Proof. unfold encode_string. cbn [app]. now rewrite <- app_assoc. Qed.

(** *** Integers *)

Lemma uint_str_digits (u : Decimal.uint) : Forall digit_char (uint_str u).
Proof. induction u; simpl; constructor; try assumption; reflexivity. Qed.

Lemma str_uint_str (u : Decimal.uint) : str_uint (uint_str u) = u.
Proof. induction u; simpl; try rewrite IHu; reflexivity. Qed.

Lemma to_uint_head (p : positive) :
  exists c t, uint_str (Pos.to_uint p) = c :: t
              /\ is_digit c = true /\ (c =? 48) = false.
Proof.
  pose proof (DecimalPos.Unsigned.to_uint_nonnil p) as Hn.
  pose proof (DecimalPos.Unsigned.to_uint_nonzero p) as Hz.
  assert (Hu : Decimal.unorm (Pos.to_uint p) = Pos.to_uint p).
  { pose proof (DecimalPos.Unsigned.to_of (Pos.to_uint p)) as E.
    rewrite DecimalPos.Unsigned.of_to in E. exact (eq_sym E). }
  destruct (Pos.to_uint p) as [|u|u|u|u|u|u|u|u|u|u] eqn:E;
    try (eexists _, _; repeat split; reflexivity).
  - contradiction.
  - exfalso. rewrite DecimalFacts.unorm_D0 in Hu. unfold Decimal.unorm in Hu.
    destruct (Decimal.nzhead u) as [|u0|u0|u0|u0|u0|u0|u0|u0|u0|u0] eqn:En;
      try discriminate Hu.
    + injection Hu as <-. now apply Hz.
    + exact (DecimalFacts.nzhead_nonzero u u0 En).
Qed.

Lemma take_while_digits (ds rest : str) :
  Forall digit_char ds ->
  match rest with [] => True | c :: _ => is_digit c = false end ->
  take_while is_digit (ds ++ rest) = ds /\ drop_while is_digit (ds ++ rest) = rest.
Proof.
  intros Hd Hr. induction Hd as [|d ds Hd _ IH]; simpl.
  - destruct rest as [|c rest]; [now split|]. simpl. now rewrite Hr.
  - unfold digit_char in Hd. rewrite Hd. destruct IH as [-> ->]. now split.
Qed.

Lemma delimited_not_number (rest : str) :
  delimited rest ->
  match rest with [] => True | c :: _ => is_digit c = false end
  /\ scan_frac rest = ([], rest) /\ scan_exp rest = ([], rest).
Proof.
  destruct rest as [|c rest]; simpl; [tauto|].
  intros [->| ->]; repeat split; try reflexivity; now destruct rest.
Qed.

Lemma parse_number_repr (z : Z) (rest : str) :
  delimited rest -> parse_number (int_repr z ++ rest) = Some (JInt z, rest).
Proof.
  intros Hd. destruct (delimited_not_number rest Hd) as (Hr & Hf & He).
  assert (P : forall (neg : bool) (p : positive),
             parse_number ((if neg then [45] else []) ++ uint_str (Pos.to_uint p) ++ rest)
             = Some (JInt (Z.of_int (if neg then Decimal.Neg (Pos.to_uint p)
                                     else Decimal.Pos (Pos.to_uint p))), rest)).
  { intros neg p. destruct (to_uint_head p) as (c & t & E & Hc & Hc0).
    pose proof (uint_str_digits (Pos.to_uint p)) as Hds. rewrite E in Hds.
    inversion Hds as [|? ? _ Ht]; subst.
    destruct (take_while_digits t rest Ht Hr) as [T D].
    assert (Hm : (c =? Json.ch "-") = false).
    { unfold is_digit in Hc. apply N.eqb_neq. intros ->. discriminate. }
    unfold parse_number, scan_int. rewrite E.
    destruct neg; cbn [app]; [change (45 =? Json.ch "-") with true | rewrite Hm];
      cbv iota; rewrite Hc0, Hc, T, D, Hf, He; cbn [app];
      rewrite <- E, str_uint_str; reflexivity. }
  unfold int_repr. destruct z as [|p|p]; cbn [Z.to_int].
  - unfold parse_number. cbn. rewrite Hf, He. reflexivity.
  - etransitivity; [exact (P false p)|].
    f_equal. f_equal. f_equal. exact (DecimalZ.of_to (Zpos p)).
  - etransitivity; [exact (P true p)|].
    f_equal. f_equal. f_equal. exact (DecimalZ.of_to (Zneg p)).
Qed.

(** *** Values *)

(** Induction on values, through the lists of items. *)
Lemma value_induction (P : value -> Prop) :
  P JNull -> (forall b, P (JBool b)) -> (forall z, P (JInt z)) ->
  (forall l, P (JFloat l)) -> (forall s, P (JStr s)) ->
  (forall items, Forall P items -> P (JList items)) ->
  (forall items, Forall (fun kv => P (snd kv)) items -> P (JDict items)) ->
  forall v, P v.
Proof.
  intros Hnull Hbool Hint Hfloat Hstr Hlist Hdict.
  fix IH 1. intros [|b|z|l|s|items|items].
  - exact Hnull.
  - apply Hbool.
  - apply Hint.
  - apply Hfloat.
  - apply Hstr.
  - apply Hlist. induction items as [|x r IHr]; constructor; [apply IH | exact IHr].
  - apply Hdict. induction items as [|x r IHr]; constructor; [apply IH | exact IHr].
Qed.

Lemma size_list (items : list value) : size (JList items) = S (size_items items).
Proof. reflexivity. Qed.

Lemma size_dict (items : list (str * value)) :
  size (JDict items) = S (size_pairs items).
Proof. reflexivity. Qed.

Lemma wf_list (items : list value) : wf (JList items) <-> Forall wf items.
Proof.
  simpl. induction items as [|x r IH].
  - split; constructor.
  - rewrite IH. split.
    + intros [H1 H2]. now constructor.
    + intros H. inversion H. now split.
Qed.

Lemma wf_dict (items : list (str * value)) :
  wf (JDict items) <-> NoDup (keys items) /\ Forall (fun kv => wf (snd kv)) items.
Proof.
  simpl. apply and_iff_compat_l. induction items as [|x r IH].
  - split; constructor.
  - rewrite IH. split.
    + intros [H1 H2]. now constructor.
    + intros H. inversion H. now split.
Qed.

(** *** The decoder, equation by equation *)

Lemma parse_value_eq (fuel : nat) (c : char) (s1 : str) :
  parse_value (S fuel) (c :: s1)
  = if c =? dquote then
      match scanstring s1 with
      | Some (x, r) => Some (JStr x, r)
      | None => None
      end
    else if c =? Json.ch "{" then
      match skip_ws s1 with
      | c2 :: r =>
          if c2 =? Json.ch "}" then Some (JDict [], r)
          else parse_pairs fuel (c2 :: r) []
      | [] => None
      end
    else if c =? Json.ch "[" then
      match skip_ws s1 with
      | c2 :: r =>
          if c2 =? Json.ch "]" then Some (JList [], r)
          else parse_items fuel (c2 :: r) []
      | [] => None
      end
    else
      match parse_const (c :: s1) with
      | Some r => Some r
      | None => parse_number (c :: s1)
      end.
Proof. reflexivity. Qed.

Lemma parse_items_eq (fuel : nat) (s : str) (acc : list value) :
  parse_items (S fuel) s acc
  = match parse_value fuel s with
    | None => None
    | Some (v, r) =>
        match skip_ws r with
        | c :: r' =>
            if c =? Json.ch "]" then Some (JList (acc ++ [v]), r')
            else if c =? Json.ch "," then parse_items fuel (skip_ws r') (acc ++ [v])
            else None
        | [] => None
        end
    end.
Proof. reflexivity. Qed.

Lemma parse_pairs_eq (fuel : nat) (q : char) (s1 : str) (acc : list (str * value)) :
  parse_pairs (S fuel) (q :: s1) acc
  = if q =? dquote then
      match scanstring s1 with
      | None => None
      | Some (key, r) =>
          match skip_ws r with
          | colon :: r1 =>
              if colon =? Json.ch ":" then
                match parse_value fuel (skip_ws r1) with
                | None => None
                | Some (v, r2) =>
                    match skip_ws r2 with
                    | c :: r3 =>
                        if c =? Json.ch "}"
                        then Some (JDict (dict_of_pairs (acc ++ [(key, v)])), r3)
                        else if c =? Json.ch ","
                        then parse_pairs fuel (skip_ws r3) (acc ++ [(key, v)])
                        else None
                    | [] => None
                    end
                end
              else None
          | [] => None
          end
      end
    else None.
Proof. reflexivity. Qed.

(** *** Whitespace and the first character of a value *)

Lemma skip_ws_indent (level : nat) (s : str) :
  skip_ws (newline_indent level ++ s) = skip_ws s.
Proof.
  unfold newline_indent, skip_ws. cbn [app drop_while].
  change (is_ws 10) with true. cbv iota.
  induction (2 * level)%nat as [|n IH]; [reflexivity|]. exact IH.
Qed.

Lemma skip_ws_stop (c : char) (t : str) : is_ws c = false -> skip_ws (c :: t) = c :: t.
Proof. intros H. unfold skip_ws. simpl. now rewrite H. Qed.

Lemma digit_opens (c : char) : is_digit c = true -> opens_value c.
Proof.
  unfold is_digit, opens_value, is_ws. intros H.
  apply andb_true_iff in H as [H1 H2]. apply N.leb_le in H1, H2.
  change (Json.ch "]") with 93. change (Json.ch "}") with 125.
  repeat match goal with
         | |- context [?x =? ?y] =>
             let E := fresh in
             destruct (N.eqb_spec x y) as [E|E]; [exfalso; lia|]
         end.
  repeat split.
Qed.

Lemma int_repr_head (z : Z) :
  exists c t, int_repr z = c :: t
              /\ ((is_digit c = true)
                  \/ (c = 45 /\ exists d t', t = d :: t' /\ is_digit d = true)).
Proof.
  unfold int_repr. destruct z as [|p|p]; cbn [Z.to_int].
  - exists 48, []. split; [reflexivity | now left].
  - destruct (to_uint_head p) as (c & t & E & Hc & _).
    exists c, t. split; [exact E | now left].
  - destruct (to_uint_head p) as (c & t & E & Hc & _).
    exists 45, (uint_str (Pos.to_uint p)). split; [reflexivity|].
    right. split; [reflexivity|]. now exists c, t.
Qed.

Lemma dump_head (level : nat) (v : value) :
  wf v -> exists c t, dump level v = c :: t /\ opens_value c.
Proof.
  destruct v as [|[]|z|l|s|[|x r]|[|kv r]]; intros H;
    try (eexists _, _; split; [reflexivity | repeat split]).
  - destruct (int_repr_head z) as (c & t & E & [Hc|[-> _]]).
    + exists c, t. split; [exact E | now apply digit_opens].
    + exists 45, t. split; [exact E | repeat split].
  - destruct H.
Qed.

Lemma skip_ws_dump (level : nat) (v : value) (rest : str) :
  wf v -> skip_ws (dump level v ++ rest) = dump level v ++ rest.
Proof.
  intros H. destruct (dump_head level v H) as (c & t & E & Hc & _).
  rewrite E. cbn [app]. now apply skip_ws_stop.
Qed.

Lemma join_cons2 (sep a b : str) (r : list str) :
  join sep (a :: b :: r) = a ++ sep ++ join sep (b :: r).
Proof. reflexivity. Qed.

Lemma join_head (sep t : str) (ts : list str) (more : str) :
  exists more', join sep (t :: ts) ++ more = t ++ more'.
Proof.
  destruct ts as [|b r].
  - now exists more.
  - rewrite join_cons2, <- app_assoc. now eexists.
Qed.

(** *** Constants and numbers do not overlap *)

Lemma startswith_head (w : str) (c : char) (t : str) :
  match w with [] => False | w0 :: _ => w0 <> c end ->
  startswith w (c :: t) = false.
Proof.
  destruct w as [|w0 w]; [tauto|]. intros H. simpl.
  apply N.eqb_neq in H. now rewrite H.
Qed.

Lemma parse_const_digit (c : char) (t : str) :
  is_digit c = true -> parse_const (c :: t) = None.
Proof.
  intros H. unfold is_digit in H.
  apply andb_true_iff in H as [H1 H2]. apply N.leb_le in H1, H2.
  unfold parse_const, const, or_else.
  repeat match goal with
         | |- context [startswith (lit ?w) (c :: t)] =>
             let E := fresh in
             assert (E : startswith (lit w) (c :: t) = false)
               by (apply startswith_head; vm_compute; lia);
             rewrite E; clear E
         end.
  reflexivity.
Qed.

Lemma parse_const_minus (d : char) (t : str) :
  is_digit d = true -> parse_const (45 :: d :: t) = None.
Proof.
  intros H. unfold is_digit in H.
  apply andb_true_iff in H as [H1 H2]. apply N.leb_le in H1, H2.
  unfold parse_const, const, or_else.
  assert (E : startswith (lit "-Infinity") (45 :: d :: t) = false).
  { change (lit "-Infinity") with (45 :: 73 :: lit "nfinity").
    cbn [startswith]. rewrite N.eqb_refl. cbn [andb].
    destruct (N.eqb_spec 73 d); [lia | reflexivity]. }
  rewrite E. reflexivity.
Qed.

Lemma parse_value_int (fuel : nat) (z : Z) (rest : str) :
  delimited rest ->
  parse_value (S fuel) (int_repr z ++ rest) = Some (JInt z, rest).
Proof.
  intros Hd. pose proof (parse_number_repr z rest Hd) as Hn.
  destruct (int_repr_head z) as (c & t & E & Hc).
  rewrite E in *. cbn [app] in *. rewrite parse_value_eq.
  assert (Hq : (c =? dquote) = false /\ (c =? Json.ch "{") = false
               /\ (c =? Json.ch "[") = false).
  { destruct Hc as [Hc|[-> _]]; [|repeat split].
    unfold is_digit in Hc. apply andb_true_iff in Hc as [H1 H2].
    apply N.leb_le in H1, H2.
    change (Json.ch "{") with 123. change (Json.ch "[") with 91. unfold dquote.
    repeat split; apply N.eqb_neq; lia. }
  destruct Hq as (-> & -> & ->).
  assert (Hk : parse_const (c :: t ++ rest) = None).
  { destruct Hc as [Hc|[-> (d & t' & -> & Hd')]].
    - now apply parse_const_digit.
    - cbn [app]. now apply parse_const_minus. }
  rewrite Hk. exact Hn.
Qed.

(** *** Containers *)

Lemma delimited_indent (level : nat) (s : str) : delimited (newline_indent level ++ s).
Proof. left. reflexivity. Qed.

Lemma delimited_sep (level : nat) (s : str) : delimited (item_sep level ++ s).
Proof. right. reflexivity. Qed.

Lemma parse_items_dump (level : nat) (r : list value) :
  forall (x : value) (acc : list value) (fuel : nat) (rest : str),
    Forall (fun v => wf v /\ reads_back v) (x :: r) ->
    (size_items (x :: r) <= fuel)%nat ->
    parse_items fuel
      (join (item_sep level) (map (dump (S level)) (x :: r))
       ++ newline_indent level ++ Json.ch "]" :: rest) acc
    = Some (JList (acc ++ x :: r), rest).
Proof.
  induction r as [|y r IH]; intros x acc fuel rest HF Hfuel;
    inversion HF as [|? ? [Hwx Hx] HF']; subst;
    cbn [size_items fold_right] in Hfuel;
    (destruct fuel as [|fuel]; [lia|]); rewrite parse_items_eq.
  - cbn [map join].
    rewrite (Hx (S level) fuel _ ltac:(lia) (delimited_indent level _)).
    rewrite skip_ws_indent, skip_ws_stop by reflexivity.
    reflexivity.
  - cbn [map]. rewrite join_cons2, <- !app_assoc.
    rewrite (Hx (S level) fuel _ ltac:(lia) (delimited_sep level _)).
    unfold item_sep at 1. cbn [app]. rewrite skip_ws_stop by reflexivity.
    change (Json.ch "," =? Json.ch "]") with false.
    change (Json.ch "," =? Json.ch ",") with true. cbv iota.
    rewrite skip_ws_indent.
    inversion HF' as [|? ? [Hwy _] _]; subst.
    destruct (join_head (item_sep level) (dump (S level) y) (map (dump (S level)) r)
                (newline_indent level ++ Json.ch "]" :: rest)) as [more E].
    cbn [map] in IH |- *. rewrite E, (skip_ws_dump (S level) y more Hwy), <- E.
    rewrite (IH y (acc ++ [x]) fuel rest HF').
    + now rewrite <- app_assoc.
    + fold (size_items (y :: r)) in Hfuel. cbn [size_items fold_right] in *. lia.
Qed.

Lemma parse_pair_text (level fuel : nat) (k : str) (v : value) (rest : str)
    (acc : list (str * value)) :
  wf v -> reads_back v -> (size v <= fuel)%nat -> delimited rest ->
  parse_pairs (S fuel) (pair_text level (k, v) ++ rest) acc
  = match skip_ws rest with
    | c :: r3 =>
        if c =? Json.ch "}"
        then Some (JDict (dict_of_pairs (acc ++ [(k, v)])), r3)
        else if c =? Json.ch ","
        then parse_pairs fuel (skip_ws r3) (acc ++ [(k, v)])
        else None
    | [] => None
    end.
Proof.
  intros Hw Hv Hfuel Hd. unfold pair_text. cbn [fst snd].
  rewrite <- !app_assoc, encode_string_app, parse_pairs_eq.
  change (dquote =? dquote) with true. cbv iota.
  rewrite scanstring_encoded.
  change (lit ": " ++ dump (S level) v ++ rest)
    with (Json.ch ":" :: 32 :: dump (S level) v ++ rest).
  rewrite skip_ws_stop by reflexivity.
  change (Json.ch ":" =? Json.ch ":") with true. cbv iota.
  change (skip_ws (32 :: dump (S level) v ++ rest))
    with (skip_ws (dump (S level) v ++ rest)).
  rewrite (skip_ws_dump (S level) v rest Hw).
  rewrite (Hv (S level) fuel rest Hfuel Hd). reflexivity.
Qed.

Lemma parse_pairs_dump (level : nat) (r : list (str * value)) :
  forall (x : str * value) (acc : list (str * value)) (fuel : nat) (rest : str),
    Forall (fun kv => wf (snd kv) /\ reads_back (snd kv)) (x :: r) ->
    (size_pairs (x :: r) <= fuel)%nat ->
    parse_pairs fuel
      (join (item_sep level) (map (pair_text level) (x :: r))
       ++ newline_indent level ++ Json.ch "}" :: rest) acc
    = Some (JDict (dict_of_pairs (acc ++ x :: r)), rest).
Proof.
  induction r as [|y r IH]; intros [k v] acc fuel rest HF Hfuel;
    inversion HF as [|? ? [Hwx Hx] HF']; subst; cbn [snd] in Hwx, Hx;
    cbn [size_pairs fold_right snd] in Hfuel;
    (destruct fuel as [|fuel]; [lia|]).
  - cbn [map join].
    rewrite (parse_pair_text level fuel k v _ acc Hwx Hx ltac:(lia)
               (delimited_indent level _)).
    rewrite skip_ws_indent, skip_ws_stop by reflexivity.
    reflexivity.
  - cbn [map]. rewrite join_cons2, <- !app_assoc.
    rewrite (parse_pair_text level fuel k v _ acc Hwx Hx ltac:(lia)
               (delimited_sep level _)).
    unfold item_sep at 1. cbn [app]. rewrite skip_ws_stop by reflexivity.
    change (Json.ch "," =? Json.ch "}") with false.
    change (Json.ch "," =? Json.ch ",") with true. cbv iota.
    rewrite skip_ws_indent.
    destruct (join_head (item_sep level) (pair_text level y) (map (pair_text level) r)
                (newline_indent level ++ Json.ch "}" :: rest)) as [more E].
    cbn [map] in IH |- *. rewrite E.
    unfold pair_text at 1. rewrite <- app_assoc, encode_string_app.
    rewrite skip_ws_stop by reflexivity.
    rewrite <- encode_string_app, app_assoc. fold (pair_text level y). rewrite <- E.
    rewrite (IH y (acc ++ [(k, v)]) fuel rest HF').
    + now rewrite <- app_assoc.
    + fold (size_pairs (y :: r)) in Hfuel. cbn [size_pairs fold_right] in *. lia.
Qed.

Lemma dump_list_text (level : nat) (x : value) (r : list value) (rest : str) :
  dump level (JList (x :: r)) ++ rest
  = Json.ch "[" :: newline_indent (S level)
    ++ (join (item_sep level) (map (dump (S level)) (x :: r))
        ++ newline_indent level ++ Json.ch "]" :: rest).
Proof.
  cbn [dump]. unfold dump_items. fold (item_sep level).
  rewrite <- app_comm_cons. f_equal. now rewrite <- !app_assoc.
Qed.

Lemma dump_dict_text (level : nat) (x : str * value) (r : list (str * value))
    (rest : str) :
  dump level (JDict (x :: r)) ++ rest
  = Json.ch "{" :: newline_indent (S level)
    ++ (join (item_sep level) (map (pair_text level) (x :: r))
        ++ newline_indent level ++ Json.ch "}" :: rest).
Proof.
  cbn [dump]. unfold dump_items. fold (item_sep level).
  rewrite <- app_comm_cons. f_equal. now rewrite <- !app_assoc.
Qed.

Lemma dict_of_pairs_NoDup (d : list (str * value)) :
  NoDup (keys d) -> dict_of_pairs d = d.
Proof.
  unfold dict_of_pairs.
  assert (G : forall acc, NoDup (keys (acc ++ d)) ->
                          fold_left (fun d kv => dict_set (fst kv) (snd kv) d) d acc
                          = acc ++ d).
  { induction d as [|[k v] d IH]; intros acc H.
    - simpl. now rewrite app_nil_r.
    - cbn [fold_left fst snd]. rewrite dict_set_fresh.
      + rewrite IH; rewrite <- app_assoc; [reflexivity | exact H].
      + unfold keys in H. rewrite map_app in H. apply NoDup_remove_2 in H.
        intros Hin. apply H. apply in_or_app. now left. }
  intros H. exact (G [] H).
Qed.

Lemma parse_dump (v : value) : wf v -> reads_back v.
Proof.
  induction v as [|b|z|l|s|items IH|items IH] using value_induction;
    intros Hw level fuel rest Hfuel Hd.
  - destruct fuel as [|fuel]; [simpl in Hfuel; lia | reflexivity].
  - destruct fuel as [|fuel]; [simpl in Hfuel; lia | destruct b; reflexivity].
  - destruct fuel as [|fuel]; [simpl in Hfuel; lia|].
    now apply parse_value_int.
  - destruct Hw.
  - destruct fuel as [|fuel]; [simpl in Hfuel; lia|].
    cbn [dump]. rewrite encode_string_app, parse_value_eq.
    change (dquote =? dquote) with true. cbv iota.
    now rewrite scanstring_encoded.
  - rewrite size_list in Hfuel. destruct fuel as [|fuel]; [lia|].
    apply wf_list in Hw.
    destruct items as [|x r]; [reflexivity|].
    rewrite dump_list_text, parse_value_eq.
    change (Json.ch "[" =? dquote) with false.
    change (Json.ch "[" =? Json.ch "{") with false.
    change (Json.ch "[" =? Json.ch "[") with true. cbv iota.
    rewrite skip_ws_indent.
    assert (HF : Forall (fun v => wf v /\ reads_back v) (x :: r)).
    { rewrite Forall_forall in *. intros v Hv. split; [now apply Hw|].
      apply IH; [exact Hv | now apply Hw]. }
    destruct (join_head (item_sep level) (dump (S level) x) (map (dump (S level)) r)
                (newline_indent level ++ Json.ch "]" :: rest)) as [more E].
    inversion Hw as [|? ? Hwx _]; subst.
    destruct (dump_head (S level) x Hwx) as (c & t & Ec & Hc1 & Hc2 & Hc3).
    cbn [map] in E |- *. rewrite E, Ec. cbn [app].
    rewrite skip_ws_stop by assumption. rewrite Hc2.
    rewrite app_comm_cons, <- Ec, <- E.
    exact (parse_items_dump level r x [] fuel rest HF ltac:(lia)).
  - rewrite size_dict in Hfuel. destruct fuel as [|fuel]; [lia|].
    apply wf_dict in Hw as [Hnd Hw].
    destruct items as [|x r]; [reflexivity|].
    rewrite dump_dict_text, parse_value_eq.
    change (Json.ch "{" =? dquote) with false.
    change (Json.ch "{" =? Json.ch "{") with true. cbv iota.
    rewrite skip_ws_indent.
    assert (HF : Forall (fun kv => wf (snd kv) /\ reads_back (snd kv)) (x :: r)).
    { rewrite Forall_forall in *. intros kv Hkv. split; [now apply Hw|].
      apply IH; [exact Hkv | now apply Hw]. }
    destruct (join_head (item_sep level) (pair_text level x) (map (pair_text level) r)
                (newline_indent level ++ Json.ch "}" :: rest)) as [more E].
    cbn [map] in E |- *. rewrite E.
    unfold pair_text at 1. rewrite <- app_assoc, encode_string_app.
    rewrite skip_ws_stop by reflexivity.
    change (dquote =? Json.ch "}") with false. cbv iota.
    rewrite <- encode_string_app, app_assoc. fold (pair_text level x). rewrite <- E.
    pose proof (parse_pairs_dump level r x [] fuel rest HF ltac:(lia)) as Q.
    cbn [app] in Q. rewrite dict_of_pairs_NoDup in Q by assumption. exact Q.
Qed.

(** *** The length of the text is enough fuel *)

Lemma join_length_bound {A} (f : A -> str) (sz : A -> nat) (sep : str)
    (items : list A) :
  (1 <= List.length sep)%nat ->
  Forall (fun x => (sz x <= List.length (f x))%nat) items ->
  (fold_right (fun x n => S (sz x + n)) O items
   <= List.length (join sep (map f items)) + List.length sep)%nat.
Proof.
  intros Hsep HF. induction HF as [|x r Hx HF IH]; [simpl; lia|].
  destruct r as [|y r].
  - simpl. lia.
  - cbn [map] in *. rewrite join_cons2, !length_app.
    cbn [fold_right] in *. lia.
Qed.

Lemma size_le_length (v : value) :
  wf v -> forall level, (size v <= List.length (dump level v))%nat.
Proof.
  induction v as [|b|z|l|s|items IH|items IH] using value_induction;
    intros Hw level.
  - simpl. lia.
  - destruct b; simpl; lia.
  - destruct (int_repr_head z) as (c & t & E & _). cbn [dump size].
    rewrite E. simpl. lia.
  - destruct Hw.
  - simpl. lia.
  - apply wf_list in Hw. rewrite size_list.
    destruct items as [|x r]; [simpl; lia|].
    pose proof (dump_list_text level x r []) as E. rewrite app_nil_r in E.
    rewrite E. cbn [List.length]. rewrite !length_app. cbn [List.length].
    assert (B : (size_items (x :: r)
                 <= List.length (join (item_sep level) (map (dump (S level)) (x :: r)))
                    + List.length (item_sep level))%nat).
    { apply join_length_bound; [simpl; lia|].
      rewrite Forall_forall in *. intros v Hv. apply IH; [exact Hv | now apply Hw]. }
    unfold item_sep in B at 2. cbn [List.length] in B. lia.
  - apply wf_dict in Hw as [_ Hw]. rewrite size_dict.
    destruct items as [|x r]; [simpl; lia|].
    pose proof (dump_dict_text level x r []) as E. rewrite app_nil_r in E.
    rewrite E. cbn [List.length]. rewrite !length_app. cbn [List.length].
    assert (B : (size_pairs (x :: r)
                 <= List.length (join (item_sep level) (map (pair_text level) (x :: r)))
                    + List.length (item_sep level))%nat).
    { apply (join_length_bound (pair_text level) (fun kv => size (snd kv)));
        [simpl; lia|].
      rewrite Forall_forall in *. intros kv Hkv.
      unfold pair_text. rewrite !length_app.
      specialize (IH kv Hkv (Hw kv Hkv) (S level)). lia. }
    unfold item_sep in B at 2. cbn [List.length] in B. lia.
Qed.

(** Decoding the text the encoder wrote gives the value back. *)
Lemma loads_dumps (v : value) : wf v -> loads (dumps v) = inr v.
Proof.
  intros Hw. unfold loads, dumps.
  pose proof (skip_ws_dump 0 v [] Hw) as Hs. rewrite app_nil_r in Hs. rewrite Hs.
  pose proof (parse_dump v Hw 0%nat (S (List.length (dump 0 v))) []
                ltac:(pose proof (size_le_length v Hw 0%nat); lia) I) as Hp.
  rewrite app_nil_r in Hp. rewrite Hp. reflexivity.
Qed.

(** *** Catalogs *)

Lemma entry_json_wf (e : entry) : wf (entry_json e).
Proof.
  apply wf_dict. split.
  - cbn [entry_json keys map fst].
    repeat (apply NoDup_cons; [apply mem_not_In; vm_compute; reflexivity|]).
    apply NoDup_nil.
  - repeat constructor.
Qed.

Lemma catalog_json_wf (cat : catalog) : NoDup (keys cat) -> wf (catalog_json cat).
Proof.
  intros H. apply wf_dict. split.
  - unfold keys in *. rewrite map_map. exact H.
  - apply Forall_forall. intros kv Hin.
    apply in_map_iff in Hin as ([k es] & <- & _). cbn [snd].
    apply wf_list. apply Forall_forall. intros v Hv.
    apply in_map_iff in Hv as (e & <- & _). apply entry_json_wf.
Qed.

Lemma as_entry_json (e : entry) : as_entry (entry_json e) = Some e.
Proof. now destruct e. Qed.

Lemma traverse_map {A B} (f : A -> B) (g : B -> option A) (l : list A) :
  (forall x, g (f x) = Some x) -> traverse g (map f l) = Some l.
Proof.
  intros H. induction l as [|x l IH]; [reflexivity|].
  cbn [map traverse]. now rewrite H, IH.
Qed.

Lemma as_catalog_json (cat : catalog) : as_catalog (catalog_json cat) = Some cat.
Proof.
  unfold as_catalog, catalog_json. apply traverse_map.
  intros [k es]. cbn [fst snd].
  now rewrite (traverse_map entry_json as_entry es as_entry_json).
Qed.

Lemma fs_write_read (path text : str) (fs : filesystem) :
  fs_write path text fs path = inr text.
Proof. unfold fs_write. now rewrite str_eqb_refl. Qed.

(** *** Writing the document: chunks and encoding *)

Lemma utf8_app (a b : str) :
  utf8_encodable (a ++ b) = utf8_encodable a && utf8_encodable b.
Proof. apply forallb_app. Qed.

Lemma utf8_concat (chunks : list str) :
  utf8_encodable (List.concat chunks) = forallb utf8_encodable chunks.
Proof.
  induction chunks as [|c chunks IH]; [reflexivity|].
  cbn [List.concat forallb]. now rewrite utf8_app, IH.
Qed.

Lemma utf8_escape (c : char) :
  utf8_encodable (escape_char c) = negb (is_surrogate c).
Proof.
  unfold escape_char.
  repeat match goal with
         | |- context [if ?b then _ else _] =>
             let E := fresh "E" in
             destruct b eqn:E;
             [ try apply N.eqb_eq in E; try apply N.ltb_lt in E|]
         end;
    try (subst c; reflexivity).
  - unfold is_surrogate.
    replace (0xD800 <=? c) with false by (symmetry; apply N.leb_gt; lia).
    cbn [andb negb utf8_encodable forallb]. unfold is_surrogate.
    assert (H16 : c / 16 < 2) by (apply N.Div0.div_lt_upper_bound; lia).
    assert (Hm : c mod 16 < 16) by (apply N.mod_lt; lia).
    assert (Hd : forall n, n < 16 -> (0xD800 <=? hexdigit n) = false).
    { intros n Hn. apply N.leb_gt. unfold hexdigit. destruct (n <? 10); lia. }
    rewrite !Hd by lia. reflexivity.
  - cbn [utf8_encodable forallb]. now rewrite andb_true_r.
Qed.

Lemma utf8_escaped (s : str) :
  utf8_encodable (flat_map escape_char s) = utf8_encodable s.
Proof.
  induction s as [|c s IH]; [reflexivity|].
  cbn [flat_map]. rewrite utf8_app, utf8_escape, IH. reflexivity.
Qed.

Lemma utf8_encode_string (s : str) :
  utf8_encodable (encode_string s) = utf8_encodable s.
Proof.
  unfold encode_string. cbn [utf8_encodable forallb].
  change (forallb _ ?x) with (utf8_encodable x). rewrite utf8_app, utf8_escaped.
  cbn. now rewrite andb_true_r.
Qed.

Lemma utf8_int_repr (z : Z) : utf8_encodable (int_repr z) = true.
Proof.
  assert (D : forall u, utf8_encodable (uint_str u) = true).
  { intros u. apply forallb_forall. intros c Hc.
    pose proof (proj1 (Forall_forall _ _) (uint_str_digits u) c Hc) as Hd.
    unfold digit_char, is_digit in Hd. apply andb_true_iff in Hd as [_ Hd].
    apply N.leb_le in Hd. unfold is_surrogate.
    replace (0xD800 <=? c) with false by (symmetry; apply N.leb_gt; lia).
    reflexivity. }
  unfold int_repr. destruct (Z.to_int z); [apply D|].
  cbn [utf8_encodable forallb]. apply D.
Qed.

Lemma utf8_indent (level : nat) : utf8_encodable (newline_indent level) = true.
Proof.
  unfold newline_indent. cbn [utf8_encodable forallb].
  apply forallb_forall. intros c Hc. apply repeat_spec in Hc. now subst c.
Qed.

Lemma join_flat (sep x : str) (xs : list str) :
  join sep (x :: xs) = x ++ flat_map (fun y => sep ++ y) xs.
Proof.
  revert x. induction xs as [|y xs IH]; intros x.
  - cbn. now rewrite app_nil_r.
  - rewrite join_cons2, IH. cbn [flat_map]. now rewrite <- app_assoc.
Qed.

Lemma utf8_join (sep : str) (xs : list str) :
  utf8_encodable sep = true ->
  utf8_encodable (join sep xs) = forallb utf8_encodable xs.
Proof.
  intros Hs. destruct xs as [|x xs]; [reflexivity|]. rewrite join_flat, utf8_app.
  cbn [forallb]. f_equal. induction xs as [|y xs IH]; [reflexivity|].
  cbn [flat_map forallb]. now rewrite !utf8_app, Hs, IH.
Qed.

Lemma atom_text_dump (level : nat) (v : value) (text : str) :
  atom_text v = Some text -> dump level v = text.
Proof.
  destruct v as [| [|] | | | | |]; cbn [atom_text dump]; congruence.
Qed.

Lemma list_chunks_text (f : value -> list str) (buf separator : str)
    (lst : list value) :
  List.concat (list_chunks f buf separator lst)
  = match lst with
    | [] => []
    | x :: rest =>
        buf ++ chunk_text f x
        ++ flat_map (fun y => separator ++ chunk_text f y) rest
    end.
Proof.
  revert buf. induction lst as [|x rest IH]; intros buf; [reflexivity|].
  cbn [list_chunks]. rewrite concat_app, IH.
  assert (C : chunk_text f x
              = match atom_text x with
                | Some text => text
                | None => List.concat (f x)
                end) by reflexivity.
  rewrite C.
  destruct (atom_text x), rest as [|y rest'];
    cbn [List.concat app flat_map];
    rewrite ?app_nil_r, <- ?app_assoc; reflexivity.
Qed.

Lemma dict_chunks_text (f : value -> list str) (first : bool) (separator : str)
    (items : list (str * value)) :
  List.concat (dict_chunks f first separator items)
  = match items with
    | [] => []
    | kv :: rest =>
        (if first then [] else separator)
        ++ (encode_string (fst kv) ++ lit ": " ++ chunk_text f (snd kv))
        ++ flat_map
             (fun kv' =>
                separator ++ encode_string (fst kv') ++ lit ": "
                ++ chunk_text f (snd kv'))
             rest
    end.
Proof.
  revert first. induction items as [|[k v] rest IH]; intros first; [reflexivity|].
  cbn [dict_chunks fst snd]. rewrite !concat_app, IH.
  assert (C : chunk_text f v
              = match atom_text v with
                | Some text => text
                | None => List.concat (f v)
                end) by reflexivity.
  rewrite C.
  destruct (atom_text v), first, rest as [|[k' v'] rest'];
    cbn [List.concat app flat_map fst snd];
    rewrite ?app_nil_r, <- ?app_assoc; reflexivity.
Qed.

(** The chunks of a value, put together, are its text. *)
Lemma concat_dump_chunks (v : value) :
  forall level, List.concat (dump_chunks level v) = dump level v.
Proof.
  induction v as [| | | | | items IH | items IH] using value_induction; intros level;
    try (cbn [dump_chunks List.concat]; now rewrite app_nil_r).
  - destruct items as [|x r]; [reflexivity|].
    assert (T : forall y, (forall lv, List.concat (dump_chunks lv y) = dump lv y) ->
                          chunk_text (dump_chunks (S level)) y = dump (S level) y).
    { intros y Hy. unfold chunk_text. destruct (atom_text y) as [t|] eqn:A;
        [symmetry; now apply atom_text_dump | apply Hy]. }
    inversion IH as [|? ? Hx Hr]; subst.
    assert (F : flat_map (fun y => item_sep level
                                   ++ chunk_text (dump_chunks (S level)) y) r
                = flat_map (fun t => item_sep level ++ t) (map (dump (S level)) r)).
    { clear -T Hr. induction Hr as [|y r Hy Hr IHr]; [reflexivity|].
      cbn [flat_map map]. now rewrite (T y Hy), IHr. }
    rewrite <- (app_nil_r (dump level (JList (x :: r)))), dump_list_text.
    change (dump_chunks level (JList (x :: r)))
      with (list_chunks (dump_chunks (S level)) (Json.ch "[" :: newline_indent (S level))
              (item_sep level) (x :: r)
            ++ [newline_indent level; [Json.ch "]"]]).
    rewrite concat_app, list_chunks_text. cbn [map]. rewrite join_flat, F, (T x Hx).
    cbn [List.concat app]. rewrite ?app_nil_r, <- ?app_assoc. reflexivity.
  - destruct items as [|x r]; [reflexivity|].
    assert (T : forall kv,
               (forall lv, List.concat (dump_chunks lv (snd kv)) = dump lv (snd kv)) ->
               encode_string (fst kv) ++ lit ": "
               ++ chunk_text (dump_chunks (S level)) (snd kv)
               = pair_text level kv).
    { intros kv Hy. unfold pair_text, chunk_text.
      destruct (atom_text (snd kv)) as [t|] eqn:A;
        [now rewrite (atom_text_dump (S level) _ _ A) | now rewrite Hy]. }
    inversion IH as [|? ? Hx Hr]; subst.
    assert (F : flat_map (fun kv => item_sep level ++ encode_string (fst kv) ++ lit ": "
                                    ++ chunk_text (dump_chunks (S level)) (snd kv)) r
                = flat_map (fun t => item_sep level ++ t) (map (pair_text level) r)).
    { clear -T Hr. induction Hr as [|y r Hy Hr IHr]; [reflexivity|].
      cbn [flat_map map]. now rewrite (T y Hy), IHr. }
    rewrite <- (app_nil_r (dump level (JDict (x :: r)))), dump_dict_text.
    change (dump_chunks level (JDict (x :: r)))
      with ([Json.ch "{"] :: newline_indent (S level)
            :: dict_chunks (dump_chunks (S level)) true (item_sep level) (x :: r)
            ++ [newline_indent level; [Json.ch "}"]]).
    cbn [List.concat]. rewrite concat_app, dict_chunks_text. cbn [map].
    rewrite join_flat, F, (T x Hx).
    cbn [List.concat app]. rewrite ?app_nil_r, <- ?app_assoc. reflexivity.
Qed.

(** *** Which documents can be written *)

Lemma utf8_dumped {A} (f : A -> str) (g : A -> bool) (l : list A) :
  Forall (fun x => utf8_encodable (f x) = g x) l ->
  forallb utf8_encodable (map f l) = forallb g l.
Proof.
  induction 1 as [|x l Hx Hl IH]; [reflexivity|].
  cbn [map forallb]. now rewrite Hx, IH.
Qed.

Lemma utf8_item_sep (level : nat) : utf8_encodable (item_sep level) = true.
Proof. unfold item_sep. cbn [utf8_encodable forallb]. apply (utf8_indent (S level)). Qed.

(** The text of a value holds a surrogate exactly when one of its strings
    does. *)
Lemma utf8_dump (v : value) :
  forall level, utf8_encodable (dump level v) = value_encodable v.
Proof.
  induction v as [|b|z|l|s|items IH|items IH] using value_induction; intros level.
  - reflexivity.
  - now destruct b.
  - apply utf8_int_repr.
  - reflexivity.
  - apply utf8_encode_string.
  - destruct items as [|x r]; [reflexivity|].
    rewrite <- (app_nil_r (dump level (JList (x :: r)))), dump_list_text.
    change (?c :: ?a ++ ?b) with ([c] ++ a ++ b).
    change (?a ++ ?c :: []) with (a ++ [c]).
    rewrite !utf8_app, !utf8_indent, utf8_join by apply utf8_item_sep.
    rewrite (utf8_dumped (dump (S level)) value_encodable (x :: r)).
    + cbn [value_encodable]. cbn. now rewrite andb_true_r.
    + eapply Forall_impl; [|exact IH]. intros y Hy. apply Hy.
  - destruct items as [|x r]; [reflexivity|].
    rewrite <- (app_nil_r (dump level (JDict (x :: r)))), dump_dict_text.
    change (?c :: ?a ++ ?b) with ([c] ++ a ++ b).
    change (?a ++ ?c :: []) with (a ++ [c]).
    rewrite !utf8_app, !utf8_indent, utf8_join by apply utf8_item_sep.
    rewrite (utf8_dumped (pair_text level)
               (fun kv => utf8_encodable (fst kv) && value_encodable (snd kv)) (x :: r)).
    + cbn [value_encodable]. cbn. now rewrite andb_true_r.
    + eapply Forall_impl; [|exact IH]. intros kv Hkv. unfold pair_text.
      rewrite !utf8_app, utf8_encode_string, Hkv. reflexivity.
Qed.

Lemma entry_json_encodable (e : entry) :
  value_encodable (entry_json e) = entry_encodable e.
Proof.
  unfold entry_encodable. cbn [value_encodable entry_json forallb fst snd].
  change (utf8_encodable (lit "name")) with true.
  change (utf8_encodable (lit "description")) with true.
  change (utf8_encodable (lit "file")) with true.
  change (utf8_encodable (lit "line")) with true.
  cbn [andb]. now rewrite !andb_true_r, andb_assoc.
Qed.

Lemma catalog_json_encodable (cat : catalog) :
  value_encodable (catalog_json cat) = catalog_encodable cat.
Proof.
  unfold catalog_json, catalog_encodable. cbn [value_encodable].
  induction cat as [|[k es] cat IH]; [reflexivity|].
  cbn [map forallb fst snd value_encodable]. rewrite IH. do 2 f_equal.
  induction es as [|e es IHe]; [reflexivity|].
  cbn [map forallb]. now rewrite entry_json_encodable, IHe.
Qed.

Lemma chunks_encodable (cat : catalog) :
  forallb utf8_encodable (dump_chunks 0 (catalog_json cat)) = catalog_encodable cat.
Proof.
  now rewrite <- utf8_concat, concat_dump_chunks, utf8_dump, catalog_json_encodable.
Qed.

Lemma write_chunks_all (chunks : list str) :
  forallb utf8_encodable chunks = true ->
  write_chunks chunks = (List.concat chunks, None).
Proof.
  induction chunks as [|c chunks IH]; [reflexivity|]. cbn [forallb write_chunks].
  intros H. apply andb_true_iff in H as [Hc H]. now rewrite Hc, (IH H).
Qed.

(** When a chunk cannot be encoded, what is written is a part of the text,
    and the rest of the text begins with that chunk. *)
Lemma write_chunks_cut (chunks : list str) :
  forallb utf8_encodable chunks = false ->
  exists written rest,
    write_chunks chunks = (written, Some encode_error)
    /\ List.concat chunks = written ++ rest
    /\ utf8_encodable written = true /\ utf8_encodable rest = false.
Proof.
  induction chunks as [|c chunks IH]; [discriminate|]. cbn [forallb write_chunks].
  destruct (utf8_encodable c) eqn:Hc; cbn [andb].
  - intros H. destruct (IH H) as (w & rest & Hw & Hcat & Hok & Hrest).
    exists (c ++ w), rest. rewrite Hw. cbn [List.concat].
    rewrite Hcat, utf8_app, Hc, Hok, app_assoc. now repeat split.
  - intros _. exists [], (List.concat (c :: chunks)). cbn [List.concat app].
    rewrite utf8_app, Hc. now repeat split.
Qed.

Lemma save_catalog_written (cat : catalog) (output_file : str) (fs : filesystem) :
  catalog_encodable cat = true ->
  save_catalog cat output_file fs
  = Outcome [lit "Catalog saved to " ++ output_file]
            (fs_write output_file (dumps (catalog_json cat)) fs) None.
Proof.
  intros H. unfold save_catalog.
  rewrite write_chunks_all by now rewrite chunks_encodable.
  now rewrite concat_dump_chunks.
Qed.

Lemma save_catalog_cut (cat : catalog) (output_file : str) (fs : filesystem) :
  catalog_encodable cat = false ->
  exists written rest,
    save_catalog cat output_file fs
    = Outcome [] (fs_write output_file written fs) (Some encode_error)
    /\ dumps (catalog_json cat) = written ++ rest
    /\ utf8_encodable written = true /\ utf8_encodable rest = false.
Proof.
  intros H. rewrite <- chunks_encodable in H.
  destruct (write_chunks_cut _ H) as (w & rest & Hw & Hcat & Hok & Hrest).
  exists w, rest. unfold save_catalog. rewrite Hw.
  rewrite concat_dump_chunks in Hcat. now repeat split.
Qed.

(** *** Documents that were cut short *)

Lemma drop_while_more (p : char -> bool) (s : str) (c : char) (r t : str) :
  drop_while p s = c :: r -> drop_while p (s ++ t) = c :: r ++ t.
Proof.
  induction s as [|a s IH]; cbn [drop_while app]; [discriminate|].
  destruct (p a); [exact IH|]. intros [= <- <-]. reflexivity.
Qed.

Lemma take_while_more (p : char -> bool) (s : str) (c : char) (r t : str) :
  drop_while p s = c :: r -> take_while p (s ++ t) = take_while p s.
Proof.
  induction s as [|a s IH]; cbn [drop_while take_while app]; [discriminate|].
  destruct (p a); [|reflexivity]. intros H. now rewrite IH.
Qed.

Lemma skip_ws_more (s : str) (c : char) (r t : str) :
  skip_ws s = c :: r -> skip_ws (s ++ t) = c :: r ++ t.
Proof. apply drop_while_more. Qed.

Lemma ends_number_cases (h : char) :
  ends_number h = true ->
  h = 32 \/ h = 9 \/ h = 10 \/ h = 13 \/ h = 44 \/ h = 93 \/ h = 125.
Proof.
  unfold ends_number, is_ws. rewrite !orb_true_iff, !N.eqb_eq.
  change (Json.ch ",") with 44. change (Json.ch "]") with 93.
  change (Json.ch "}") with 125. tauto.
Qed.

Lemma skip_ws_closed (r : str) (c : char) (r' : str) :
  skip_ws r = c :: r' -> ends_number c = true -> closed r.
Proof.
  destruct r as [|h r]; [discriminate|]. unfold skip_ws. cbn [drop_while closed].
  destruct (is_ws h) eqn:W.
  - intros _ _. unfold ends_number. now rewrite W.
  - now intros [= <- _].
Qed.

Lemma cons_fst_more (c : char) (s t x r : str) :
  (forall x' r', scanstring s = Some (x', r') ->
                 scanstring (s ++ t) = Some (x', r' ++ t)) ->
  cons_fst c (scanstring s) = Some (x, r) ->
  cons_fst c (scanstring (s ++ t)) = Some (x, r ++ t).
Proof.
  intros IH. destruct (scanstring s) as [[x' r']|] eqn:E; [|discriminate].
  cbn [cons_fst]. intros [= <- <-]. now rewrite (IH x' r' eq_refl).
Qed.
(** A string that was read to its closing quote is read the same with more
    text after it. *)
Lemma scanstring_bounded (n : nat) :
  forall s x r t, (List.length s <= n)%nat -> scanstring s = Some (x, r) ->
                  scanstring (s ++ t) = Some (x, r ++ t).
Proof.
  induction n as [|n IH]; intros s x r t Hn.
  - destruct s; [discriminate | cbn in Hn; lia].
  - assert (K : forall c s', (List.length s' <= n)%nat ->
                  cons_fst c (scanstring s') = Some (x, r) ->
                  cons_fst c (scanstring (s' ++ t)) = Some (x, r ++ t)).
    { intros c s' Hs. apply cons_fst_more. intros x' r'. now apply IH. }
    destruct s as [|c s1]; [discriminate|]. cbn [List.length] in Hn.
    cbn [scanstring app].
    destruct (c =? dquote); [now intros [= <- <-]|].
    destruct (c =? backslash).
    + destruct s1 as [|e s2]; [discriminate|]. cbn [List.length app] in *.
      destruct (e =? Json.ch "u").
      * destruct s2 as [|h1 [|h2 [|h3 [|h4 s3]]]]; try discriminate.
        cbn [List.length app] in *.
        destruct (hex4 h1 h2 h3 h4) as [uni|]; [|discriminate].
        destruct ((55296 <=? uni) && (uni <=? 56319)); [|apply K; lia].
        destruct s3 as [|b [|u s4]]; cbn [List.length app] in *.
        -- discriminate.
        -- intros H. destruct (b =? backslash) eqn:B.
           ++ apply N.eqb_eq in B. subst b. discriminate H.
           ++ destruct t as [|u t']; [apply (K uni [b]); [cbn; lia | exact H]|].
              cbn [app andb]. apply (K uni [b]); [cbn; lia | exact H].
        -- destruct ((b =? backslash) && (u =? Json.ch "u"));
             [|apply (K uni (b :: u :: s4)); cbn [List.length]; lia].
           destruct s4 as [|g1 [|g2 [|g3 [|g4 s5]]]]; try discriminate.
           cbn [List.length app] in *.
           destruct (hex4 g1 g2 g3 g4) as [uni2|]; [|discriminate].
           destruct ((56320 <=? uni2) && (uni2 <=? 57343)); [apply K; lia|].
           apply (K uni (b :: u :: g1 :: g2 :: g3 :: g4 :: s5)).
           cbn [List.length]. lia.
      * destruct (unescape e); [apply K; lia | discriminate].
    + destruct (c <? 32); [discriminate | apply K; lia].
Qed.

Lemma scanstring_more (s x r t : str) :
  scanstring s = Some (x, r) -> scanstring (s ++ t) = Some (x, r ++ t).
Proof. now apply (scanstring_bounded (List.length s)). Qed.

Lemma startswith_split (p s : str) :
  startswith p s = true -> exists r, s = p ++ r.
Proof.
  revert s. induction p as [|a p IH]; intros s; [now exists s|].
  destruct s as [|b s]; [discriminate|]. cbn [startswith].
  intros H. apply andb_true_iff in H as [E H]. apply N.eqb_eq in E. subst b.
  destruct (IH s H) as [r ->]. now exists r.
Qed.

(** So is a constant. *)
Lemma parse_const_more (s : str) (v : value) (r t : str) :
  parse_const s = Some (v, r) -> parse_const (s ++ t) = Some (v, r ++ t).
Proof.
  unfold parse_const, or_else, const.
  repeat match goal with
         | |- context [startswith (lit ?w) s] =>
             let E := fresh "E" in
             destruct (startswith (lit w) s) eqn:E;
             [apply startswith_split in E as [r0 ->]; clear;
              vm_compute; now intros [= <- <-] |]
         end.
  discriminate.
Qed.
(** A number is, when the text after it begins with a character that ends
    a number: the exponent, the fraction and the integer part, from the
    last to the first. *)
Lemma scan_exp_more (s exp : str) (h : char) (r t : str) :
  scan_exp s = (exp, h :: r) -> ends_number h = true ->
  scan_exp (s ++ t) = (exp, h :: r ++ t)
  /\ exists h2 r2, s = h2 :: r2 /\ (h2 =? Json.ch ".") = false /\ is_digit h2 = false.
Proof.
  intros H Hh.
  assert (Hd : (h =? Json.ch ".") = false /\ is_digit h = false
               /\ (h =? Json.ch "e") || (h =? Json.ch "E") = false).
  { apply ends_number_cases in Hh.
    destruct Hh as [->|[->|[->|[->|[->|[->| ->]]]]]]; vm_compute; auto. }
  destruct Hd as (Hdot & Hdig & He).
  destruct s as [|e s1]; [discriminate|]. cbn [scan_exp app] in *.
  destruct ((e =? Json.ch "e") || (e =? Json.ch "E")) eqn:E.
  - assert (He' : (e =? Json.ch ".") = false /\ is_digit e = false).
    { apply orb_true_iff in E as [E|E]; apply N.eqb_eq in E; subst e; vm_compute; auto. }
    assert (X : forall l : str, ([] : str, e :: l) <> (exp, h :: r)).
    { intros l [= _ Eh _]. subst h. rewrite E in He. discriminate. }
    split; [|now exists e, s1].
    destruct s1 as [|d s2]; [now apply X in H|]. cbn [app].
    destruct (is_digit d).
    + injection H as <- D. now rewrite (take_while_more _ _ _ _ t D),
        (drop_while_more _ _ _ _ t D).
    + destruct ((d =? Json.ch "+") || (d =? Json.ch "-")); [|now apply X in H].
      destruct s2 as [|d2 s3]; [now apply X in H|]. cbn [app].
      destruct (is_digit d2); [|now apply X in H].
      injection H as <- D. now rewrite (take_while_more _ _ _ _ t D),
        (drop_while_more _ _ _ _ t D).
  - injection H as E1 E2 E3. subst exp e r.
    split; [reflexivity|]. now exists h, s1.
Qed.

Lemma scan_frac_more (s frac : str) (h : char) (r t : str) :
  scan_frac s = (frac, h :: r) -> (h =? Json.ch ".") = false -> is_digit h = false ->
  scan_frac (s ++ t) = (frac, h :: r ++ t)
  /\ exists h1 r1, s = h1 :: r1 /\ is_digit h1 = false.
Proof.
  intros H Hdot Hdig.
  destruct s as [|dot [|d s']]; [discriminate| |].
  - cbn in H. injection H as E1 E2 E3. subst frac dot r.
    split; [|now exists h, []].
    cbn [app scan_frac]. destruct t as [|d t']; [reflexivity|].
    now rewrite Hdot.
  - cbn [scan_frac app] in *.
    destruct ((dot =? Json.ch ".") && is_digit d) eqn:C.
    + injection H as <- D. split.
      * now rewrite (take_while_more _ _ _ _ t D), (drop_while_more _ _ _ _ t D).
      * apply andb_true_iff in C as [C _]. apply N.eqb_eq in C. subst dot.
        now exists (Json.ch "."), (d :: s').
    + injection H as E1 E2 E3. subst frac dot r.
      split; [reflexivity|]. now exists h, (d :: s').
Qed.

Lemma scan_digits_more (neg : bool) (s : str) (n : bool) (ds : str) (h : char)
    (r t : str) :
  match s with
  | c :: s2 =>
      if c =? 48 then Some (neg, [c], s2)
      else if is_digit c
           then Some (neg, c :: take_while is_digit s2, drop_while is_digit s2)
           else None
  | [] => None
  end = Some (n, ds, h :: r) ->
  match s ++ t with
  | c :: s2 =>
      if c =? 48 then Some (neg, [c], s2)
      else if is_digit c
           then Some (neg, c :: take_while is_digit s2, drop_while is_digit s2)
           else None
  | [] => None
  end = Some (n, ds, h :: r ++ t)
  /\ exists d s2, s = d :: s2 /\ is_digit d = true.
Proof.
  destruct s as [|c s2]; [discriminate|]. cbn [app].
  destruct (c =? 48) eqn:Z.
  - intros [= <- <- ->]. split; [reflexivity|]. apply N.eqb_eq in Z. subst c.
    now exists 48, (h :: r).
  - destruct (is_digit c) eqn:D; [|discriminate]. intros [= <- <- W].
    rewrite (take_while_more _ _ _ _ t W), (drop_while_more _ _ _ _ t W).
    split; [reflexivity|]. now exists c, s2.
Qed.

Lemma scan_int_more (s : str) (neg : bool) (digits : str) (h : char) (r t : str) :
  scan_int s = Some (neg, digits, h :: r) ->
  scan_int (s ++ t) = Some (neg, digits, h :: r ++ t)
  /\ parse_const (s ++ t) = None.
Proof.
  unfold scan_int. intros H.
  destruct s as [|c s']; [discriminate|]. cbn [app].
  destruct (c =? Json.ch "-") eqn:M.
  - apply N.eqb_eq in M. subst c.
    destruct (scan_digits_more true s' _ _ _ _ t H) as (E & d & s2 & -> & Hd).
    split; [exact E|]. now apply parse_const_minus.
  - destruct (scan_digits_more false (c :: s') _ _ _ _ t H)
      as (E & d & s2 & [= -> ->] & Hd).
    split; [exact E|]. now apply parse_const_digit.
Qed.

Lemma parse_number_more (s : str) (v : value) (r t : str) :
  parse_number s = Some (v, r) -> closed r ->
  parse_number (s ++ t) = Some (v, r ++ t) /\ parse_const (s ++ t) = None.
Proof.
  unfold parse_number. intros H Hc.
  destruct (scan_int s) as [[[neg digits] s1]|] eqn:I; [|discriminate].
  destruct (scan_frac s1) as [frac s2] eqn:F.
  destruct (scan_exp s2) as [exp s3] eqn:X.
  assert (R : s3 = r) by (destruct (frac ++ exp); now injection H).
  subst s3. destruct r as [|h r]; [contradiction|]. cbn [closed] in Hc.
  destruct (scan_exp_more _ _ _ _ t X Hc) as (X' & h2 & r2 & -> & Hdot & Hdig).
  destruct (scan_frac_more _ _ _ _ t F Hdot Hdig) as (F' & h1 & r1 & -> & Hdig1).
  destruct (scan_int_more _ _ _ _ _ t I) as (I' & C).
  split; [|exact C].
  rewrite I'. cbn [app] in F', X'. cbn [app]. rewrite F', X'.
  destruct (frac ++ exp); now injection H as <-.
Qed.
Lemma parse_value_nil (fuel : nat) : parse_value fuel [] = None.
Proof. now destruct fuel. Qed.

Lemma parse_items_nil (fuel : nat) (acc : list value) : parse_items fuel [] acc = None.
Proof. destruct fuel as [|fuel]; [reflexivity|]. now rewrite parse_items_eq, parse_value_nil. Qed.

Lemma parse_pairs_nil (fuel : nat) (acc : list (str * value)) :
  parse_pairs fuel [] acc = None.
Proof. now destruct fuel. Qed.

(** The three decoders, by induction on the fuel. *)
Lemma reads_more_step (fuel : nat) : reads_more fuel -> reads_more (S fuel).
Proof.
  intros (IHv & IHi & IHp). unfold reads_more.
  split; [|split].
  - intros s v r H Hs fuel' t Hf.
    destruct fuel' as [|fuel']; [lia|]. apply le_S_n in Hf.
    destruct s as [|c s1]; [discriminate|].
    change ((c :: s1) ++ t) with (c :: s1 ++ t).
    rewrite parse_value_eq in *.
    destruct (c =? dquote) eqn:Q.
    { destruct (scanstring s1) as [[x r0]|] eqn:E; [|discriminate].
      injection H as <- <-. now rewrite (scanstring_more _ _ _ t E). }
    destruct (c =? Json.ch "{") eqn:B.
    { destruct (skip_ws s1) as [|c2 r0] eqn:W; [discriminate|].
      rewrite (skip_ws_more _ _ _ t W).
      destruct (c2 =? Json.ch "}"); [now injection H as <- <-|].
      now apply (IHp (c2 :: r0)). }
    destruct (c =? Json.ch "[") eqn:L.
    { destruct (skip_ws s1) as [|c2 r0] eqn:W; [discriminate|].
      rewrite (skip_ws_more _ _ _ t W).
      destruct (c2 =? Json.ch "]"); [now injection H as <- <-|].
      now apply (IHi (c2 :: r0)). }
    destruct Hs as [Hs|Hs].
    { cbn [bracketed] in Hs. apply N.eqb_neq in Q, B, L. tauto. }
    destruct (parse_const (c :: s1)) as [[v0 r0]|] eqn:C.
    + injection H as <- <-.
      pose proof (parse_const_more _ _ _ t C) as C'.
      change ((c :: s1) ++ t) with (c :: s1 ++ t) in C'. now rewrite C'.
    + destruct (parse_number_more _ _ _ t H Hs) as [N C'].
      change ((c :: s1) ++ t) with (c :: s1 ++ t) in N, C'. now rewrite C', N.
  - intros s acc v r H fuel' t Hf.
    destruct fuel' as [|fuel']; [lia|]. apply le_S_n in Hf.
    rewrite parse_items_eq in *.
    destruct (parse_value fuel s) as [[v0 r0]|] eqn:V; [|discriminate].
    destruct (skip_ws r0) as [|c r'] eqn:W; [discriminate|].
    assert (Hc : closed r0).
    { apply (skip_ws_closed _ _ _ W).
      destruct (c =? Json.ch "]") eqn:E1;
        [apply N.eqb_eq in E1; now subst c|].
      destruct (c =? Json.ch ",") eqn:E2;
        [apply N.eqb_eq in E2; now subst c | discriminate]. }
    rewrite (IHv _ _ _ V (or_intror Hc) fuel' t Hf), (skip_ws_more _ _ _ t W).
    destruct (c =? Json.ch "]"); [now injection H as <- <-|].
    destruct (c =? Json.ch ","); [|discriminate].
    destruct (skip_ws r') as [|c' r''] eqn:W'; [now rewrite parse_items_nil in H|].
    rewrite (skip_ws_more _ _ _ t W'). now apply (IHi (c' :: r'')).
  - intros s acc v r H fuel' t Hf.
    destruct fuel' as [|fuel']; [lia|]. apply le_S_n in Hf.
    destruct s as [|q s1]; [discriminate|].
    change ((q :: s1) ++ t) with (q :: s1 ++ t).
    rewrite parse_pairs_eq in *.
    destruct (q =? dquote); [|discriminate].
    destruct (scanstring s1) as [[key r0]|] eqn:E; [|discriminate].
    rewrite (scanstring_more _ _ _ t E).
    destruct (skip_ws r0) as [|colon r1] eqn:W0; [discriminate|].
    rewrite (skip_ws_more _ _ _ t W0).
    destruct (colon =? Json.ch ":"); [|discriminate].
    destruct (skip_ws r1) as [|c1 r1'] eqn:W1; [now rewrite parse_value_nil in H|].
    rewrite (skip_ws_more _ _ _ t W1).
    destruct (parse_value fuel (c1 :: r1')) as [[v0 r2]|] eqn:V; [|discriminate].
    destruct (skip_ws r2) as [|c r3] eqn:W; [discriminate|].
    assert (Hc : closed r2).
    { apply (skip_ws_closed _ _ _ W).
      destruct (c =? Json.ch "}") eqn:E1;
        [apply N.eqb_eq in E1; now subst c|].
      destruct (c =? Json.ch ",") eqn:E2;
        [apply N.eqb_eq in E2; now subst c | discriminate]. }
    pose proof (IHv _ _ _ V (or_intror Hc) fuel' t Hf) as V'.
    change ((c1 :: r1') ++ t) with (c1 :: r1' ++ t) in V'.
    rewrite V', (skip_ws_more _ _ _ t W).
    destruct (c =? Json.ch "}"); [now injection H as <- <-|].
    destruct (c =? Json.ch ","); [|discriminate].
    destruct (skip_ws r3) as [|c' r''] eqn:W'; [now rewrite parse_pairs_nil in H|].
    rewrite (skip_ws_more _ _ _ t W'). now apply (IHp (c' :: r'')).
Qed.

Lemma parse_more (fuel : nat) : reads_more fuel.
Proof.
  induction fuel as [|fuel IH]; [|now apply reads_more_step].
  unfold reads_more. split; [|split]; intros; discriminate.
Qed.

(** A document that was cut short does not load: whatever part of the text
    of an object was written, if some of the text is missing the decoder
    fails. *)
Lemma loads_cut (items : list (str * value)) (written rest : str) :
  wf (JDict items) -> dumps (JDict items) = written ++ rest -> rest <> [] ->
  loads written = inl decode_error.
Proof.
  intros Hwf Hd Hr. unfold loads.
  destruct written as [|c w]; [reflexivity|].
  assert (Hc : c = Json.ch "{").
  { unfold dumps in Hd. destruct items; cbn in Hd; now injection Hd. }
  subst c. change (skip_ws (Json.ch "{" :: w)) with (Json.ch "{" :: w).
  destruct (parse_value _ (Json.ch "{" :: w)) as [[v r]|] eqn:P; [|reflexivity].
  exfalso. destruct (parse_more (S (List.length (Json.ch "{" :: w)))) as (M & _).
  pose proof (M _ _ _ P (or_introl (or_intror (or_introl eq_refl)))
                (Nat.max (S (List.length (Json.ch "{" :: w))) (size (JDict items)))
                rest (Nat.le_max_l _ _)) as E.
  rewrite <- Hd in E.
  pose proof (parse_dump (JDict items) Hwf 0%nat _ []
                (Nat.le_max_r (S (List.length (Json.ch "{" :: w))) _) I) as E'.
  rewrite app_nil_r in E'. unfold dumps in E. rewrite E' in E.
  injection E as _ E. symmetry in E. apply app_eq_nil in E as [_ E]. contradiction.
Qed.

Lemma load_cut (cat : catalog) (written rest : str) (fs : filesystem) :
  NoDup (keys cat) -> dumps (catalog_json cat) = written ++ rest ->
  utf8_encodable rest = false ->
  load_catalog (fs_write default_output written fs) = inl decode_error.
Proof.
  intros Hk Hd Hr. unfold load_catalog.
  change (lit "method_catalog.json") with default_output.
  rewrite fs_write_read.
  apply (loads_cut (map (fun kv => (fst kv, JList (map entry_json (snd kv)))) cat)
           written rest); [now apply catalog_json_wf | exact Hd |].
  intros ->. discriminate.
Qed.

Lemma analyzer_on_cut (lower upper : str -> str) (cat : catalog)
    (written rest : str) (fs : filesystem) :
  NoDup (keys cat) -> dumps (catalog_json cat) = written ++ rest ->
  utf8_encodable rest = false ->
  Ana.main lower upper (fs_write default_output written fs) = ([], Some decode_error).
Proof.
  intros Hk Hd Hr. unfold Ana.main. now rewrite (load_cut cat written rest).
Qed.

(** C6, as amended. A catalog can be saved when none of its keys and string
    fields holds a surrogate code point, which is when its document can be
    encoded as UTF-8. Saving such a catalog and loading the document gives
    back the object that was saved: the same file keys in the same order,
    the same entries in the same order under each, and the same four field
    values in each entry; the analysis then runs on that catalog. Saving a
    catalog that holds a surrogate raises [UnicodeEncodeError]: nothing is
    printed, the document is left cut short, with a part of its text that
    stops before the first surrogate, and loading it fails. A catalog is a
    Python dict, so no file key occurs twice in it. *)
Theorem save_load_round_trip (cat : catalog) (fs : filesystem) :
  NoDup (keys cat) ->
  let saved := save_catalog cat default_output fs in
  (catalog_encodable cat = true ->
   saved = Outcome [lit "Catalog saved to method_catalog.json"]
                   (fs_write default_output (dumps (catalog_json cat)) fs) None
   /\ load_catalog (store saved) = inr (catalog_json cat)
   /\ as_catalog (catalog_json cat) = Some cat
   /\ forall lower upper, main lower upper (store saved) = main_on lower upper cat)
  /\ (catalog_encodable cat = false ->
      printed saved = [] /\ raised saved = Some encode_error
      /\ (exists written rest,
            store saved = fs_write default_output written fs
            /\ dumps (catalog_json cat) = written ++ rest
            /\ utf8_encodable written = true /\ utf8_encodable rest = false)
      /\ load_catalog (store saved) = inl decode_error).
Proof.
  intros Hk saved. split.
  - intros He.
    assert (S : saved = Outcome [lit "Catalog saved to method_catalog.json"]
                          (fs_write default_output (dumps (catalog_json cat)) fs) None)
      by now apply save_catalog_written.
    assert (L : load_catalog (store saved) = inr (catalog_json cat)).
    { rewrite S. cbn [store]. unfold load_catalog.
      change (lit "method_catalog.json") with default_output.
      rewrite fs_write_read. apply loads_dumps. now apply catalog_json_wf. }
    split; [exact S|]. split; [exact L|]. split; [apply as_catalog_json|].
    intros lower upper. unfold main. now rewrite L, as_catalog_json.
  - intros He.
    destruct (save_catalog_cut cat default_output fs He)
      as (w & rest & S & Hcat & Hok & Hrest).
    unfold saved. rewrite S. cbn [printed raised store].
    split; [reflexivity|]. split; [reflexivity|]. split; [now exists w, rest|].
    now apply (load_cut cat w rest).
Qed.

Lemma save_load_round_trip_witness :
  load_catalog (store (save_catalog escaped_catalog default_output sample_store))
  = inr (catalog_json escaped_catalog)
  /\ as_catalog (catalog_json escaped_catalog) = Some escaped_catalog
  /\ raised (save_catalog surrogate_catalog default_output sample_store)
     = Some encode_error.
Proof.
  destruct (save_load_round_trip escaped_catalog sample_store) as [H _].
  - unfold keys. cbn [escaped_catalog map fst].
    repeat (apply NoDup_cons; [apply mem_not_In; vm_compute; reflexivity|]).
    apply NoDup_nil.
  - destruct (save_load_round_trip surrogate_catalog sample_store) as [_ H'].
    + unfold keys. cbn [surrogate_catalog map fst].
      apply NoDup_cons; [intros [] | apply NoDup_nil].
    + destruct (H eq_refl) as (_ & H1 & H2 & _).
      destruct (H' eq_refl) as (_ & H3 & _ & _).
      split; [exact H1|]. split; [exact H2 | exact H3].
Defined.

(** C6 as stated fails for a catalog that holds a surrogate, as the name of
    a file that is not valid UTF-8 gives: the key cannot be encoded, saving
    raises, the document holds the four characters written before the key,
    and loading it fails. *)
Lemma save_load_counterexample :
  let saved := save_catalog surrogate_catalog default_output sample_store in
  raised saved = Some encode_error
  /\ printed saved = []
  /\ store saved default_output = inr (lit "{" ++ nl ++ lit "  ")
  /\ load_catalog (store saved) = inl decode_error
  /\ load_catalog (store saved) <> inr (catalog_json surrogate_catalog).
Proof.
  vm_compute. repeat split; discriminate.
Qed.

(** ** The line patterns, deterministically (C4) *)

(** A greedy star whose continuation cannot start inside the class never
    gives back a character: it takes the longest run. *)
Lemma star_greedy {A} (p : char -> bool) (k : nat -> str -> option A)
    (pos : nat) (s : str) :
  (forall pos c s', p c = true -> k pos (c :: s') = None) ->
  star p k pos s = k (pos + List.length (take_while p s))%nat (drop_while p s).
Proof.
  intros Hk. revert pos. induction s as [|c s IH]; intros pos.
  - simpl. now rewrite Nat.add_0_r.
  - cbn [star take_while drop_while]. destruct (p c) eqn:E.
    + rewrite IH. cbn [List.length]. rewrite Nat.add_succ_r. cbn [Nat.add].
      match goal with
      | |- match ?x with _ => _ end = _ => destruct x; [reflexivity|]
      end.
      now apply Hk.
    + cbn [List.length]. now rewrite Nat.add_0_r.
Qed.

Lemma run_star {A} (p : char -> bool) (k : nat -> str -> option str -> option A)
    (pos : nat) (s : str) (g : option str) :
  krejects k p ->
  run (Star p) k pos s g
  = k (pos + List.length (take_while p s))%nat (drop_while p s) g.
Proof.
  intros Hk. cbn [run]. apply (star_greedy p (fun pos' s' => k pos' s' g)).
  intros pos' c s' Hc. now apply Hk.
Qed.

Lemma run_cat {A} (r : regex) (rs : list regex)
    (k : nat -> str -> option str -> option A) (pos : nat) (s : str) (g : option str) :
  run (cat (r :: rs)) k pos s g
  = run r (fun pos' s' g' => run (cat rs) k pos' s' g') pos s g.
Proof. destruct rs; reflexivity. Qed.

Lemma run_lit {A} (c : char) (k : nat -> str -> option str -> option A)
    (pos : nat) (s : str) (g : option str) :
  run (Lit c) k pos s g
  = match expect c s with
    | Some s' => k (S pos) s' g
    | None => None
    end.
Proof. destruct s as [|c' s]; [reflexivity|]. simpl. now destruct (c' =? c). Qed.

Lemma run_word {A} (w : str) (k : nat -> str -> option str -> option A)
    (pos : nat) (s : str) (g : option str) :
  run (word w) k pos s g
  = match expect_word w s with
    | Some s' => k (pos + List.length w)%nat s' g
    | None => None
    end.
Proof.
  unfold word. revert pos s. induction w as [|c w IH]; intros pos s.
  - simpl. now rewrite Nat.add_0_r.
  - cbn [map]. rewrite run_cat, run_lit. cbn [expect_word].
    destruct (expect c s) as [s'|]; [|reflexivity].
    rewrite IH. cbn [List.length]. now rewrite Nat.add_succ_r.
Qed.

Lemma firstn_take_while (p : char -> bool) (s : str) :
  firstn (List.length (take_while p s)) s = take_while p s.
Proof.
  induction s as [|c s IH]; [reflexivity|].
  simpl. destruct (p c); [simpl; now rewrite IH | reflexivity].
Qed.

Lemma run_ident {A} (k : nat -> str -> option str -> option A)
    (pos : nat) (s : str) (g : option str) :
  krejects k ident_char ->
  run ident k pos s g
  = match lex_ident s with
    | Some (nm, s') => k (pos + List.length nm)%nat s' (Some nm)
    | None => None
    end.
Proof.
  intros Hk. unfold ident, lex_ident. cbn [run].
  destruct s as [|c s]; [reflexivity|].
  destruct (ident_start c); [|reflexivity].
  rewrite star_greedy.
  - cbn [List.length]. rewrite Nat.add_succ_r.
    replace (S pos + List.length (take_while ident_char s) - pos)%nat
      with (S (List.length (take_while ident_char s))) by lia.
    cbn [firstn]. now rewrite firstn_take_while.
  - intros pos' c' s' Hc. now apply Hk.
Qed.

(** *** Character classes *)

Lemma space_not_ident_start (c : char) : isspace c = true -> ident_start c = false.
Proof. intros H. disjoint_classes. Qed.

Lemma ident_char_not_space (c : char) : ident_char c = true -> isspace c = false.
Proof. intros H. disjoint_classes. Qed.

Lemma space_not_ident_char (c : char) : isspace c = true -> ident_char c = false.
Proof. intros H. disjoint_classes. Qed.

Lemma ident_start_char (c : char) : ident_start c = true -> ident_char c = true.
Proof.
  intros H. destruct (ident_char c) eqn:E; [reflexivity|]. exfalso.
  unfold ident_start, ident_char in *.
  apply orb_false_iff in E as [E E5]. apply orb_false_iff in E as [E E4].
  apply orb_false_iff in E as [E E3]. apply orb_false_iff in E as [E1 E2].
  rewrite E1, E2, E4, E5 in H. discriminate.
Qed.

Lemma space_not_char (c c0 : char) :
  isspace c0 = false -> isspace c = true -> (c =? c0) = false.
Proof.
  intros H0 H. destruct (N.eqb_spec c c0) as [->|]; [congruence | reflexivity].
Qed.

Lemma ident_char_not_char (c c0 : char) :
  ident_char c0 = false -> ident_char c = true -> (c =? c0) = false.
Proof.
  intros H0 H. destruct (N.eqb_spec c c0) as [->|]; [congruence | reflexivity].
Qed.

Lemma not_rparen_not_close (c : char) :
  not_rparen c = true -> (c =? Json.ch ")") = false.
Proof. unfold not_rparen. now rewrite negb_true_iff. Qed.

(** *** Continuations that reject a class *)

Section Rejects.
Context {A : Type}.
Variable k : nat -> str -> option str -> option A.
Variable p : char -> bool.

Lemma kr_lit (c0 : char) (rs : list regex) :
  p c0 = false ->
  krejects (fun pos s g => run (cat (Lit c0 :: rs)) k pos s g) p.
Proof.
  intros H pos c s g Hc. rewrite run_cat, run_lit. cbn [expect].
  destruct (N.eqb_spec c c0) as [->|]; [congruence | reflexivity].
Qed.

Lemma kr_word (c0 : char) (w : str) (rs : list regex) :
  p c0 = false ->
  krejects (fun pos s g => run (cat (word (c0 :: w) :: rs)) k pos s g) p.
Proof.
  intros H pos c s g Hc. rewrite run_cat, run_word. cbn [expect_word expect].
  destruct (N.eqb_spec c c0) as [->|]; [congruence | reflexivity].
Qed.

Lemma kr_ident (rs : list regex) :
  (forall c, p c = true -> ident_start c = false) ->
  krejects (fun pos s g => run (cat (ident :: rs)) k pos s g) p.
Proof.
  intros H pos c s g Hc. rewrite run_cat. unfold ident. cbn [run].
  now rewrite (H c Hc).
Qed.

Lemma kr_star_lit (q : char -> bool) (c0 : char) (rs : list regex) :
  (forall c, p c = true -> q c = false) -> p c0 = false ->
  krejects (fun pos s g => run (cat (Star q :: Lit c0 :: rs)) k pos s g) p.
Proof.
  intros Hq H pos c s g Hc. rewrite run_cat. cbn [run star].
  rewrite (Hq c Hc). now apply kr_lit.
Qed.

Lemma kr_final (c0 : char) :
  p c0 = false -> krejects (fun pos s g => run (Lit c0) k pos s g) p.
Proof.
  intros H pos c s g Hc. rewrite run_lit. cbn [expect].
  destruct (N.eqb_spec c c0) as [->|]; [congruence | reflexivity].
Qed.

End Rejects.

Lemma run_plus {A} (p : char -> bool) (k : nat -> str -> option str -> option A)
    (pos : nat) (s : str) (g : option str) :
  krejects k p ->
  run (plus p) k pos s g
  = match s with
    | c :: s' =>
        if p c
        then k (S pos + List.length (take_while p s'))%nat (drop_while p s') g
        else None
    | [] => None
    end.
Proof.
  intros Hk. unfold plus. cbn [run]. destruct s as [|c s]; [reflexivity|].
  destruct (p c); [|reflexivity].
  apply (star_greedy p (fun pos' s' => k pos' s' g)).
  intros pos' c' s' Hc. now apply Hk.
Qed.

(** *** Search with an anchored pattern *)

Lemma match_at_bol (rs : list regex) (pos : nat) (s : str) :
  match_at (cat (Bol :: rs)) (S pos) s = None.
Proof. unfold match_at. now rewrite run_cat. Qed.

Lemma search_from_bol (rs : list regex) (pos : nat) (s : str) :
  search_from (cat (Bol :: rs)) (S pos) s = None.
Proof.
  revert pos. induction s as [|c s IH]; intros pos; cbn [search_from];
    rewrite match_at_bol; [reflexivity | apply IH].
Qed.

Lemma search_bol (rs : list regex) (s : str) :
  search (cat (Bol :: rs)) s
  = run (cat rs) (fun _ _ g => Some (Match g)) 0 s None.
Proof.
  unfold search. destruct s as [|c s]; cbn [search_from]; unfold match_at;
    rewrite run_cat; cbn [run Nat.eqb];
    match goal with
    | |- match ?x with _ => _ end = _ => destruct x; try reflexivity
    end.
  apply search_from_bol.
Qed.

(** *** The four shapes as scanners *)

Lemma run_tail (pos : nat) (s : str) (g : option str) :
  run (cat (ws :: params_brace)) final pos s g
  = if lex_tail s then Some (Match g) else None.
Proof.
  unfold params_brace, lex_tail, lex_ws, ws.
  rewrite run_cat, run_star by (apply kr_lit; reflexivity).
  rewrite run_cat, run_lit.
  destruct (expect (Json.ch "(") (drop_while isspace s)) as [s1|]; [|reflexivity].
  rewrite run_cat, run_star
    by (apply kr_lit; unfold not_rparen; now rewrite N.eqb_refl).
  rewrite run_cat, run_lit.
  destruct (expect (Json.ch ")") (drop_while not_rparen s1)) as [s2|]; [|reflexivity].
  rewrite run_cat, run_star by (apply (kr_final final isspace); reflexivity).
  cbn [cat]. rewrite run_lit.
  destruct (expect (Json.ch "{") (drop_while isspace s2)); reflexivity.
Qed.

Lemma kr_tail (p : char -> bool) :
  (forall c, p c = true -> isspace c = false) -> p (Json.ch "(") = false ->
  krejects (fun pos s g => run (cat (ws :: params_brace)) final pos s g) p.
Proof. intros H1 H2. now apply kr_star_lit. Qed.

Lemma run_call (pos : nat) (s : str) (g : option str) :
  run (cat (ident :: ws :: params_brace)) final pos s g = found (lex_call s).
Proof.
  unfold lex_call. rewrite run_cat, run_ident.
  - destruct (lex_ident s) as [[nm s1]|]; [|reflexivity].
    rewrite run_tail. now destruct (lex_tail s1).
  - apply kr_tail; [apply ident_char_not_space | reflexivity].
Qed.

Lemma kr_call (p : char -> bool) :
  (forall c, p c = true -> ident_start c = false) ->
  krejects (fun pos s g => run (cat (ident :: ws :: params_brace)) final pos s g) p.
Proof. intros H. now apply kr_ident. Qed.

Lemma run_keyword_call (c0 : char) (kw : str) (pos : nat) (s : str) (g : option str) :
  run (cat (word (c0 :: kw) :: ws1 :: ident :: ws :: params_brace)) final pos s g
  = found (lex_keyword_call (c0 :: kw) s).
Proof.
  unfold lex_keyword_call, lex_ws1, ws1. rewrite run_cat, run_word.
  destruct (expect_word (c0 :: kw) s) as [s1|]; [|reflexivity].
  rewrite run_cat, run_plus by (apply kr_call; apply space_not_ident_start).
  destruct s1 as [|c s1]; [reflexivity|].
  destruct (isspace c); [|reflexivity].
  apply run_call.
Qed.

Lemma search_method (line : str) : search pat_method line = found (lex_method line).
Proof.
  unfold pat_method, lex_method, lex_ws. cbn [app]. rewrite search_bol.
  unfold ws at 1.
  rewrite run_cat, run_star by (apply kr_call; apply space_not_ident_start).
  apply run_call.
Qed.

Lemma search_function (line : str) :
  search pat_function line = found (lex_function line).
Proof.
  unfold pat_function, lex_function, lex_ws. cbn [app]. rewrite search_bol.
  unfold ws at 1. change (lit "function") with (Json.ch "f" :: lit "unction").
  rewrite run_cat, run_star by (apply kr_word; reflexivity).
  apply run_keyword_call.
Qed.

Lemma run_async_call (pos : nat) (s : str) (g : option str) :
  run (cat (Opt (Seq (word (lit "async")) ws1) :: ident :: ws :: params_brace))
      final pos s g
  = found (match lex_keyword_call (lit "async") s with
           | Some nm => Some nm
           | None => lex_call s
           end).
Proof.
  transitivity
    (match run (cat (word (Json.ch "a" :: lit "sync")
                     :: ws1 :: ident :: ws :: params_brace)) final pos s g with
     | Some x => Some x
     | None => run (cat (ident :: ws :: params_brace)) final pos s g
     end); [reflexivity|].
  rewrite run_keyword_call, run_call.
  change (Json.ch "a" :: lit "sync") with (lit "async").
  destruct (lex_keyword_call (lit "async") s); reflexivity.
Qed.

Lemma kr_async_call :
  krejects
    (fun pos s g =>
       run (cat (Opt (Seq (word (lit "async")) ws1) :: ident :: ws :: params_brace))
           final pos s g)
    isspace.
Proof.
  intros pos c s g Hc. rewrite run_async_call.
  unfold lex_keyword_call, lex_call, lex_ident.
  change (lit "async") with (Json.ch "a" :: lit "sync"). cbn [expect_word expect].
  destruct (N.eqb_spec c (Json.ch "a")) as [->|]; [discriminate Hc|].
  now rewrite (space_not_ident_start c Hc).
Qed.

Lemma search_async (line : str) : search pat_async line = found (lex_async line).
Proof.
  unfold pat_async, lex_async, lex_ws. cbn [app]. rewrite search_bol.
  unfold ws at 1.
  rewrite run_cat, run_star by exact kr_async_call.
  apply run_async_call.
Qed.

Lemma search_arrow (line : str) : search pat_arrow line = found (lex_arrow line).
Proof.
  unfold pat_arrow, lex_arrow, lex_ws, ws. rewrite search_bol.
  rewrite run_cat, run_star by (apply kr_ident; apply space_not_ident_start).
  rewrite run_cat, run_ident
    by (apply kr_star_lit; [apply ident_char_not_space | reflexivity]).
  destruct (lex_ident (drop_while isspace line)) as [[nm s1]|]; [|reflexivity].
  rewrite run_cat, run_star by (apply kr_lit; reflexivity).
  rewrite run_cat, run_lit.
  destruct (expect (Json.ch "=") (drop_while isspace s1)) as [s2|]; [|reflexivity].
  rewrite run_cat, run_star by (apply kr_lit; reflexivity).
  rewrite run_cat, run_lit.
  destruct (expect (Json.ch "(") (drop_while isspace s2)) as [s3|]; [|reflexivity].
  rewrite run_cat, run_star
    by (apply kr_lit; unfold not_rparen; now rewrite N.eqb_refl).
  rewrite run_cat, run_lit.
  destruct (expect (Json.ch ")") (drop_while not_rparen s3)) as [s4|]; [|reflexivity].
  change (lit "=>") with (Json.ch "=" :: lit ">").
  rewrite run_cat, run_star by (apply kr_word; reflexivity).
  rewrite run_cat, run_word.
  destruct (expect_word (Json.ch "=" :: lit ">") (drop_while isspace s4)) as [s5|];
    [|reflexivity].
  rewrite run_cat, run_star by (apply (kr_final final isspace); reflexivity).
  cbn [cat]. rewrite run_lit.
  destruct (expect (Json.ch "{") (drop_while isspace s5)); reflexivity.
Qed.

(** Every match of one of the four patterns carries group 1. *)
Lemma patterns_capture (p : regex) (line : str) (m : match_obj) :
  In p Gen.patterns -> search p line = Some m -> exists nm, group1 m = Some nm.
Proof.
  intros Hp Hs.
  assert (F : exists r, search p line = found r).
  { destruct Hp as [<-|[<-|[<-|[<-|[]]]]]; eexists;
      [apply search_method | apply search_function | apply search_arrow
      | apply search_async]. }
  destruct F as [[nm|] F]; rewrite F in Hs; [|discriminate].
  injection Hs as <-. now exists nm.
Qed.

(** *** The shapes exclude one another *)

Lemma expect_cons (c : char) (s r : str) : expect c s = Some r -> s = c :: r.
Proof.
  destruct s as [|c' s]; simpl; [discriminate|].
  destruct (N.eqb_spec c' c) as [->|]; [now intros [= ->] | discriminate].
Qed.

Lemma expect_word_app (w s r : str) : expect_word w s = Some r -> s = w ++ r.
Proof.
  revert s. induction w as [|c w IH]; intros s; cbn [expect_word].
  - now intros [= ->].
  - destruct (expect c s) as [s'|] eqn:E; [|discriminate].
    intros H. apply expect_cons in E. apply IH in H. now subst.
Qed.

Lemma take_while_prefix (p : char -> bool) (pre : str) (w : char) (t : str) :
  forallb p pre = true -> p w = false ->
  take_while p (pre ++ w :: t) = pre /\ drop_while p (pre ++ w :: t) = w :: t.
Proof.
  intros Hp Hw. induction pre as [|c pre IH]; simpl.
  - now rewrite Hw.
  - simpl in Hp. apply andb_true_iff in Hp as [Hc Hp]. rewrite Hc.
    destruct (IH Hp) as [-> ->]. now split.
Qed.

Lemma lex_ident_head (s nm s1 : str) :
  lex_ident s = Some (nm, s1) -> exists c r, s = c :: r /\ ident_start c = true.
Proof.
  destruct s as [|c r]; simpl; [discriminate|].
  destruct (ident_start c) eqn:E; [|discriminate]. intros _. now exists c, r.
Qed.

Lemma ident_start_not_char (c c0 : char) :
  ident_char c0 = false -> ident_start c = true -> (c =? c0) = false.
Proof.
  intros H0 H. apply ident_char_not_char; [exact H0 | now apply ident_start_char].
Qed.

(** Where a keyword, whitespace and a call are read, the keyword is itself
    the identifier, and what follows it is neither a parameter list nor an
    equals sign. *)
Lemma keyword_call_shape (kw s c : str) :
  ident_word kw -> lex_keyword_call kw s = Some c ->
  exists s1,
    lex_ident s = Some (kw, s1) /\ lex_tail s1 = false
    /\ expect (Json.ch "=") (lex_ws s1) = None.
Proof.
  intros Hkw H. unfold lex_keyword_call in H.
  destruct (expect_word kw s) as [s1|] eqn:E1; [|discriminate].
  apply expect_word_app in E1. subst s.
  destruct s1 as [|w t]; [discriminate|]. cbn [lex_ws1] in H.
  destruct (isspace w) eqn:Ew; [|discriminate].
  unfold lex_call in H.
  destruct (lex_ident (drop_while isspace t)) as [[nm s2]|] eqn:E2; [|discriminate].
  apply lex_ident_head in E2 as (c0 & r & E2 & Hc0).
  exists (w :: t).
  assert (Hws : lex_ws (w :: t) = c0 :: r).
  { unfold lex_ws. cbn [drop_while]. now rewrite Ew. }
  destruct kw as [|k0 kw']; [destruct Hkw|]. destruct Hkw as [Hk0 Hkw'].
  destruct (take_while_prefix ident_char kw' w t Hkw' (space_not_ident_char w Ew))
    as [T D].
  repeat split.
  - cbn [app lex_ident]. now rewrite Hk0, T, D.
  - unfold lex_tail. rewrite Hws. cbn [expect].
    now rewrite (ident_start_not_char c0 (Json.ch "(") eq_refl Hc0).
  - rewrite Hws. cbn [expect].
    now rewrite (ident_start_not_char c0 (Json.ch "=") eq_refl Hc0).
Qed.

Lemma keyword_call_not_call (kw s c : str) :
  ident_word kw -> lex_keyword_call kw s = Some c -> lex_call s = None.
Proof.
  intros Hkw H. destruct (keyword_call_shape kw s c Hkw H) as (s1 & E & Ht & _).
  unfold lex_call. now rewrite E, Ht.
Qed.

Lemma function_word : ident_word (lit "function").
Proof. split; reflexivity. Qed.

Lemma async_word : ident_word (lit "async").
Proof. split; reflexivity. Qed.

Lemma function_not_method (line c : str) :
  lex_function line = Some c -> lex_method line = None.
Proof. apply keyword_call_not_call, function_word. Qed.

Lemma function_not_arrow (line c : str) :
  lex_function line = Some c -> lex_arrow line = None.
Proof.
  intros H. destruct (keyword_call_shape _ _ c function_word H) as (s1 & E & _ & He).
  unfold lex_arrow. now rewrite E, He.
Qed.

Lemma function_not_async (line c : str) :
  lex_function line = Some c -> lex_async line = None.
Proof.
  intros H. unfold lex_async.
  rewrite (keyword_call_not_call _ _ c function_word H).
  unfold lex_function, lex_keyword_call in H.
  destruct (expect_word (lit "function") (lex_ws line)) as [s1|] eqn:E; [|discriminate].
  apply expect_word_app in E. rewrite E. reflexivity.
Qed.

Lemma method_not_arrow (line c : str) :
  lex_method line = Some c -> lex_arrow line = None.
Proof.
  unfold lex_method, lex_call, lex_arrow, lex_tail. intros H.
  destruct (lex_ident (lex_ws line)) as [[nm s1]|]; [|reflexivity].
  destruct (expect (Json.ch "(") (lex_ws s1)) as [s2|] eqn:E; [|discriminate].
  apply expect_cons in E. now rewrite E.
Qed.

Lemma arrow_not_async (line c : str) :
  lex_arrow line = Some c -> lex_async line = None.
Proof.
  intros H. unfold lex_async.
  unfold lex_arrow in H.
  destruct (lex_ident (lex_ws line)) as [[nm s1]|] eqn:E1; [|discriminate].
  destruct (expect (Json.ch "=") (lex_ws s1)) as [s2|] eqn:E2; [|discriminate].
  destruct (lex_keyword_call (lit "async") (lex_ws line)) as [c'|] eqn:K.
  - destruct (keyword_call_shape _ _ c' async_word K) as (s1' & E & _ & He).
    rewrite E1 in E. injection E as _ <-. congruence.
  - unfold lex_call, lex_tail. rewrite E1.
    apply expect_cons in E2. now rewrite E2.
Qed.

Lemma method_async_same (line c : str) :
  lex_method line = Some c -> lex_async line = Some c.
Proof.
  intros H. unfold lex_async.
  destruct (lex_keyword_call (lit "async") (lex_ws line)) as [c'|] eqn:K;
    [|exact H].
  pose proof (keyword_call_not_call _ _ c' async_word K) as N.
  unfold lex_method in H. congruence.
Qed.

(** *** The pattern loop *)

Lemma try_patterns_spec (pats : list regex) (line : str) (idx : nat) :
  match try_patterns idx pats line with
  | (log, Some nm) =>
      exists k p,
        nth_error pats k = Some p /\ log = seq idx (S k)
        /\ search p line = Some (Match (Some nm)) /\ mem nm stoplist = false
        /\ forall j q, (j < k)%nat -> nth_error pats j = Some q -> passed_over q line
  | (log, None) =>
      log = seq idx (List.length pats) /\ forall q, In q pats -> passed_over q line
  end.
Proof.
  revert idx. induction pats as [|p pats IH]; intros idx.
  - simpl. split; [reflexivity | tauto].
  - rewrite try_patterns_cons. cbv zeta. specialize (IH (S idx)).
    assert (Next : passed_over p line ->
              match (let (log, r) := try_patterns (S idx) pats line in (idx :: log, r)) with
              | (log, Some nm) =>
                  exists k p0,
                    nth_error (p :: pats) k = Some p0 /\ log = seq idx (S k)
                    /\ search p0 line = Some (Match (Some nm))
                    /\ mem nm stoplist = false
                    /\ forall j q, (j < k)%nat -> nth_error (p :: pats) j = Some q ->
                                   passed_over q line
              | (log, None) =>
                  log = seq idx (List.length (p :: pats))
                  /\ forall q, In q (p :: pats) -> passed_over q line
              end).
    { intros Hp. destruct (try_patterns (S idx) pats line) as [log [nm|]].
      - destruct IH as (k & q & H1 & H2 & H3 & H4 & H5).
        exists (S k), q. repeat split; try assumption.
        + rewrite H2. reflexivity.
        + intros [|j] q' Hj Hq'; simpl in Hq'.
          * now injection Hq' as <-.
          * apply (H5 j q'); [lia | assumption].
      - destruct IH as [H1 H2]. split.
        + rewrite H1. reflexivity.
        + intros q [<-|Hq]; [assumption | now apply H2]. }
    unfold passed_over in Next.
    destruct (search p line) as [[g]|] eqn:Es; [|now apply Next].
    cbn [group1] in *. destruct g as [fname|]; [|now apply Next].
    destruct (mem fname stoplist) eqn:Em; [now apply Next|].
    exists 0%nat, p. repeat split; try assumption.
    intros j q Hj. lia.
Qed.

Lemma found_inv (r : option str) (nm : str) :
  found r = Some (Match (Some nm)) -> r = Some nm.
Proof. destruct r; simpl; [now intros [= ->] | discriminate]. Qed.

(** A pattern that matched before another one matches the line cannot have
    been passed over: if it captured a keyword, the later one does not
    match, or captures the same keyword. *)
Lemma earlier_did_not_match (j k : nat) (q p : regex) (line nm : str) :
  (j < k)%nat -> nth_error Gen.patterns j = Some q -> nth_error Gen.patterns k = Some p ->
  search p line = Some (Match (Some nm)) -> mem nm stoplist = false ->
  passed_over q line -> search q line = None.
Proof.
  intros Hjk Hq Hp Hs Hm Hpass.
  destruct (search q line) as [m|] eqn:Eq; [exfalso | reflexivity].
  assert (Hin : In q Gen.patterns) by (eapply nth_error_In; eassumption).
  destruct (patterns_capture q line m Hin Eq) as [kw Hkw].
  unfold passed_over in Hpass. rewrite Eq, Hkw in Hpass.
  destruct m as [g]. cbn [group1] in Hkw. subst g.
  destruct k as [|[|[|[|k]]]]; try (destruct k; discriminate Hp);
    destruct j as [|[|[|j]]]; try lia;
    cbn [nth_error Gen.patterns] in Hq, Hp;
    injection Hq as <-; injection Hp as <-;
    first [rewrite search_method in Eq | rewrite search_function in Eq
          | rewrite search_arrow in Eq | rewrite search_async in Eq];
    first [rewrite search_method in Hs | rewrite search_function in Hs
          | rewrite search_arrow in Hs | rewrite search_async in Hs];
    apply found_inv in Eq; apply found_inv in Hs.
  - rewrite (function_not_method line nm Hs) in Eq. discriminate.
  - rewrite (method_not_arrow line kw Eq) in Hs. discriminate.
  - rewrite (function_not_arrow line kw Eq) in Hs. discriminate.
  - rewrite (method_async_same line kw Eq) in Hs. congruence.
  - rewrite (function_not_async line kw Eq) in Hs. discriminate.
  - rewrite (arrow_not_async line kw Eq) in Hs. discriminate.
Qed.

Lemma scan_lines_lines (fp : str) (lines : list str) (rest : list str) (i : nat) :
  forall e, In e (scan_lines fp lines i rest) -> (Z.of_nat i < line e)%Z.
Proof.
  intros e H. apply scan_lines_In in H as (j & ln & _ & H).
  unfold entry_at in H.
  destruct (snd (try_patterns 0 Gen.patterns ln)); [|destruct H].
  destruct H as [<-|[]]. simpl. lia.
Qed.

Lemma scan_lines_NoDup (fp : str) (lines : list str) (rest : list str) (i : nat) :
  NoDup (map line (scan_lines fp lines i rest)).
Proof.
  revert i. induction rest as [|ln rest IH]; intros i; [constructor|].
  rewrite scan_lines_cons. unfold entry_at.
  destruct (snd (try_patterns 0 Gen.patterns ln)); [|apply IH].
  cbn [app map line]. constructor; [|apply IH].
  intros H. apply in_map_iff in H as (e & He & Hin).
  apply scan_lines_lines in Hin. lia.
Qed.

(** C4, as amended. On every line the four patterns are tried in their
    fixed order. A pattern that matches with an identifier that is not on
    the stoplist wins: its entry is appended and no later pattern is tried;
    it is the first pattern that matches the line at all. A pattern that
    matches with a keyword of the stoplist is passed over and the next
    pattern is tried; when that happens no pattern wins and all four are
    tried. Every entry of a file comes from one line, is named by the
    capture of that line's winner, and no two entries of a file have the
    same line number: a line gives at most one entry. *)
Theorem matchers_in_priority_order (line : str) :
  (let (log, r) := try_patterns 0 Gen.patterns line in
   match r with
   | Some nm =>
       exists k p,
         nth_error Gen.patterns k = Some p /\ log = seq 0 (S k)
         /\ search p line = Some (Match (Some nm)) /\ ~ In nm stoplist
         /\ forall j q, (j < k)%nat -> nth_error Gen.patterns j = Some q ->
                        search q line = None
   | None =>
       log = [0; 1; 2; 3]%nat
       /\ forall q, In q Gen.patterns ->
                    search q line = None
                    \/ exists kw, search q line = Some (Match (Some kw))
                                  /\ In kw stoplist
   end)
  /\ (forall fp content e,
         In e (extract_functions fp content) ->
         exists i ln,
           nth_error (split (Json.ch "010") content) i = Some ln
           /\ Gen.line e = (Z.of_nat i + 1)%Z
           /\ snd (try_patterns 0 Gen.patterns ln) = Some (name e))
  /\ (forall fp content, NoDup (map Gen.line (extract_functions fp content))).
Proof.
  split; [|split; [|intros; apply scan_lines_NoDup]].
  2:{ intros fp content e He.
      destruct (entry_origin fp content e He) as (i & ln & H1 & H2 & H3 & _).
      now exists i, ln. }
  pose proof (try_patterns_spec Gen.patterns line 0) as H.
  destruct (try_patterns 0 Gen.patterns line) as [log [nm|]].
  - destruct H as (k & p & H1 & H2 & H3 & H4 & H5).
    exists k, p. repeat split; try assumption.
    + now apply mem_not_In.
    + intros j q Hj Hq.
      exact (earlier_did_not_match j k q p line nm Hj Hq H1 H3 H4 (H5 j q Hj Hq)).
  - destruct H as [H1 H2]. split; [exact H1|].
    intros q Hq. specialize (H2 q Hq). unfold passed_over in H2.
    destruct (search q line) as [m|] eqn:E; [right | now left].
    destruct (patterns_capture q line m Hq E) as [kw Hkw].
    rewrite Hkw in H2. exists kw. destruct m as [g]. cbn [group1] in Hkw. subst g.
    split; [reflexivity | now apply mem_In].
Qed.

(** C4 as stated fails on a line that a pattern matches with a keyword:
    the first pattern matches [if (ready) {], and the three others are
    tried after it all the same. *)
Lemma matchers_counterexample :
  let line := lit "if (ready) {" in
  search pat_method line = Some (Match (Some (lit "if")))
  /\ fst (try_patterns 0 Gen.patterns line) = [0; 1; 2; 3]%nat
  /\ fst (try_patterns 0 Gen.patterns line) <> [0%nat].
Proof.
  vm_compute. repeat split; discriminate.
Qed.

(** ** Which lines are declarations *)

Lemma take_drop_while (p : char -> bool) (s : str) :
  take_while p s ++ drop_while p s = s.
Proof.
  induction s as [|c s IH]; [reflexivity|].
  cbn. destruct (p c); [cbn; now rewrite IH | reflexivity].
Qed.

Lemma take_while_all (p : char -> bool) (s : str) :
  forallb p (take_while p s) = true.
Proof.
  induction s as [|c s IH]; [reflexivity|].
  cbn. destruct (p c) eqn:E; [cbn; now rewrite E | reflexivity].
Qed.

Lemma drop_while_all (p : char -> bool) (s : str) :
  forallb p s = true -> drop_while p s = [].
Proof.
  induction s as [|c s IH]; [reflexivity|].
  cbn. destruct (p c); [exact IH | discriminate].
Qed.

Lemma drop_while_stop (p : char -> bool) (s : str) :
  match drop_while p s with
  | [] => True
  | c :: _ => p c = false
  end.
Proof.
  induction s as [|c s IH]; [exact I|].
  cbn. destruct (p c) eqn:E; [exact IH | exact E].
Qed.

Lemma lex_ws_split (line : str) :
  blank (take_while isspace line) /\ take_while isspace line ++ lex_ws line = line.
Proof. split; [apply take_while_all | apply take_drop_while]. Qed.

Lemma lex_ws_skip (ind : str) (c : char) (r : str) :
  blank ind -> isspace c = false -> lex_ws (ind ++ c :: r) = c :: r.
Proof. intros Hi Hc. now apply take_while_prefix. Qed.

Lemma ident_start_not_space (c : char) : ident_start c = true -> isspace c = false.
Proof.
  intros H. destruct (isspace c) eqn:E; [|reflexivity].
  apply space_not_ident_start in E. congruence.
Qed.

Lemma ident_word_head (nm : str) :
  ident_word nm -> exists c r, nm = c :: r /\ ident_start c = true
                               /\ forallb ident_char r = true.
Proof.
  destruct nm as [|c r]; [intros []|]. intros [H1 H2]. now exists c, r.
Qed.

Lemma lex_ident_word (nm : str) (w : char) (t : str) :
  ident_word nm -> ident_char w = false ->
  lex_ident (nm ++ w :: t) = Some (nm, w :: t).
Proof.
  intros Hn Hw. destruct (ident_word_head nm Hn) as (c & r & -> & Hc & Hr).
  cbn [app lex_ident]. rewrite Hc.
  destruct (take_while_prefix ident_char r w t Hr Hw) as [-> ->]. reflexivity.
Qed.

Lemma lex_ident_inv (s nm s1 : str) :
  lex_ident s = Some (nm, s1) ->
  ident_word nm /\ s = nm ++ s1
  /\ match s1 with [] => True | c :: _ => ident_char c = false end.
Proof.
  destruct s as [|c s]; [discriminate|]. cbn [lex_ident].
  destruct (ident_start c) eqn:Hc; [|discriminate].
  intros H. injection H as <- <-. repeat split.
  - exact Hc.
  - apply take_while_all.
  - cbn [app]. now rewrite take_drop_while.
  - apply drop_while_stop.
Qed.

Lemma expect_here (c : char) (r : str) : expect c (c :: r) = Some r.
Proof. cbn. now rewrite N.eqb_refl. Qed.

Lemma expect_word_here (w r : str) : expect_word w (w ++ r) = Some r.
Proof.
  induction w as [|c w IH]; [reflexivity|].
  cbn [app expect_word]. now rewrite expect_here.
Qed.

(** *** The parameter list and the brace *)

Lemma lex_tail_text (t : str) : tail_text t -> lex_tail t = true.
Proof.
  intros [sp1 ps sp2 rest H1 Hp H2]. unfold lex_tail, call_tail.
  change (lit "(" ++ ?x) with (Json.ch "(" :: x).
  rewrite lex_ws_skip by (exact H1 || reflexivity). rewrite expect_here.
  change (lit ")" ++ ?x) with (Json.ch ")" :: x).
  destruct (take_while_prefix not_rparen ps (Json.ch ")")
              (sp2 ++ lit "{" ++ rest) Hp eq_refl) as [_ ->].
  rewrite expect_here.
  change (lit "{" ++ ?x) with (Json.ch "{" :: x).
  rewrite lex_ws_skip by (exact H2 || reflexivity). now rewrite expect_here.
Qed.

Lemma lex_tail_inv (s : str) : lex_tail s = true -> tail_text s.
Proof.
  unfold lex_tail. intros H.
  destruct (expect (Json.ch "(") (lex_ws s)) as [s1|] eqn:E1; [|discriminate].
  destruct (expect (Json.ch ")") (drop_while not_rparen s1)) as [s2|] eqn:E2;
    [|discriminate].
  destruct (expect (Json.ch "{") (lex_ws s2)) as [s3|] eqn:E3; [|discriminate].
  apply expect_cons in E1, E2, E3.
  destruct (lex_ws_split s) as [B1 S1]. destruct (lex_ws_split s2) as [B2 S2].
  pose proof (take_drop_while not_rparen s1) as S3.
  rewrite E1 in S1. rewrite E3 in S2. rewrite E2 in S3.
  rewrite <- S1, <- S3, <- S2.
  exact (TailText (take_while isspace s) (take_while not_rparen s1)
                  (take_while isspace s2) s3 B1 (take_while_all _ _) B2).
Qed.

(** A tail begins with whitespace or with the opening parenthesis: with no
    identifier character, and with no equals sign. *)
Lemma tail_text_head (t : str) :
  tail_text t ->
  exists c r, t = c :: r /\ ident_char c = false /\ (c =? Json.ch "=") = false
              /\ (isspace c = true \/ c = Json.ch "(").
Proof.
  intros [sp1 ps sp2 rest H1 _ _]. unfold call_tail.
  destruct sp1 as [|c sp1].
  - eexists _, _. split; [reflexivity|]. repeat split; auto.
  - exists c, (sp1 ++ lit "(" ++ ps ++ lit ")" ++ sp2 ++ lit "{" ++ rest).
    split; [reflexivity|]. unfold blank in H1. cbn [forallb] in H1.
    apply andb_true_iff in H1 as [Hc _]. repeat split.
    + now apply space_not_ident_char.
    + now apply space_not_char.
    + now left.
Qed.

Lemma lex_call_shape (nm t : str) :
  ident_word nm -> tail_text t -> lex_call (nm ++ t) = Some nm.
Proof.
  intros Hn Ht. destruct (tail_text_head t Ht) as (c & r & E & Hc & _).
  unfold lex_call. rewrite E, lex_ident_word by assumption.
  rewrite <- E, lex_tail_text by assumption. reflexivity.
Qed.

Lemma lex_call_inv (s nm : str) :
  lex_call s = Some nm -> ident_word nm /\ exists t, tail_text t /\ s = nm ++ t.
Proof.
  unfold lex_call. destruct (lex_ident s) as [[nm' s1]|] eqn:E; [|discriminate].
  destruct (lex_tail s1) eqn:T; [|discriminate]. intros H. injection H as ->.
  apply lex_ident_inv in E as (Hn & -> & _). split; [exact Hn|].
  exists s1. split; [now apply lex_tail_inv | reflexivity].
Qed.

Lemma lex_ws_word (ind nm r : str) :
  blank ind -> ident_word nm -> lex_ws (ind ++ nm ++ r) = nm ++ r.
Proof.
  intros Hi Hn. destruct (ident_word_head nm Hn) as (c & w & -> & Hc & _).
  cbn [app]. apply lex_ws_skip; [exact Hi | now apply ident_start_not_space].
Qed.

Lemma lex_ws1_blank (sp : str) (c : char) (r : str) :
  blank sp -> sp <> [] -> isspace c = false -> lex_ws1 (sp ++ c :: r) = Some (c :: r).
Proof.
  intros Hs Hne Hc. destruct sp as [|s0 sp]; [congruence|].
  unfold blank in Hs. cbn [forallb] in Hs. apply andb_true_iff in Hs as [H0 Hs].
  cbn [app lex_ws1]. rewrite H0.
  now destruct (take_while_prefix isspace sp c r Hs Hc) as [_ ->].
Qed.

Lemma lex_ws1_inv (s r : str) :
  lex_ws1 s = Some r -> exists sp, blank sp /\ sp <> [] /\ s = sp ++ r.
Proof.
  destruct s as [|c s]; [discriminate|]. cbn [lex_ws1].
  destruct (isspace c) eqn:Hc; [|discriminate]. intros H. injection H as <-.
  exists (c :: take_while isspace s). repeat split.
  - unfold blank. cbn [forallb]. now rewrite Hc, take_while_all.
  - discriminate.
  - cbn [app]. now rewrite take_drop_while.
Qed.

Lemma lex_keyword_call_shape (kw sp nm t : str) :
  blank sp -> sp <> [] -> ident_word nm -> tail_text t ->
  lex_keyword_call kw (kw ++ sp ++ nm ++ t) = Some nm.
Proof.
  intros Hs Hne Hn Ht. unfold lex_keyword_call. rewrite expect_word_here.
  destruct (ident_word_head nm Hn) as (c & w & E & Hc & _).
  rewrite E. cbn [app]. rewrite lex_ws1_blank
    by (assumption || now apply ident_start_not_space).
  change (c :: w ++ t) with ((c :: w) ++ t). rewrite <- E.
  now apply lex_call_shape.
Qed.

Lemma lex_keyword_call_inv (kw s nm : str) :
  lex_keyword_call kw s = Some nm ->
  ident_word nm
  /\ exists sp t, blank sp /\ sp <> [] /\ tail_text t /\ s = kw ++ sp ++ nm ++ t.
Proof.
  unfold lex_keyword_call.
  destruct (expect_word kw s) as [s1|] eqn:E1; [|discriminate].
  destruct (lex_ws1 s1) as [s2|] eqn:E2; [|discriminate]. intros H.
  apply expect_word_app in E1. apply lex_ws1_inv in E2 as (sp & Hs & Hne & ->).
  apply lex_call_inv in H as (Hn & t & Ht & ->). split; [exact Hn|].
  now exists sp, t.
Qed.

(** *** The arrow shape *)

Lemma blank_head (sp : str) (c : char) (r : str) :
  blank sp ->
  exists c' r', sp ++ c :: r = c' :: r' /\ (isspace c' = true \/ c' = c).
Proof.
  intros Hs. destruct sp as [|s0 sp].
  - exists c, r. now split; [|right].
  - exists s0, (sp ++ c :: r). split; [reflexivity|]. left.
    unfold blank in Hs. cbn [forallb] in Hs. now apply andb_true_iff in Hs as [H0 _].
Qed.

Lemma lex_arrow_shape (ind nm sp1 sp2 ps sp3 sp4 rest : str) :
  blank ind -> ident_word nm -> blank sp1 -> blank sp2 -> param_text ps ->
  blank sp3 -> blank sp4 ->
  lex_arrow (ind ++ nm ++ sp1 ++ lit "=" ++ sp2 ++ lit "(" ++ ps ++ lit ")"
             ++ sp3 ++ lit "=>" ++ sp4 ++ lit "{" ++ rest)
  = Some nm.
Proof.
  intros Hi Hn H1 H2 Hp H3 H4. unfold lex_arrow.
  rewrite lex_ws_word by assumption.
  change (lit "=" ++ ?x) with (Json.ch "=" :: x).
  destruct (blank_head sp1 (Json.ch "=")
              (sp2 ++ lit "(" ++ ps ++ lit ")" ++ sp3 ++ lit "=>" ++ sp4
               ++ lit "{" ++ rest) H1) as (c & r & E & Hc).
  rewrite E, lex_ident_word; [rewrite <- E | exact Hn |].
  2:{ destruct Hc as [Hc | ->]; [now apply space_not_ident_char | reflexivity]. }
  rewrite lex_ws_skip by (exact H1 || reflexivity). rewrite expect_here.
  change (lit "(" ++ ?x) with (Json.ch "(" :: x).
  rewrite lex_ws_skip by (exact H2 || reflexivity). rewrite expect_here.
  change (lit ")" ++ ?x) with (Json.ch ")" :: x).
  destruct (take_while_prefix not_rparen ps (Json.ch ")")
              (sp3 ++ lit "=>" ++ sp4 ++ lit "{" ++ rest) Hp eq_refl) as [_ ->].
  rewrite expect_here.
  change (lit "=>" ++ ?x) with (Json.ch "=" :: Json.ch ">" :: x).
  rewrite lex_ws_skip by (exact H3 || reflexivity).
  change (Json.ch "=" :: Json.ch ">" :: ?x) with (lit "=>" ++ x).
  rewrite expect_word_here.
  change (lit "{" ++ ?x) with (Json.ch "{" :: x).
  rewrite lex_ws_skip by (exact H4 || reflexivity). now rewrite expect_here.
Qed.

Lemma lex_arrow_inv (line nm : str) :
  lex_arrow line = Some nm -> ident_word nm /\ declares nm line.
Proof.
  unfold lex_arrow. intros H.
  destruct (lex_ident (lex_ws line)) as [[nm' s1]|] eqn:E0; [|discriminate].
  destruct (expect (Json.ch "=") (lex_ws s1)) as [s2|] eqn:E1; [|discriminate].
  destruct (expect (Json.ch "(") (lex_ws s2)) as [s3|] eqn:E2; [|discriminate].
  destruct (expect (Json.ch ")") (drop_while not_rparen s3)) as [s4|] eqn:E3;
    [|discriminate].
  destruct (expect_word (lit "=>") (lex_ws s4)) as [s5|] eqn:E4; [|discriminate].
  destruct (expect (Json.ch "{") (lex_ws s5)) as [s6|] eqn:E5; [|discriminate].
  injection H as ->.
  apply lex_ident_inv in E0 as (Hn & E0 & _). split; [exact Hn|].
  apply expect_cons in E1, E2, E3, E5. apply expect_word_app in E4.
  destruct (lex_ws_split line) as [B0 S0]. destruct (lex_ws_split s1) as [B1 S1].
  destruct (lex_ws_split s2) as [B2 S2]. destruct (lex_ws_split s4) as [B4 S4].
  destruct (lex_ws_split s5) as [B5 S5].
  pose proof (take_drop_while not_rparen s3) as S3.
  rewrite E0 in S0. rewrite E1 in S1. rewrite E2 in S2. rewrite E3 in S3.
  rewrite E4 in S4. rewrite E5 in S5.
  rewrite <- S0, <- S1, <- S2, <- S3, <- S4, <- S5.
  exact (DeclArrow nm (take_while isspace line) (take_while isspace s1)
                   (take_while isspace s2) (take_while not_rparen s3)
                   (take_while isspace s4) (take_while isspace s5) s6
                   B0 B1 B2 (take_while_all _ _) B4 B5).
Qed.

(** *** The loop over the four patterns, on the scanners *)

Lemma snd_logged (i : nat) (x : list nat * option str) :
  snd (let (log, r) := x in (i :: log, r)) = snd x.
Proof. now destruct x. Qed.

Lemma detect_eq (line : str) :
  detect line
  = keep (lex_method line)
      (keep (lex_function line) (keep (lex_arrow line) (keep (lex_async line) None))).
Proof.
  unfold detect, Gen.patterns.
  rewrite !try_patterns_cons, search_method, search_function, search_arrow,
    search_async.
  cbv zeta. unfold keep, found.
  destruct (lex_method line) as [a|]; cbn [option_map group1];
    [destruct (mem a stoplist); [|reflexivity]|];
    rewrite snd_logged;
    (destruct (lex_function line) as [b|]; cbn [option_map group1];
     [destruct (mem b stoplist); [|reflexivity]|]);
    rewrite snd_logged;
    (destruct (lex_arrow line) as [c|]; cbn [option_map group1];
     [destruct (mem c stoplist); [|reflexivity]|]);
    rewrite snd_logged;
    (destruct (lex_async line) as [d|]; cbn [option_map group1];
     [destruct (mem d stoplist); [|reflexivity]|]);
    reflexivity.
Qed.

Lemma keep_inv (r next : option str) (nm : str) :
  keep r next = Some nm ->
  (r = Some nm /\ mem nm stoplist = false) \/ next = Some nm.
Proof.
  unfold keep. destruct r as [a|]; [|now right].
  destruct (mem a stoplist) eqn:E; [now right|].
  intros H. injection H as ->. now left.
Qed.

Lemma lex_none (r : option str) : (forall c, r = Some c -> False) -> r = None.
Proof. destruct r as [c|]; [intros H; destruct (H c eq_refl) | reflexivity]. Qed.

Lemma detect_method (line nm : str) :
  lex_method line = Some nm ->
  detect line = if mem nm stoplist then None else Some nm.
Proof.
  intros H. rewrite detect_eq, H.
  rewrite (lex_none (lex_function line)), (method_not_arrow line nm H),
    (method_async_same line nm H).
  - unfold keep. now destruct (mem nm stoplist).
  - intros c Hc. apply function_not_method in Hc. congruence.
Qed.

Lemma detect_function (line nm : str) :
  lex_function line = Some nm ->
  detect line = if mem nm stoplist then None else Some nm.
Proof.
  intros H.
  rewrite detect_eq, H, (function_not_method line nm H),
    (function_not_arrow line nm H), (function_not_async line nm H).
  unfold keep. now destruct (mem nm stoplist).
Qed.

Lemma detect_arrow (line nm : str) :
  lex_arrow line = Some nm ->
  detect line = if mem nm stoplist then None else Some nm.
Proof.
  intros H. rewrite detect_eq, H, (arrow_not_async line nm H).
  rewrite (lex_none (lex_method line)), (lex_none (lex_function line)).
  - unfold keep. now destruct (mem nm stoplist).
  - intros c Hc. apply function_not_arrow in Hc. congruence.
  - intros c Hc. apply method_not_arrow in Hc. congruence.
Qed.

Lemma detect_async (line nm : str) :
  lex_async line = Some nm -> lex_method line = None ->
  detect line = if mem nm stoplist then None else Some nm.
Proof.
  intros H Hm. rewrite detect_eq, H, Hm.
  rewrite (lex_none (lex_function line)), (lex_none (lex_arrow line)).
  - unfold keep. now destruct (mem nm stoplist).
  - intros c Hc. apply arrow_not_async in Hc. congruence.
  - intros c Hc. apply function_not_async in Hc. congruence.
Qed.

(** X1. A line of one of the four declaration shapes is detected, whatever
    its indentation, the whitespace in it, the text of its parameter list
    (any text without a closing parenthesis) and the text after the opening
    brace: the entry is named by the declared identifier. The one exception
    is an identifier of the stoplist, for which the line gives no entry. *)
Theorem declaration_detected (nm line : str) :
  ident_word nm -> declares nm line ->
  detect line = if mem nm stoplist then None else Some nm.
Proof.
  intros Hn [ind t Hi Ht | ind sp t Hi Hs Hne Ht | ind sp t Hi Hs Hne Ht
            | ind sp1 sp2 ps sp3 sp4 rest Hi H1 H2 Hp H3 H4].
  - apply detect_method. unfold lex_method. rewrite lex_ws_word by assumption.
    now apply lex_call_shape.
  - apply detect_function. unfold lex_function.
    rewrite lex_ws_word by (assumption || apply function_word).
    now apply lex_keyword_call_shape.
  - assert (K : lex_keyword_call (lit "async")
                                   (lex_ws (ind ++ lit "async" ++ sp ++ nm ++ t))
                = Some nm).
    { rewrite lex_ws_word by (assumption || apply async_word).
      now apply lex_keyword_call_shape. }
    apply detect_async.
    + unfold lex_async. now rewrite K.
    + unfold lex_method. exact (keyword_call_not_call _ _ _ async_word K).
  - apply detect_arrow. now apply lex_arrow_shape.
Qed.

Lemma declaration_detected_witness :
  detect (lit "  update(deltaTime) {") = Some (lit "update")
  /\ detect (lit "function spawnEnemy (kind, wave)  { // next wave")
     = Some (lit "spawnEnemy")
  /\ detect (lit "  async loadLevel(id, opts) {") = Some (lit "loadLevel")
  /\ detect (lit "onHit = (target) => {") = Some (lit "onHit")
  /\ detect (lit "    while (queue.length) {") = None.
Proof.
  refine (conj _ (conj _ (conj _ (conj _ _)))).
  - exact (declaration_detected (lit "update") _ (conj eq_refl eq_refl)
             (DeclMethod _ (lit "  ")
                (call_tail [] (lit "deltaTime") (lit " ") []) eq_refl
                (TailText [] (lit "deltaTime") (lit " ") [] eq_refl eq_refl eq_refl))).
  - exact (declaration_detected (lit "spawnEnemy") _ (conj eq_refl eq_refl)
             (DeclFunction _ [] (lit " ")
                (call_tail (lit " ") (lit "kind, wave") (lit "  ") (lit " // next wave"))
                eq_refl eq_refl ltac:(discriminate)
                (TailText (lit " ") (lit "kind, wave") (lit "  ") (lit " // next wave")
                          eq_refl eq_refl eq_refl))).
  - exact (declaration_detected (lit "loadLevel") _ (conj eq_refl eq_refl)
             (DeclAsync _ (lit "  ") (lit " ")
                (call_tail [] (lit "id, opts") (lit " ") [])
                eq_refl eq_refl ltac:(discriminate)
                (TailText [] (lit "id, opts") (lit " ") [] eq_refl eq_refl eq_refl))).
  - exact (declaration_detected (lit "onHit") _ (conj eq_refl eq_refl)
             (DeclArrow _ [] (lit " ") (lit " ") (lit "target") (lit " ") (lit " ") []
                eq_refl eq_refl eq_refl eq_refl eq_refl eq_refl)).
  - exact (declaration_detected (lit "while") _ (conj eq_refl eq_refl)
             (DeclMethod _ (lit "    ")
                (call_tail (lit " ") (lit "queue.length") (lit " ") []) eq_refl
                (TailText (lit " ") (lit "queue.length") (lit " ") []
                          eq_refl eq_refl eq_refl))).
Defined.

Lemma lex_method_inv (line nm : str) :
  lex_method line = Some nm -> ident_word nm /\ declares nm line.
Proof.
  unfold lex_method. intros H. apply lex_call_inv in H as (Hn & t & Ht & E).
  split; [exact Hn|]. destruct (lex_ws_split line) as [B S].
  rewrite <- S, E. now apply DeclMethod.
Qed.

Lemma lex_function_inv (line nm : str) :
  lex_function line = Some nm -> ident_word nm /\ declares nm line.
Proof.
  unfold lex_function. intros H.
  apply lex_keyword_call_inv in H as (Hn & sp & t & Hs & Hne & Ht & E).
  split; [exact Hn|]. destruct (lex_ws_split line) as [B S].
  rewrite <- S, E. now apply DeclFunction.
Qed.

Lemma lex_async_inv (line nm : str) :
  lex_async line = Some nm -> ident_word nm /\ declares nm line.
Proof.
  unfold lex_async.
  destruct (lex_keyword_call (lit "async") (lex_ws line)) as [a|] eqn:K.
  - intros H. injection H as ->.
    apply lex_keyword_call_inv in K as (Hn & sp & t & Hs & Hne & Ht & E).
    split; [exact Hn|]. destruct (lex_ws_split line) as [B S].
    rewrite <- S, E. now apply DeclAsync.
  - apply lex_method_inv.
Qed.

(** X2. A line gives an entry only if it is a declaration: the name of the
    entry is an identifier (a letter, an underscore or a dollar sign, then
    letters, digits, underscores and dollar signs), it is no keyword of the
    stoplist, and the line has one of the four declaration shapes for that
    name. *)
Theorem detected_is_declaration (line nm : str) :
  detect line = Some nm ->
  ident_word nm /\ ~ In nm stoplist /\ declares nm line.
Proof.
  rewrite detect_eq. intros H.
  assert (K : exists r, r = Some nm /\ mem nm stoplist = false
                        /\ (r = lex_method line \/ r = lex_function line
                            \/ r = lex_arrow line \/ r = lex_async line)).
  { apply keep_inv in H as [[E S]|H]; [exists (lex_method line); auto|].
    apply keep_inv in H as [[E S]|H]; [exists (lex_function line); auto|].
    apply keep_inv in H as [[E S]|H]; [exists (lex_arrow line); auto 6|].
    apply keep_inv in H as [[E S]|H]; [exists (lex_async line); auto 6|].
    discriminate. }
  destruct K as (r & E & S & W). apply mem_not_In in S.
  assert (D : ident_word nm /\ declares nm line).
  { destruct W as [-> | [-> | [-> | ->]]].
    - now apply lex_method_inv.
    - now apply lex_function_inv.
    - now apply lex_arrow_inv.
    - now apply lex_async_inv. }
  destruct D as [Hn D]. now repeat split.
Qed.

Lemma detected_is_declaration_witness :
  ident_word (lit "render") /\ ~ In (lit "render") stoplist
  /\ declares (lit "render") (lit "render = (ctx) => {").
Proof.
  apply (detected_is_declaration (lit "render = (ctx) => {") (lit "render")).
  vm_compute. reflexivity.
Defined.

(** *** Lines that are no declaration *)

Lemma detect_no_ident (line : str) :
  lex_ident (lex_ws line) = None ->
  match lex_ws line with
  | [] => True
  | c :: _ => ident_start c = false
  end ->
  detect line = None.
Proof.
  intros Hi Hc. rewrite detect_eq.
  assert (Hk : forall c0 kw, ident_start c0 = true ->
                 lex_keyword_call (c0 :: kw) (lex_ws line) = None).
  { intros c0 kw H0. unfold lex_keyword_call.
    destruct (lex_ws line) as [|c r]; [reflexivity|].
    cbn [expect_word expect]. destruct (c =? c0) eqn:E; [|reflexivity].
    apply N.eqb_eq in E. congruence. }
  unfold lex_method, lex_function, lex_arrow, lex_async, lex_call.
  change (lit "function") with (Json.ch "f" :: lit "unction").
  change (lit "async") with (Json.ch "a" :: lit "sync").
  rewrite Hi, !Hk by reflexivity. reflexivity.
Qed.

(** X3. Lines that never give an entry: a blank line; a line whose first
    character after the indentation cannot begin an identifier (a comment
    line, a closing brace, a digit, a quote); and a line on which a word
    other than [function] and [async] is followed by whitespace and another
    word, as in [const f = () => {], [export function f() {] or
    [static f() {]. *)
Theorem never_detected :
  (forall line, blank line -> detect line = None)
  /\ (forall ind c rest,
         blank ind -> isspace c = false -> ident_start c = false ->
         detect (ind ++ c :: rest) = None)
  /\ (forall ind kw sp c rest,
         blank ind -> ident_word kw -> blank sp -> sp <> [] ->
         ident_start c = true ->
         kw <> lit "function" -> kw <> lit "async" ->
         detect (ind ++ kw ++ sp ++ c :: rest) = None).
Proof.
  split; [|split].
  - intros line Hb. apply detect_no_ident;
      unfold lex_ws; now rewrite (drop_while_all isspace line Hb).
  - intros ind c rest Hi Hs Hc. apply detect_no_ident;
      rewrite lex_ws_skip by assumption; [cbn [lex_ident]; now rewrite Hc | exact Hc].
  - intros ind kw sp c rest Hi Hk Hs Hne Hc Hf Ha.
    pose proof (ident_start_not_space c Hc) as Hsc.
    assert (W : lex_ws (ind ++ kw ++ sp ++ c :: rest) = kw ++ sp ++ c :: rest)
      by now apply lex_ws_word.
    assert (I : lex_ident (kw ++ sp ++ c :: rest) = Some (kw, sp ++ c :: rest)).
    { destruct sp as [|s0 sp]; [congruence|]. cbn [app].
      apply lex_ident_word; [exact Hk|]. apply space_not_ident_char.
      unfold blank in Hs. cbn [forallb] in Hs. now apply andb_true_iff in Hs as [H0 _]. }
    assert (S : lex_ws (sp ++ c :: rest) = c :: rest) by now apply lex_ws_skip.
    assert (K : forall w, ident_word w -> w <> kw ->
                  lex_keyword_call w (kw ++ sp ++ c :: rest) = None).
    { intros w Hw Hd. apply lex_none. intros x Hx.
      destruct (keyword_call_shape w _ x Hw Hx) as (s1 & I' & _).
      rewrite I in I'. congruence. }
    rewrite detect_eq. unfold lex_method, lex_function, lex_arrow, lex_async, lex_call.
    rewrite W, I, !K by (apply function_word || apply async_word || congruence).
    unfold lex_tail. rewrite S. cbn [expect].
    rewrite (ident_start_not_char c (Json.ch "(")), (ident_start_not_char c (Json.ch "="))
      by (assumption || reflexivity).
    reflexivity.
Qed.

Lemma never_detected_witness :
  detect (lit "   ") = None
  /\ detect (lit "  // update() {") = None
  /\ detect (lit "const update = (dt) => {") = None
  /\ detect (lit "export function update(dt) {") = None.
Proof.
  destruct never_detected as (H1 & H2 & H3).
  refine (conj _ (conj _ (conj _ _))).
  - exact (H1 (lit "   ") eq_refl).
  - exact (H2 (lit "  ") (Json.ch "/") (lit "/ update() {") eq_refl eq_refl eq_refl).
  - exact (H3 [] (lit "const") (lit " ") (Json.ch "u") (lit "pdate = (dt) => {")
              eq_refl (conj eq_refl eq_refl) eq_refl ltac:(discriminate) eq_refl
              ltac:(discriminate) ltac:(discriminate)).
  - exact (H3 [] (lit "export") (lit " ") (Json.ch "f") (lit "unction update(dt) {")
              eq_refl (conj eq_refl eq_refl) eq_refl ltac:(discriminate) eq_refl
              ltac:(discriminate) ltac:(discriminate)).
Defined.

(** ** The entries of a file, line by line *)

Lemma entry_at_detect (fp : str) (lines : list str) (i : nat) (ln : str) :
  map (fun e => (name e, line e)) (entry_at fp lines i ln) = declared_at (i, ln).
Proof.
  unfold entry_at, declared_at, detect. cbn [fst snd].
  now destruct (snd (try_patterns 0 Gen.patterns ln)).
Qed.

Lemma scan_lines_declared (fp : str) (lines rest : list str) (i : nat) :
  map (fun e => (name e, line e)) (scan_lines fp lines i rest)
  = flat_map declared_at (combine (seq i (List.length rest)) rest).
Proof.
  revert i. induction rest as [|ln rest IH]; intros i; [reflexivity|].
  rewrite scan_lines_cons, map_app, entry_at_detect, IH. reflexivity.
Qed.

Lemma scan_lines_bounds (fp : str) (lines rest : list str) (i : nat) :
  Forall (fun e => file e = fp
                   /\ (Z.of_nat i + 1 <= line e <= Z.of_nat (i + List.length rest))%Z)
         (scan_lines fp lines i rest).
Proof.
  revert i. induction rest as [|ln rest IH]; intros i; [constructor|].
  rewrite scan_lines_cons. apply Forall_app. split.
  - unfold entry_at. destruct (snd (try_patterns 0 Gen.patterns ln)); constructor.
    + cbn [file line List.length]. split; [reflexivity | lia].
    + constructor.
  - eapply Forall_impl; [|apply (IH (S i))]. cbn [List.length].
    intros e [Hf Hl]. split; [exact Hf | lia].
Qed.

Lemma scan_lines_sorted (fp : str) (lines rest : list str) (i : nat) :
  StronglySorted (fun a b => (line a < line b)%Z) (scan_lines fp lines i rest).
Proof.
  revert i. induction rest as [|ln rest IH]; intros i; [constructor|].
  rewrite scan_lines_cons. unfold entry_at.
  destruct (snd (try_patterns 0 Gen.patterns ln)); cbn [app]; [|apply IH].
  constructor; [apply IH|].
  eapply Forall_impl; [|apply (scan_lines_bounds fp lines rest (S i))].
  cbn [line]. intros e [_ Hl]. lia.
Qed.

Lemma scan_lines_length (fp : str) (lines rest : list str) (i : nat) :
  (List.length (scan_lines fp lines i rest) <= List.length rest)%nat.
Proof.
  revert i. induction rest as [|ln rest IH]; intros i; [apply le_n|].
  rewrite scan_lines_cons, length_app. specialize (IH (S i)). unfold entry_at.
  destruct (snd (try_patterns 0 Gen.patterns ln)); cbn [List.length]; lia.
Qed.

(** X4. The entries of a file are its declaration lines, in line order:
    read as pairs of name and line number they are the names found on the
    lines, numbered from 1; every entry carries the path the file was read
    under and a line number between 1 and the number of lines; and the line
    numbers increase strictly from one entry to the next. *)
Theorem entries_in_line_order (fp content : str) :
  let lines := split (ch "010") content in
  let entries := extract_functions fp content in
  map (fun e => (name e, line e)) entries = flat_map declared_at (enumerate lines)
  /\ Forall (fun e => file e = fp /\ (1 <= line e <= len lines)%Z) entries
  /\ StronglySorted (fun a b => (line a < line b)%Z) entries
  /\ (List.length entries <= List.length lines)%nat.
Proof.
  cbv zeta. unfold extract_functions, enumerate. repeat split.
  - apply scan_lines_declared.
  - eapply Forall_impl; [|apply scan_lines_bounds]. unfold len.
    intros e [Hf Hl]. split; [exact Hf | lia].
  - apply scan_lines_sorted.
  - apply scan_lines_length.
Qed.

(** *** Descriptions *)

Lemma lstrip_solid (s : str) : starts_solid (lstrip s).
Proof. apply drop_while_stop. Qed.

Lemma rstrip_split (s : str) :
  rstrip s ++ rev (take_while isspace (rev s)) = s.
Proof.
  unfold rstrip. rewrite <- rev_app_distr, take_drop_while. apply rev_involutive.
Qed.

Lemma strip_solid (s : str) : starts_solid (strip s) /\ starts_solid (rev (strip s)).
Proof.
  split.
  - unfold strip. pose proof (lstrip_solid s) as H.
    rewrite <- (rstrip_split (lstrip s)) in H.
    destruct (rstrip (lstrip s)); [exact I | exact H].
  - unfold strip, rstrip. rewrite rev_involutive. apply drop_while_stop.
Qed.

Lemma strip_trimmed (s : str) : strip s <> [] -> trimmed (strip s).
Proof. intros H. split; [exact H | apply strip_solid]. Qed.

Lemma drop_while_solid (s : str) : starts_solid s -> drop_while isspace s = s.
Proof. destruct s as [|c s]; [reflexivity|]. cbn. now intros ->. Qed.

Lemma trimmed_strip (s : str) : trimmed s -> strip s = s.
Proof.
  intros (_ & H1 & H2). unfold strip, rstrip, lstrip.
  rewrite (drop_while_solid s H1), (drop_while_solid (rev s) H2).
  apply rev_involutive.
Qed.

Lemma starts_solid_app (a b : str) : a <> [] -> starts_solid a -> starts_solid (a ++ b).
Proof. destruct a; [congruence | now intros _ H]. Qed.

Lemma trimmed_join (x : str) (xs : list str) :
  Forall trimmed (x :: xs) -> trimmed (join (lit " ") (x :: xs)).
Proof.
  revert x. induction xs as [|y xs IH]; intros x H.
  - now inversion H.
  - rewrite join_cons2. inversion H as [|? ? (Hn & H1 & H2) Hr]; subst.
    destruct (IH y Hr) as (Jn & _ & J2). repeat split.
    + destruct x; [congruence | discriminate].
    + now apply starts_solid_app.
    + rewrite !rev_app_distr, <- app_assoc. apply starts_solid_app; [|exact J2].
      intros E. apply Jn. now rewrite <- (rev_involutive (join _ _)), E.
Qed.

Lemma in_drop_while (p : char -> bool) (c : char) (s : str) :
  In c (drop_while p s) -> In c s.
Proof.
  induction s as [|a s IH]; [easy|]. cbn [drop_while].
  destruct (p a); [intros H; right; now apply IH | easy].
Qed.

Lemma in_strip (c : char) (s : str) : In c (strip s) -> In c s.
Proof.
  unfold strip, rstrip, lstrip. intros H.
  apply in_rev, in_drop_while, in_rev in H. now apply in_drop_while in H.
Qed.

Lemma in_tl (c : char) (s : str) : In c (tl s) -> In c s.
Proof. destruct s; [easy | now right]. Qed.

Lemma in_join (c : char) (sep : str) (xs : list str) :
  In c (join sep xs) -> In c sep \/ exists x, In x xs /\ In c x.
Proof.
  induction xs as [|x xs IH]; [easy|]. destruct xs as [|y xs].
  - cbn [join]. intros H. right. exists x. now split; [left|].
  - rewrite join_cons2. intros H. apply in_app_or in H as [H|H].
    + right. exists x. now split; [left|].
    + apply in_app_or in H as [H|H]; [now left|].
      destruct (IH H) as [S|(z & Hz & Hc)]; [now left|].
      right. exists z. now split; [right|].
Qed.

Lemma split_no_sep (sep : char) (s l : str) : In l (split sep s) -> ~ In sep l.
Proof.
  revert l. induction s as [|c s IH]; intros l.
  - cbn. intros [<-|[]]. easy.
  - cbn [split]. destruct (c =? sep) eqn:E.
    + intros [<-|H]; [easy | now apply IH].
    + destruct (split sep s) as [|l0 ls] eqn:S.
      * intros [<-|[]]. intros [H|[]]. apply N.eqb_neq in E. congruence.
      * intros [<-|H]; [|apply IH; now right].
        intros [H|H]; [apply N.eqb_neq in E; congruence|].
        revert H. apply IH. now left.
Qed.

Lemma collect_comment_elements (lines : list str) (k : nat) (acc : list str) (x : str) :
  In x (collect_comment lines k acc) ->
  In x acc \/ exists j, x = strip (nth j lines []).
Proof.
  revert acc. induction k as [|i IH]; intros acc; [now left|].
  cbn [collect_comment].
  destruct (startswith (lit "/**") (strip (nth i lines []))).
  - intros [<-|H]; [right; now exists i | now left].
  - intros H. apply IH in H as [[<-|H]|H]; [right; now exists i | now left | now right].
Qed.

Lemma scan_back_elements (lines : list str) (k : nat) (x : str) :
  In x (scan_back lines k) -> exists j, x = strip (nth j lines []).
Proof.
  induction k as [|i IH]; [easy|]. cbn [scan_back].
  destruct (endswith (lit "*/") (strip (nth i lines []))).
  - intros H. apply collect_comment_elements in H as [[<-|[]]|H]; [now exists i | exact H].
  - destruct (str_eqb (strip (nth i lines [])) [] || startswith (lit "//") _);
      [exact IH | easy].
Qed.

Lemma clean_lines_elements (cl : list str) (x : str) :
  In x (clean_lines cl) ->
  trimmed x /\ exists l, In l cl /\ forall c, In c x -> In c l.
Proof.
  induction cl as [|l cl IH]; [easy|]. cbn [clean_lines].
  assert (K : In x (clean_lines cl) ->
              trimmed x /\ exists l0, In l0 (l :: cl) /\ forall c, In c x -> In c l0).
  { intros H. destruct (IH H) as (T & l0 & Hl & Hc). split; [exact T|].
    exists l0. now split; [right|]. }
  destruct (startswith (lit "/**") (strip l) || startswith (lit "*/") (strip l));
    [exact K|].
  destruct (startswith (lit "*") (strip l)).
  - destruct (strip (tl (strip l))) as [|c0 s0] eqn:E; [exact K|].
    intros [<-|H]; [|now apply K]. split.
    + rewrite <- E. apply strip_trimmed. now rewrite E.
    + exists l. split; [now left|]. intros c Hc. rewrite <- E in Hc.
      now apply in_strip, in_tl, in_strip in Hc.
  - destruct (strip l) as [|c0 s0] eqn:E; [exact K|].
    intros [<-|H]; [|now apply K]. split.
    + rewrite <- E. apply strip_trimmed. now rewrite E.
    + exists l. split; [now left|]. intros c Hc. rewrite <- E in Hc.
      now apply in_strip in Hc.
Qed.

Lemma description_of_lines (lines : list str) (i : nat) :
  (forall l, In l lines -> ~ In (ch "010") l) ->
  let d := or_default (extract_jsdoc_comment lines i) in
  d <> [] /\ strip d = d /\ ~ In (ch "010") d.
Proof.
  intros Hl. cbv zeta. unfold extract_jsdoc_comment.
  assert (S : no_description <> [] /\ strip no_description = no_description
              /\ ~ In (ch "010") no_description).
  { split; [discriminate|]. split; [vm_compute; reflexivity|].
    vm_compute. intros H. repeat (destruct H as [H|H]; [discriminate H|]). exact H. }
  destruct (scan_back lines i) as [|c0 cl0] eqn:Sb; [exact S|].
  rewrite <- Sb. cbn [or_default].
  destruct (join (lit " ") (clean_lines (scan_back lines i))) as [|c s] eqn:J; [exact S|].
  rewrite <- J.
  destruct (clean_lines (scan_back lines i)) as [|x xs] eqn:C; [discriminate J|].
  assert (T : trimmed (join (lit " ") (x :: xs))).
  { apply trimmed_join, Forall_forall. intros y Hy. rewrite <- C in Hy.
    now apply clean_lines_elements in Hy. }
  split; [apply T|]. split; [now apply trimmed_strip|].
  intros H. apply in_join in H as [H|(y & Hy & Hc)].
  - vm_compute in H. destruct H as [H|[]]. discriminate H.
  - rewrite <- C in Hy. apply clean_lines_elements in Hy as (_ & l & Hin & Hsub).
    apply Hsub in Hc. apply scan_back_elements in Hin as (j & ->).
    apply in_strip in Hc. destruct (nth_in_or_default j lines []) as [Hj|Hj].
    + exact (Hl _ Hj Hc).
    + rewrite Hj in Hc. exact Hc.
Qed.

(** X5. The description of an entry is never empty, has no whitespace at
    either end and is a single line: it holds no line feed. (It is the
    sentinel, or cleaned comment lines joined by single spaces.) *)
Theorem descriptions_are_trimmed (fp content : str) (e : entry) :
  In e (extract_functions fp content) ->
  description e <> []
  /\ strip (description e) = description e
  /\ ~ In (ch "010") (description e).
Proof.
  intros H. apply entry_origin in H as (i & ln & _ & _ & _ & -> & _).
  apply description_of_lines. intros l. apply split_no_sep.
Qed.

Lemma descriptions_are_trimmed_witness :
  let e := Entry (lit "fadeOut") (lit "Fades the music out. Called on pause.")
                 (lit "src/Audio.js") 6 in
  extract_functions (lit "src/Audio.js") padded_comment_file = [e]
  /\ description e <> []
  /\ strip (description e) = description e
  /\ ~ In (ch "010") (description e).
Proof.
  cbv zeta. split; [vm_compute; reflexivity|].
  apply (descriptions_are_trimmed (lit "src/Audio.js") padded_comment_file).
  vm_compute. left. reflexivity.
Defined.

(** *** Functions without a doc comment *)

Lemma scan_up_code (pre : list str) : ends_in_code pre -> scan_up (rev pre) = [].
Proof.
  unfold ends_in_code. destruct (rev pre) as [|l r]; [reflexivity|].
  intros [H1 H2]. cbn [scan_up]. now rewrite H1, H2.
Qed.

(** X6. A function without a doc comment: when the nearest line above the
    function line that is neither blank nor a single-line comment is a line
    of code, or when there is no such line above it, no comment is found
    and the description of the entry is the sentinel. *)
Theorem undocumented_function (fp content : str) (pre skipped : list str)
    (fline : str) (below : list str) (nm : str) :
  split (ch "010") content = (pre ++ skipped) ++ fline :: below ->
  ends_in_code pre -> Forall skippable skipped -> detect fline = Some nm ->
  let lines := split (ch "010") content in
  let i := List.length (pre ++ skipped) in
  extract_jsdoc_comment lines i = None
  /\ forall e,
       (In e (extract_functions fp content) /\ line e = (Z.of_nat i + 1)%Z)
       <-> e = Entry nm no_description fp (Z.of_nat i + 1).
Proof.
  intros Hsplit Hc Hs Hnm lines i.
  assert (Hex : extract_jsdoc_comment lines i = None).
  { unfold extract_jsdoc_comment, lines, i. rewrite Hsplit.
    rewrite scan_back_up by (rewrite !length_app; lia).
    rewrite firstn_prefix, rev_app_distr, scan_up_skip, scan_up_code by assumption.
    reflexivity. }
  split; [exact Hex|]. intros e. unfold extract_functions. fold lines.
  change no_description with (or_default None). rewrite <- Hex.
  unfold lines, i. rewrite Hsplit. now apply entry_of_line.
Qed.

Lemma undocumented_function_witness :
  extract_jsdoc_comment (split (ch "010") undocumented_file) 3 = None
  /\ In (Entry (lit "reset") (lit "No description available") (lit "src/Game.js") 4)
        (extract_functions (lit "src/Game.js") undocumented_file)
  /\ In (Entry (lit "reset") (lit "No description available") (lit "src/Game.js") 1)
        (extract_functions (lit "src/Game.js") (lit "reset() {")).
Proof.
  destruct (undocumented_function (lit "src/Game.js") undocumented_file
              [lit "let score = 0;"] [lit ""; lit "// resets the score"]
              (lit "reset() {") [] (lit "reset"))
    as [H1 H2];
    [ reflexivity | split; reflexivity | repeat constructor | reflexivity | ].
  destruct (undocumented_function (lit "src/Game.js") (lit "reset() {")
              [] [] (lit "reset() {") [] (lit "reset"))
    as [_ H3]; [ reflexivity | exact I | constructor | reflexivity | ].
  split; [exact H1|]. split.
  - exact (proj1 (proj2 (H2 _) eq_refl)).
  - exact (proj1 (proj2 (H3 _) eq_refl)).
Defined.

(** ** Catalog generation *)

Lemma startswith_prefix (p s : str) :
  startswith p s = true <-> exists r, s = p ++ r.
Proof.
  revert s. induction p as [|x p IH]; intros s.
  - split; [intros _; now exists s | reflexivity].
  - destruct s as [|y s]; cbn [startswith].
    + split; [discriminate | intros (r & E); discriminate E].
    + rewrite andb_true_iff, N.eqb_eq, IH. split.
      * intros (-> & r & ->). now exists r.
      * intros (r & E). injection E as -> ->. split; [reflexivity | now exists r].
Qed.

Lemma endswith_suffix (suffix s : str) :
  endswith suffix s = true <-> exists stem, s = stem ++ suffix.
Proof.
  unfold endswith. rewrite startswith_prefix. split.
  - intros (r & E). exists (rev r).
    now rewrite <- (rev_involutive s), E, rev_app_distr, rev_involutive.
  - intros (stem & ->). exists (rev stem). apply rev_app_distr.
Qed.

Section Generation.

Variable os_path_exists : str -> bool.
Variable os_walk : str -> list (str * list str * list str).
Variable os_path_join : str -> str -> str.
Variable os_path_relpath : str -> str.
Variable fs : filesystem.

Lemma scan_directory_In (directory p : str) :
  In p (scan_directory os_walk os_path_join directory)
  <-> exists root dirs files stem,
        In (root, dirs, files) (os_walk directory)
        /\ In (stem ++ lit ".js") files
        /\ p = os_path_join root (stem ++ lit ".js").
Proof.
  unfold scan_directory. rewrite in_flat_map. split.
  - intros ([[root dirs] files] & Hw & Hp). apply in_map_iff in Hp as (f & <- & Hf).
    apply filter_In in Hf as [Hf Hjs]. apply endswith_suffix in Hjs as (stem & ->).
    now exists root, dirs, files, stem.
  - intros (root & dirs & files & stem & Hw & Hf & ->).
    exists (root, dirs, files). split; [exact Hw|]. apply in_map, filter_In.
    split; [exact Hf|]. apply endswith_suffix. now exists stem.
Qed.

Lemma gather_files_eq (source_dirs : list str) :
  gather_files os_path_exists os_walk os_path_join source_dirs
  = (map not_found_warning (filter (fun d => negb (os_path_exists d)) source_dirs),
     flat_map (scan_directory os_walk os_path_join) (filter os_path_exists source_dirs)).
Proof.
  induction source_dirs as [|d rest IH]; [reflexivity|].
  cbn [gather_files filter]. rewrite IH. now destruct (os_path_exists d).
Qed.

Lemma process_files_output (all_files : list str) (cat : catalog) :
  fst (process_files os_path_relpath fs all_files cat)
  = flat_map (processing_lines fs) all_files.
Proof.
  revert cat. induction all_files as [|p rest IH]; intros cat; [reflexivity|].
  cbn [process_files flat_map]. unfold processing_lines at 1.
  destruct (extract_functions_from_file fs p) as [out1 functions].
  match goal with
  | |- context [process_files os_path_relpath fs rest ?c] =>
      specialize (IH c); destruct (process_files os_path_relpath fs rest c)
  end.
  cbn [fst] in *. now rewrite IH.
Qed.

Lemma generate_catalog_eq (source_dirs : list str) (cat : catalog) :
  let all_files :=
    flat_map (scan_directory os_walk os_path_join)
             (filter os_path_exists source_dirs) in
  generate_catalog os_path_exists os_walk os_path_join os_path_relpath
                   fs source_dirs cat
  = (lit "Generating method catalog..."
       :: map not_found_warning
              (filter (fun d => negb (os_path_exists d)) source_dirs)
       ++ flat_map (processing_lines fs) all_files,
     snd (process_files os_path_relpath fs all_files cat)).
Proof.
  cbv zeta. unfold generate_catalog. rewrite gather_files_eq.
  rewrite <- process_files_output with (cat := cat).
  now destruct (process_files os_path_relpath fs _ cat).
Qed.

End Generation.

(** X7. What [generate_catalog] prints and which files it reads. The files
    are the entries named [*.js] (lower case, any stem) of the directories
    that [os.walk] visits under the source directories that exist, in walk
    order. A source directory that does not exist is not an error: it gives
    one warning and no file. The output is the heading, the warnings in the
    order of the source directories, then for each file its [Processing]
    line followed by its read error, if any; the catalog is the one the
    files give. *)
Theorem generation_log (os_path_exists : str -> bool)
    (os_walk : str -> list (str * list str * list str))
    (os_path_join : str -> str -> str) (os_path_relpath : str -> str)
    (fs : filesystem) (source_dirs : list str) (cat : catalog) :
  let present := filter os_path_exists source_dirs in
  let missing := filter (fun d => negb (os_path_exists d)) source_dirs in
  let all_files := flat_map (scan_directory os_walk os_path_join) present in
  generate_catalog os_path_exists os_walk os_path_join os_path_relpath
                   fs source_dirs cat
  = (lit "Generating method catalog..."
       :: map not_found_warning missing ++ flat_map (processing_lines fs) all_files,
     snd (process_files os_path_relpath fs all_files cat))
  /\ forall p,
       In p all_files
       <-> exists d root dirs files stem,
             In d source_dirs /\ os_path_exists d = true
             /\ In (root, dirs, files) (os_walk d)
             /\ In (stem ++ lit ".js") files
             /\ p = os_path_join root (stem ++ lit ".js").
Proof.
  cbv zeta. split; [apply generate_catalog_eq|].
  intros p. rewrite in_flat_map. split.
  - intros (d & Hd & Hp). apply filter_In in Hd as [Hd He].
    apply scan_directory_In in Hp as (root & dirs & files & stem & H).
    now exists d, root, dirs, files, stem.
  - intros (d & root & dirs & files & stem & Hd & He & H).
    exists d. split; [now apply filter_In|]. apply scan_directory_In.
    now exists root, dirs, files, stem.
Qed.

(** *** Dictionary updates *)

Lemma keys_dict_set {V} (k : str) (v : V) (d : dict V) :
  keys (dict_set k v d) = if mem k (keys d) then keys d else keys d ++ [k].
Proof.
  induction d as [|[k' v'] d IH]; [reflexivity|].
  cbn [dict_set keys map fst]. rewrite mem_cons.
  destruct (str_eqb k k'); [reflexivity|].
  cbn [map fst orb]. fold (keys (dict_set k v d)). fold (keys d). rewrite IH.
  now destruct (mem k (keys d)).
Qed.

Lemma dict_set_NoDup {V} (k : str) (v : V) (d : dict V) :
  NoDup (keys d) -> NoDup (keys (dict_set k v d)).
Proof.
  intros H. rewrite keys_dict_set. destruct (mem k (keys d)) eqn:E; [exact H|].
  apply mem_not_In in E. apply NoDup_app; [exact H | |].
  - constructor; [easy | constructor].
  - intros x Hx [<-|[]]. contradiction.
Qed.

Lemma dict_set_In {V} (k k0 : str) (v v0 : V) (d : dict V) :
  In (k, v) (dict_set k0 v0 d) -> (k = k0 /\ v = v0) \/ In (k, v) d.
Proof.
  induction d as [|[k' v'] d IH]; cbn [dict_set].
  - intros [E|[]]. injection E as <- <-. now left.
  - destruct (str_eqb k0 k') eqn:E.
    + apply str_eqb_eq in E as ->. intros [H|H].
      * injection H as <- <-. now left.
      * right. now right.
    + intros [H|H]; [right; now left|].
      destruct (IH H) as [?|?]; [now left | right; now right].
Qed.

Lemma dict_set_length {V} (k : str) (v : V) (d : dict V) :
  (List.length (dict_set k v d) <= S (List.length d))%nat.
Proof.
  induction d as [|[k' v'] d IH]; cbn [dict_set List.length]; [lia|].
  destruct (str_eqb k k'); cbn [List.length]; lia.
Qed.

Lemma dict_get_set_same {V} (k : str) (v : V) (d : dict V) :
  dict_get k (dict_set k v d) = Some v.
Proof.
  induction d as [|[k' v'] d IH]; cbn [dict_set dict_get].
  - now rewrite str_eqb_refl.
  - destruct (str_eqb k k') eqn:E; cbn [dict_get]; now rewrite E.
Qed.

Lemma dict_get_set_other {V} (k k0 : str) (v : V) (d : dict V) :
  k <> k0 -> dict_get k (dict_set k0 v d) = dict_get k d.
Proof.
  intros Hne. apply str_eqb_neq in Hne.
  induction d as [|[k' v'] d IH]; cbn [dict_set dict_get].
  - now rewrite Hne.
  - destruct (str_eqb k0 k') eqn:E; cbn [dict_get].
    + apply str_eqb_eq in E as ->. now rewrite Hne.
    + now rewrite IH.
Qed.

Lemma dict_set_set {V} (k : str) (v v' : V) (d : dict V) :
  dict_set k v (dict_set k v' d) = dict_set k v d.
Proof.
  induction d as [|[k' w] d IH]; cbn [dict_set].
  - now rewrite str_eqb_refl.
  - destruct (str_eqb k k') eqn:E; cbn [dict_set]; rewrite E; [reflexivity|].
    now rewrite IH.
Qed.

(** Two assignments to different keys commute when one of the keys is
    already in the dictionary. *)
Lemma dict_set_comm {V} (k1 k2 : str) (v1 v2 : V) (d : dict V) :
  k1 <> k2 -> In k1 (keys d) \/ In k2 (keys d) ->
  dict_set k1 v1 (dict_set k2 v2 d) = dict_set k2 v2 (dict_set k1 v1 d).
Proof.
  intros Hne. pose proof Hne as Hne'. apply str_eqb_neq in Hne'.
  assert (Hne2 : str_eqb k2 k1 = false) by now rewrite str_eqb_sym.
  induction d as [|[k' w] d IH]; [intros [[]|[]]|].
  intros Hin. cbn [dict_set].
  destruct (str_eqb k2 k') eqn:E2, (str_eqb k1 k') eqn:E1; cbn [dict_set];
    rewrite ?E1, ?E2; try reflexivity.
  - apply str_eqb_eq in E1, E2. congruence.
  - f_equal. apply IH. cbn in Hin.
    destruct Hin as [[H|H]|[H|H]]; auto;
      subst k'; rewrite str_eqb_refl in *; discriminate.
Qed.

Lemma dict_set_keys_incl {V} (k k0 : str) (v : V) (d : dict V) :
  In k (keys d) -> In k (keys (dict_set k0 v d)).
Proof.
  rewrite keys_dict_set. destruct (mem k0 (keys d)); [easy|].
  intros H. apply in_or_app. now left.
Qed.

Lemma dict_set_key_In {V} (k : str) (v : V) (d : dict V) :
  In k (keys (dict_set k v d)).
Proof.
  rewrite keys_dict_set. destruct (mem k (keys d)) eqn:E.
  - now apply mem_In.
  - apply in_or_app. right. now left.
Qed.

(** *** The catalog as a fold over the files *)

Section Catalog.

Variable os_path_relpath : str -> str.
Variable fs : filesystem.

Lemma process_files_fold (all_files : list str) (cat : catalog) :
  snd (process_files os_path_relpath fs all_files cat)
  = fold_left (file_step os_path_relpath fs) all_files cat.
Proof.
  revert cat. induction all_files as [|p rest IH]; intros cat; [reflexivity|].
  cbn [process_files fold_left]. unfold file_step at 2.
  destruct (extract_functions_from_file fs p) as [out1 functions]. cbn [snd].
  match goal with
  | |- context [process_files os_path_relpath fs rest ?c] =>
      specialize (IH c); destruct (process_files os_path_relpath fs rest c)
  end.
  cbn [snd] in *. rewrite IH. now destruct functions.
Qed.

Lemma step_cases (cat : catalog) (p : str) :
  (file_functions fs p = [] /\ file_step os_path_relpath fs cat p = cat)
  \/ (file_functions fs p <> []
      /\ file_step os_path_relpath fs cat p
         = dict_set (os_path_relpath p) (file_functions fs p) cat).
Proof.
  unfold file_step, file_functions.
  destruct (snd (extract_functions_from_file fs p)); [now left | right].
  split; [discriminate | reflexivity].
Qed.

Lemma fold_keys_NoDup (all_files : list str) (cat : catalog) :
  NoDup (keys cat) ->
  NoDup (keys (fold_left (file_step os_path_relpath fs) all_files cat)).
Proof.
  revert cat. induction all_files as [|p rest IH]; intros cat H; [exact H|].
  cbn [fold_left]. apply IH.
  destruct (step_cases cat p) as [[_ ->]|[_ ->]]; [exact H | now apply dict_set_NoDup].
Qed.

Lemma fold_origin (all_files : list str) (cat : catalog) (k : str) (v : list entry) :
  In (k, v) (fold_left (file_step os_path_relpath fs) all_files cat) ->
  In (k, v) cat
  \/ exists p, In p all_files /\ k = os_path_relpath p /\ v = file_functions fs p
               /\ v <> [].
Proof.
  revert cat. induction all_files as [|p rest IH]; intros cat H; [now left|].
  cbn [fold_left] in H. apply IH in H as [H|(q & Hq & E)].
  - destruct (step_cases cat p) as [[_ E]|[Hn E]]; rewrite E in H; [now left|].
    apply dict_set_In in H as [[-> ->]|H]; [right | now left].
    exists p. repeat split; [now left | exact Hn].
  - right. exists q. split; [now right | exact E].
Qed.

Lemma fold_length (all_files : list str) (cat : catalog) :
  (List.length (fold_left (file_step os_path_relpath fs) all_files cat)
   <= List.length cat + List.length all_files)%nat.
Proof.
  revert cat. induction all_files as [|p rest IH]; intros cat;
    cbn [fold_left List.length]; [lia|].
  specialize (IH (file_step os_path_relpath fs cat p)).
  destruct (step_cases cat p) as [[_ E]|[_ E]]; rewrite E in *;
    [|pose proof (dict_set_length (os_path_relpath p) (file_functions fs p) cat)]; lia.
Qed.

Lemma fold_keys_kept (all_files : list str) (cat : catalog) (k : str) :
  In k (keys cat) ->
  In k (keys (fold_left (file_step os_path_relpath fs) all_files cat)).
Proof.
  revert cat. induction all_files as [|p rest IH]; intros cat H; [exact H|].
  cbn [fold_left]. apply IH.
  destruct (step_cases cat p) as [[_ ->]|[_ ->]]; [exact H | now apply dict_set_keys_incl].
Qed.

Lemma fold_get_other (all_files : list str) (cat : catalog) (k : str) :
  (forall q, In q all_files -> os_path_relpath q <> k) ->
  dict_get k (fold_left (file_step os_path_relpath fs) all_files cat) = dict_get k cat.
Proof.
  revert cat. induction all_files as [|p rest IH]; intros cat H; [reflexivity|].
  cbn [fold_left]. rewrite IH by (intros q Hq; apply H; now right).
  destruct (step_cases cat p) as [[_ ->]|[_ ->]]; [reflexivity|].
  apply dict_get_set_other. intros E. apply (H p); [now left | now symmetry].
Qed.

(** A file with functions is found under its relative path, with its
    functions, when no other file of the list has the same relative path. *)
Lemma fold_lookup (all_files : list str) (cat : catalog) (p : str) :
  In p all_files -> file_functions fs p <> [] ->
  (forall q, In q all_files -> os_path_relpath q = os_path_relpath p -> q = p) ->
  dict_get (os_path_relpath p) (fold_left (file_step os_path_relpath fs) all_files cat)
  = Some (file_functions fs p).
Proof.
  revert cat. induction all_files as [|q rest IH]; intros cat Hin Hn Hinj; [easy|].
  cbn [fold_left].
  destruct (in_dec (list_eq_dec N.eq_dec) p rest) as [Hr|Hr].
  - apply IH; [exact Hr | exact Hn |]. intros q' Hq'. apply Hinj. now right.
  - destruct Hin as [->|Hin]; [|contradiction].
    rewrite fold_get_other.
    + destruct (step_cases cat p) as [[E _]|[_ ->]]; [contradiction|].
      apply dict_get_set_same.
    + intros q' Hq' E. apply Hr. rewrite <- (Hinj q'); auto. now right.
Qed.

(** Running the loop again over the same files changes nothing. *)
Lemma fold_absorb (all_files : list str) (cat : catalog) (k : str)
    (v v0 : list entry) :
  (forall p, In p all_files -> file_functions fs p <> [] ->
             In (os_path_relpath p) (keys cat)) ->
  dict_set k v (fold_left (file_step os_path_relpath fs) all_files (dict_set k v0 cat))
  = dict_set k v (fold_left (file_step os_path_relpath fs) all_files cat).
Proof.
  revert cat v0. induction all_files as [|p rest IH]; intros cat v0 H.
  - cbn [fold_left]. apply dict_set_set.
  - cbn [fold_left].
    destruct (step_cases cat p) as [[E0 E]|[E0 E]].
    + assert (E' : file_step os_path_relpath fs (dict_set k v0 cat) p
                   = dict_set k v0 cat)
        by (unfold file_step, file_functions in *; now rewrite E0).
      rewrite E, E'. apply IH. intros q Hq. apply H. now right.
    + assert (E' : file_step os_path_relpath fs (dict_set k v0 cat) p
                   = dict_set (os_path_relpath p) (file_functions fs p)
                              (dict_set k v0 cat)).
      { unfold file_step, file_functions in *.
        destruct (snd (extract_functions_from_file fs p));
          [contradiction | reflexivity]. }
      rewrite E, E'.
      destruct (list_eq_dec N.eq_dec (os_path_relpath p) k) as [->|Hne].
      * now rewrite dict_set_set.
      * rewrite dict_set_comm
          by first [exact Hne | left; apply H; [now left | exact E0]].
        apply IH. intros q Hq Hn. apply dict_set_keys_incl.
        apply H; [now right | exact Hn].
Qed.

Lemma fold_keys_present (all_files : list str) (cat : catalog) (p : str) :
  In p all_files -> file_functions fs p <> [] ->
  In (os_path_relpath p) (keys (fold_left (file_step os_path_relpath fs) all_files cat)).
Proof.
  revert cat. induction all_files as [|q rest IH]; intros cat Hin Hn; [easy|].
  cbn [fold_left]. destruct Hin as [->|Hin]; [|now apply IH].
  apply fold_keys_kept.
  destruct (step_cases cat p) as [[E _]|[_ ->]]; [contradiction|].
  apply dict_set_key_In.
Qed.

Lemma fold_idem (all_files : list str) (cat : catalog) :
  fold_left (file_step os_path_relpath fs) all_files
            (fold_left (file_step os_path_relpath fs) all_files cat)
  = fold_left (file_step os_path_relpath fs) all_files cat.
Proof.
  revert cat. induction all_files as [|p files IH] using rev_ind; intros cat;
    [reflexivity|].
  rewrite !fold_left_app. cbn [fold_left].
  destruct (step_cases (fold_left (file_step os_path_relpath fs) files cat) p)
    as [[E0 E]|[E0 E]]; rewrite E.
  - rewrite IH. exact E.
  - destruct (step_cases (fold_left (file_step os_path_relpath fs) files
                            (dict_set (os_path_relpath p) (file_functions fs p)
                               (fold_left (file_step os_path_relpath fs) files cat)))
                         p)
      as [[E1 _]|[_ ->]]; [contradiction|].
    rewrite fold_absorb, IH; [reflexivity|].
    intros q Hq Hn. now apply fold_keys_present.
Qed.

End Catalog.

Lemma generate_catalog_snd (os_path_exists : str -> bool)
    (os_walk : str -> list (str * list str * list str))
    (os_path_join : str -> str -> str) (os_path_relpath : str -> str)
    (fs : filesystem) (source_dirs : list str) (cat : catalog) :
  snd (generate_catalog os_path_exists os_walk os_path_join os_path_relpath
                        fs source_dirs cat)
  = fold_left (file_step os_path_relpath fs)
      (snd (gather_files os_path_exists os_walk os_path_join source_dirs)) cat.
Proof.
  rewrite <- process_files_fold. unfold generate_catalog.
  destruct (gather_files os_path_exists os_walk os_path_join source_dirs)
    as [out1 all_files].
  cbn [snd]. now destruct (process_files os_path_relpath fs all_files cat).
Qed.

(** X8. The catalog that [generate_catalog] builds. A file is filed only if
    it has at least one function: no key of the catalog holds an empty
    list. No key occurs twice. Every item is one the catalog held before,
    or the relative path of a scanned file with the entries of that file.
    Every scanned file with a function has its relative path among the
    keys, and is looked up there with its own entries when no other scanned
    file has the same relative path. The catalog grows by at most one key
    a file. *)
Theorem generated_catalog_invariants (os_path_exists : str -> bool)
    (os_walk : str -> list (str * list str * list str))
    (os_path_join : str -> str -> str) (os_path_relpath : str -> str)
    (fs : filesystem) (source_dirs : list str) (self_catalog : catalog) :
  NoDup (keys self_catalog) -> Forall (fun kv => snd kv <> []) self_catalog ->
  let all_files := snd (gather_files os_path_exists os_walk os_path_join source_dirs) in
  let functions_of := fun p => snd (extract_functions_from_file fs p) in
  let cat := snd (generate_catalog os_path_exists os_walk os_path_join
                                   os_path_relpath fs source_dirs self_catalog) in
  NoDup (keys cat)
  /\ Forall (fun kv => snd kv <> []) cat
  /\ (forall k v,
         In (k, v) cat ->
         In (k, v) self_catalog
         \/ exists p, In p all_files /\ k = os_path_relpath p /\ v = functions_of p)
  /\ (forall p,
         In p all_files -> functions_of p <> [] ->
         In (os_path_relpath p) (keys cat)
         /\ ((forall q, In q all_files -> os_path_relpath q = os_path_relpath p -> q = p) ->
             dict_get (os_path_relpath p) cat = Some (functions_of p)))
  /\ (List.length cat <= List.length self_catalog + List.length all_files)%nat.
Proof.
  intros Hnd Hne all_files functions_of cat. unfold cat.
  rewrite generate_catalog_snd. fold all_files.
  split; [now apply fold_keys_NoDup|]. split; [|split; [|split]].
  - apply Forall_forall. intros [k v] H.
    apply fold_origin in H as [H|(p & _ & _ & _ & H)]; [|exact H].
    now apply (proj1 (Forall_forall _ _) Hne (k, v)).
  - intros k v H. apply fold_origin in H as [H|(p & Hp & Hk & Hv & _)]; [now left|].
    right. now exists p.
  - intros p Hp Hn. split; [now apply fold_keys_present|].
    intros Hinj. now apply fold_lookup.
  - apply fold_length.
Qed.

Lemma generated_catalog_invariants_witness :
  let cat := snd (generate_catalog sample_exists sample_walk sample_join sample_relpath
                                   sample_tree default_source_dirs []) in
  NoDup (keys cat)
  /\ Forall (fun kv => snd kv <> []) cat
  /\ dict_get (lit "src/audio/mixer.js") cat
     = Some [Entry (lit "mix") (lit "Mixes two channels.") (lit "src/audio/mixer.js") 4;
             Entry (lit "update") (lit "No description available")
                   (lit "src/audio/mixer.js") 6]
  /\ (List.length cat <= 3)%nat.
Proof.
  destruct (generated_catalog_invariants sample_exists sample_walk sample_join
              sample_relpath sample_tree default_source_dirs [])
    as (H1 & H2 & _ & H4 & H5); [constructor | constructor |].
  cbv zeta. split; [exact H1|]. split; [exact H2|]. split; [|exact H5].
  destruct (H4 (lit "src/audio/mixer.js")) as [_ H];
    [ vm_compute; auto | vm_compute; discriminate | ].
  apply H. intros q _ E. exact E.
Defined.

(** X9. Generating again changes nothing: a second run of
    [generate_catalog] over the same directories and files, started from
    the catalog of the first, prints the same lines and returns the same
    catalog, keys in the same order. *)
Theorem generation_is_idempotent (os_path_exists : str -> bool)
    (os_walk : str -> list (str * list str * list str))
    (os_path_join : str -> str -> str) (os_path_relpath : str -> str)
    (fs : filesystem) (source_dirs : list str) (self_catalog : catalog) :
  let generate :=
    generate_catalog os_path_exists os_walk os_path_join os_path_relpath
                     fs source_dirs in
  generate (snd (generate self_catalog)) = generate self_catalog.
Proof.
  cbv zeta. rewrite (surjective_pairing (generate_catalog _ _ _ _ _ _ (snd _))).
  rewrite (surjective_pairing (generate_catalog _ _ _ _ _ _ self_catalog)) at 3.
  f_equal.
  - now rewrite !generate_catalog_eq.
  - rewrite !generate_catalog_snd. apply fold_idem.
Qed.

(** *** The generator's summary *)

Lemma total_functions_len (cat : catalog) :
  total_functions cat = len (flat_map snd cat).
Proof. unfold total_functions. rewrite total_methods_from. reflexivity. Qed.

Lemma summary_block_length (fp : str) (functions : list entry) :
  List.length (summary_block fp functions)
  = (1 + Nat.min 3 (List.length functions)
     + (if (3 <? List.length functions)%nat then 1 else 0))%nat.
Proof.
  unfold summary_block. cbn [List.length].
  rewrite length_app, length_map, length_firstn. unfold len.
  destruct (3 <? List.length functions)%nat eqn:E.
  - apply Nat.ltb_lt in E. destruct (3 <? Z.of_nat _)%Z eqn:F; [reflexivity|].
    apply Z.ltb_ge in F. lia.
  - apply Nat.ltb_ge in E. destruct (3 <? Z.of_nat _)%Z eqn:F; [|reflexivity].
    apply Z.ltb_lt in F. lia.
Qed.

Lemma print_summary_length (cat : catalog) :
  List.length (print_summary cat)
  = (4 + list_sum (map (fun kv => List.length (summary_block (fst kv) (snd kv))) cat))%nat.
Proof.
  unfold print_summary. rewrite length_app, length_flat_map. reflexivity.
Qed.

(** X10. The generator's summary is short whatever the catalog holds: a
    file takes its count line, a line for each of its first three
    functions and, when it has more, one line that says how many more; so
    at most five lines a file after the four lines of the heading. A
    description is shown whole when it has at most 50 characters and cut to
    its first 50 characters and three dots otherwise, at most 53 characters.
    The number of functions the summary reports is the number of entries
    of the catalog. *)
Theorem summary_is_short (cat : catalog) :
  List.length (print_summary cat)
  = (4 + list_sum
           (map (fun kv =>
                   let n := List.length (snd kv) in
                   1 + Nat.min 3 n + (if (3 <? n)%nat then 1 else 0))
                cat))%nat
  /\ (List.length (print_summary cat) <= 4 + 5 * List.length cat)%nat
  /\ total_functions cat = len (flat_map snd cat)
  /\ forall func,
       (len (shown_description func) <= 53)%Z
       /\ firstn 50 (shown_description func) = firstn 50 (description func)
       /\ ((len (description func) <= 50)%Z ->
           shown_description func = description func).
Proof.
  assert (E : List.length (print_summary cat)
              = (4 + list_sum
                       (map (fun kv =>
                               let n := List.length (snd kv) in
                               1 + Nat.min 3 n + (if (3 <? n)%nat then 1 else 0))
                            cat))%nat).
  { rewrite print_summary_length. f_equal. f_equal. apply map_ext.
    intros kv. apply summary_block_length. }
  split; [exact E|]. split; [|split; [apply total_functions_len|]].
  - rewrite E. clear E. induction cat as [|kv cat IH]; [apply le_n|].
    cbn [map List.length]. cbv zeta in *.
    change (list_sum (?a :: ?l)) with (a + list_sum l)%nat.
    destruct (3 <? List.length (snd kv))%nat; lia.
  - intros func. unfold shown_description, len.
    destruct (50 <? Z.of_nat (List.length (description func)))%Z eqn:F.
    + apply Z.ltb_lt in F. split; [|split].
      * rewrite length_app, length_firstn. cbn [List.length lit].
        vm_compute (List.length _). lia.
      * rewrite firstn_app, length_firstn, firstn_firstn.
        replace (50 - Nat.min 50 _)%nat with 0%nat by lia.
        rewrite firstn_O, app_nil_r. reflexivity.
      * lia.
    + apply Z.ltb_ge in F. split; [lia|]. split; reflexivity.
Qed.

(** *** From the generator to the analyzer *)

Lemma fs_write_other (path text p : str) (fs : filesystem) :
  p <> path -> fs_write path text fs p = fs p.
Proof. intros H. unfold fs_write. apply str_eqb_neq in H. now rewrite H. Qed.

Lemma generated_keys_NoDup (os_path_exists : str -> bool)
    (os_walk : str -> list (str * list str * list str))
    (os_path_join : str -> str -> str) (os_path_relpath : str -> str)
    (fs : filesystem) (source_dirs : list str) :
  NoDup (keys (snd (generate_catalog os_path_exists os_walk os_path_join
                                     os_path_relpath fs source_dirs []))).
Proof. rewrite generate_catalog_snd. apply fold_keys_NoDup. constructor. Qed.

Lemma load_saved (cat : catalog) (fs : filesystem) :
  NoDup (keys cat) ->
  load_catalog (fs_write default_output (dumps (catalog_json cat)) fs)
  = inr (catalog_json cat).
Proof.
  intros Hnd. unfold load_catalog.
  change (lit "method_catalog.json") with default_output.
  rewrite fs_write_read. apply loads_dumps. now apply catalog_json_wf.
Qed.

(** [main] of the generator, by what [save_catalog] does. *)
Lemma generator_main_eq (os_path_exists : str -> bool)
    (os_walk : str -> list (str * list str * list str))
    (os_path_join : str -> str -> str) (os_path_relpath : str -> str)
    (fs : filesystem) :
  Gen.main os_path_exists os_walk os_path_join os_path_relpath fs
  = generator_run
      (generate_catalog os_path_exists os_walk os_path_join os_path_relpath
                        fs [lit "src"; lit "assets"] [])
      fs.
Proof.
  unfold Gen.main, generator_run, init, default_source_dirs.
  now destruct (generate_catalog _ _ _ _ _ _ _).
Qed.

Lemma generator_run_written (out1 : list str) (cat : catalog) (fs : filesystem) :
  catalog_encodable cat = true ->
  generator_run (out1, cat) fs
  = Outcome (out1 ++ [lit "Catalog saved to method_catalog.json"] ++ print_summary cat)
            (fs_write default_output (dumps (catalog_json cat)) fs) None.
Proof.
  intros H. unfold generator_run. cbn [fst snd].
  now rewrite save_catalog_written.
Qed.

Lemma generator_run_cut (out1 : list str) (cat : catalog) (fs : filesystem) :
  catalog_encodable cat = false ->
  exists written rest,
    generator_run (out1, cat) fs
    = Outcome out1 (fs_write default_output written fs) (Some encode_error)
    /\ dumps (catalog_json cat) = written ++ rest
    /\ utf8_encodable written = true /\ utf8_encodable rest = false.
Proof.
  intros H. destruct (save_catalog_cut cat default_output fs H)
    as (w & rest & S & Hcat & Hok & Hrest).
  exists w, rest. unfold generator_run. cbn [fst snd]. rewrite S.
  cbn [raised printed store]. rewrite app_nil_r. now repeat split.
Qed.

Lemma analyzer_after_generator (os_path_exists : str -> bool)
    (os_walk : str -> list (str * list str * list str))
    (os_path_join : str -> str -> str) (os_path_relpath : str -> str)
    (lower upper : str -> str) (fs : filesystem) :
  let cat := snd (generate_catalog os_path_exists os_walk os_path_join
                                   os_path_relpath fs [lit "src"; lit "assets"] []) in
  catalog_encodable cat = true ->
  Ana.main lower upper
    (store (Gen.main os_path_exists os_walk os_path_join os_path_relpath fs))
  = main_on lower upper cat.
Proof.
  cbv zeta. intros He.
  pose proof (generated_keys_NoDup os_path_exists os_walk os_path_join
                os_path_relpath fs [lit "src"; lit "assets"]) as Hnd.
  rewrite generator_main_eq.
  destruct (generate_catalog os_path_exists os_walk os_path_join os_path_relpath
              fs [lit "src"; lit "assets"] []) as [out1 cat].
  cbn [fst snd] in *. rewrite generator_run_written by exact He.
  cbn [store]. unfold main. now rewrite load_saved, as_catalog_json.
Qed.

(** X11. The two programs compose. The generator's [main] leaves every file
    but the catalog document as it was. When the generated catalog can be
    encoded (no key and no string field holds a surrogate code point) the
    generator prints the log of the generation, the line of the save and
    the summary and ends without an exception, and the analyzer's [main],
    run on the store the generator leaves, loads that document and analyzes
    the very catalog that was generated from [src] and [assets]. When it
    cannot, the generator prints the log of the generation only and ends
    with [UnicodeEncodeError], the document is left cut short, and the
    analyzer's [main], run on that store, prints nothing and ends with
    [JSONDecodeError]. *)
Theorem generate_then_analyze (os_path_exists : str -> bool)
    (os_walk : str -> list (str * list str * list str))
    (os_path_join : str -> str -> str) (os_path_relpath : str -> str)
    (lower upper : str -> str) (fs : filesystem) :
  let generated :=
    generate_catalog os_path_exists os_walk os_path_join os_path_relpath
                     fs [lit "src"; lit "assets"] [] in
  let cat := snd generated in
  let ran := Gen.main os_path_exists os_walk os_path_join os_path_relpath fs in
  (forall p, p <> lit "method_catalog.json" -> store ran p = fs p)
  /\ (catalog_encodable cat = true ->
      printed ran
      = fst generated ++ [lit "Catalog saved to method_catalog.json"]
        ++ print_summary cat
      /\ raised ran = None
      /\ store ran (lit "method_catalog.json") = inr (dumps (catalog_json cat))
      /\ load_catalog (store ran) = inr (catalog_json cat)
      /\ Ana.main lower upper (store ran) = main_on lower upper cat)
  /\ (catalog_encodable cat = false ->
      printed ran = fst generated
      /\ raised ran = Some encode_error
      /\ (exists written rest,
            store ran (lit "method_catalog.json") = inr written
            /\ dumps (catalog_json cat) = written ++ rest
            /\ utf8_encodable written = true /\ utf8_encodable rest = false)
      /\ Ana.main lower upper (store ran) = ([], Some decode_error)).
Proof.
  cbv zeta.
  pose proof (generated_keys_NoDup os_path_exists os_walk os_path_join
                os_path_relpath fs [lit "src"; lit "assets"]) as Hnd.
  pose proof (analyzer_after_generator os_path_exists os_walk os_path_join
                os_path_relpath lower upper fs) as Hmain.
  cbv zeta in Hmain. rewrite generator_main_eq in *.
  destruct (generate_catalog os_path_exists os_walk os_path_join os_path_relpath
              fs [lit "src"; lit "assets"] []) as [out1 cat].
  cbn [fst snd] in *.
  destruct (catalog_encodable cat) eqn:He.
  - rewrite generator_run_written in * by exact He. cbn [printed raised store] in *.
    split; [intros p Hp; now apply fs_write_other|].
    split; [|intros D; discriminate D]. intros _.
    split; [reflexivity|]. split; [reflexivity|].
    split; [apply fs_write_read|]. split; [now apply load_saved | now apply Hmain].
  - destruct (generator_run_cut out1 cat fs He) as (w & rest & R & Hcat & Hok & Hrest).
    rewrite R. cbn [printed raised store].
    split; [intros p Hp; now apply fs_write_other|].
    split; [intros D; discriminate D|]. intros _.
    split; [reflexivity|]. split; [reflexivity|]. split.
    + exists w, rest. split; [apply fs_write_read | now repeat split].
    + apply analyzer_on_cut with (cat := cat) (rest := rest); assumption.
Qed.

Lemma generate_then_analyze_witness :
  raised (Gen.main sample_exists sample_walk sample_join sample_relpath sample_tree)
  = None
  /\ load_catalog
       (store (Gen.main sample_exists sample_walk sample_join sample_relpath
                        sample_tree))
     = inr (catalog_json
              (snd (generate_catalog sample_exists sample_walk sample_join
                      sample_relpath sample_tree default_source_dirs [])))
  /\ raised (Gen.main sample_exists surrogate_walk sample_join sample_relpath
                      surrogate_tree)
     = Some encode_error
  /\ Ana.main (map ascii_lower) (map ascii_upper)
       (store (Gen.main sample_exists surrogate_walk sample_join sample_relpath
                        surrogate_tree))
     = ([], Some decode_error).
Proof.
  destruct (generate_then_analyze sample_exists sample_walk sample_join sample_relpath
              (map ascii_lower) (map ascii_upper) sample_tree) as (_ & H & _).
  destruct (generate_then_analyze sample_exists surrogate_walk sample_join
              sample_relpath (map ascii_lower) (map ascii_upper) surrogate_tree)
    as (_ & _ & H').
  destruct (H eq_refl) as (_ & H1 & _ & H2 & _).
  destruct (H' eq_refl) as (_ & H3 & _ & H4).
  split; [exact H1|]. split; [exact H2|]. split; [exact H3 | exact H4].
Defined.

(** X12. The saved document determines the catalog: two catalogs that are
    saved as the same text are the same catalog. And a line feed after the
    document, which [json.dump] does not write but an editor may add, does
    not change what is loaded. *)
Theorem saved_document_determines_catalog (cat : catalog) :
  NoDup (keys cat) ->
  loads (dumps (catalog_json cat) ++ nl) = inr (catalog_json cat)
  /\ forall cat',
       NoDup (keys cat') ->
       dumps (catalog_json cat) = dumps (catalog_json cat') -> cat = cat'.
Proof.
  intros Hnd. pose proof (catalog_json_wf cat Hnd) as Hw. split.
  - unfold loads, dumps. rewrite (skip_ws_dump 0 (catalog_json cat) nl Hw).
    rewrite (parse_dump (catalog_json cat) Hw 0%nat
               (S (List.length (dump 0 (catalog_json cat) ++ nl))) nl).
    + reflexivity.
    + pose proof (size_le_length (catalog_json cat) Hw 0%nat).
      rewrite length_app. lia.
    + now left.
  - intros cat' Hnd' E.
    pose proof (loads_dumps _ Hw) as L.
    rewrite E, (loads_dumps _ (catalog_json_wf cat' Hnd')) in L.
    assert (J : catalog_json cat' = catalog_json cat) by congruence.
    apply (f_equal as_catalog) in J.
    rewrite !as_catalog_json in J. now injection J.
Qed.

Lemma saved_document_determines_catalog_witness :
  loads (dumps (catalog_json escaped_catalog) ++ nl) = inr (catalog_json escaped_catalog).
Proof.
  apply (saved_document_determines_catalog escaped_catalog).
  unfold keys. cbn [escaped_catalog map fst].
  repeat (apply NoDup_cons; [apply mem_not_In; vm_compute; reflexivity|]).
  apply NoDup_nil.
Defined.

(** ** The analyzer's reports *)

(** *** How many names can be duplicates *)

Lemma filter_length_le {A} (f : A -> bool) (l : list A) :
  (List.length (filter f l) <= List.length l)%nat.
Proof.
  induction l as [|x l IH]; [apply le_n|]. cbn [filter].
  destruct (f x); cbn [List.length]; lia.
Qed.

Lemma filter_partition_length {A} (f : A -> bool) (l : list A) :
  (List.length (filter f l) + List.length (filter (fun x => negb (f x)) l)
   = List.length l)%nat.
Proof.
  induction l as [|x l IH]; [reflexivity|]. cbn [filter].
  destruct (f x); cbn [negb List.length]; lia.
Qed.

Lemma filter_other_name (n n' : str) (es : list entry) :
  n' <> n ->
  filter (fun m => str_eqb (name m) n')
         (filter (fun m => negb (str_eqb (name m) n)) es)
  = filter (fun m => str_eqb (name m) n') es.
Proof.
  intros Hne. induction es as [|e es IH]; [reflexivity|]. cbn [filter].
  destruct (str_eqb (name e) n) eqn:E; cbn [negb filter].
  - apply str_eqb_eq in E. rewrite E.
    assert (F : str_eqb n n' = false) by (apply str_eqb_neq; congruence).
    now rewrite F.
  - destruct (str_eqb (name e) n'); now rewrite IH.
Qed.

(** Distinct names share no entry: their counts add up to at most the
    number of entries. *)
Lemma counts_sum (ns : list str) (es : list entry) :
  NoDup ns ->
  (list_sum (map (fun n => List.length (filter (fun m => str_eqb (name m) n) es)) ns)
   <= List.length es)%nat.
Proof.
  intros Hnd. revert es. induction Hnd as [|n ns Hn Hnd IH]; intros es; [cbn; lia|].
  cbn [map]. change (list_sum (?a :: ?l)) with (a + list_sum l)%nat.
  pose proof (filter_partition_length (fun m => str_eqb (name m) n) es) as P.
  specialize (IH (filter (fun m => negb (str_eqb (name m) n)) es)).
  rewrite (map_ext_in _ (fun n' => List.length (filter (fun m => str_eqb (name m) n') es)))
    in IH; [lia|].
  intros n' Hn'. rewrite filter_other_name; [reflexivity|]. congruence.
Qed.

Lemma duplicates_are_counted (cat : catalog) :
  let names :=
    filter (fun n => (1 <? len (occurrences_of n (discoveries cat)))%Z)
           (distinct (map fst (discoveries cat))) in
  keys (analyze_duplicates cat) = names
  /\ NoDup names
  /\ Forall (fun n => (2 <= count_name n cat)%nat) names
  /\ map (fun kv => List.length (snd kv)) (analyze_duplicates cat)
     = map (fun n => count_name n cat) names.
Proof.
  cbv zeta. rewrite analyze_duplicates_eq. repeat split.
  - apply keys_named.
  - apply NoDup_filter, distinct_spec.
  - apply Forall_forall. intros n H. apply filter_In in H as [_ H].
    apply Z.ltb_lt in H. unfold len in H. rewrite occurrences_count in H. lia.
  - rewrite map_map. cbn [snd]. apply map_ext. intros n. apply occurrences_count.
Qed.

Lemma sum_at_least {A} (f : A -> nat) (b : nat) (l : list A) :
  Forall (fun x => (b <= f x)%nat) l -> (b * List.length l <= list_sum (map f l))%nat.
Proof.
  induction 1 as [|x l Hx Hl IH]; [cbn; lia|]. cbn [map List.length].
  change (list_sum (?a :: ?r)) with (a + list_sum r)%nat.
  rewrite Nat.mul_succ_r. lia.
Qed.

(** X13. At most half of the entries can be duplicates: every duplicate
    name stands for two entries or more, and no entry is counted under two
    names. So twice the number of duplicate names is at most the number of
    occurrences listed, which is at most the number of entries: the
    quotient that the summary shows as the duplication rate never exceeds
    one half. *)
Theorem duplicates_at_most_half (cat : catalog) :
  let duplicates := analyze_duplicates cat in
  let listed := Z.of_nat (list_sum (map (fun kv => List.length (snd kv)) duplicates)) in
  (2 * len duplicates <= listed)%Z /\ (listed <= total_methods cat)%Z.
Proof.
  cbv zeta. destruct (duplicates_are_counted cat) as (K & Hnd & H2 & L).
  cbv zeta in *. rewrite L, total_methods_len.
  pose proof (sum_at_least (fun n => count_name n cat) 2 _ H2) as S.
  pose proof (counts_sum _ (flat_map snd cat) Hnd) as C.
  fold (count_name) in C.
  assert (E : len (analyze_duplicates cat)
              = Z.of_nat (List.length (keys (analyze_duplicates cat))))
    by (unfold len, keys; now rewrite length_map).
  rewrite E, K. unfold len in *.
  change (fun n => List.length (filter (fun m => str_eqb (name m) n) (flat_map snd cat)))
    with (fun n => count_name n cat) in C.
  split; lia.
Qed.

(** *** The report of the duplicates *)

Lemma duplicate_key_iff (cat : catalog) (n : str) :
  In n (keys (analyze_duplicates cat)) <-> (1 < count_name n cat)%nat.
Proof.
  destruct (duplicates_are_counted cat) as (K & _). cbv zeta in K. rewrite K.
  destruct (distinct_spec (map fst (discoveries cat))) as [_ Hin].
  rewrite filter_In, Hin, Z.ltb_lt. unfold len. rewrite occurrences_count. split.
  - intros [_ H]. lia.
  - intros H. split; [|lia].
    destruct (in_dec (list_eq_dec N.eq_dec) n (map fst (discoveries cat)))
      as [Hi|Hn]; [exact Hi|].
    pose proof (occurrences_count n cat) as C.
    rewrite (occurrences_of_absent n _ Hn) in C. cbn in C. lia.
Qed.

Lemma duplicate_group (cat : catalog) (n : str) (occs : list occurrence) :
  In (n, occs) (analyze_duplicates cat) -> List.length occs = count_name n cat.
Proof.
  rewrite analyze_duplicates_eq. intros H.
  apply in_map_iff in H as (k & [= -> <-] & _). apply occurrences_count.
Qed.

Lemma list_sum_shift {A} (f : A -> nat) (b : nat) (l : list A) :
  list_sum (map (fun x => (b + f x)%nat) l)
  = (b * List.length l + list_sum (map f l))%nat.
Proof.
  induction l as [|x l IH]; [cbn; lia|]. cbn [map List.length].
  change (list_sum (?a :: ?r)) with (a + list_sum r)%nat.
  rewrite IH, Nat.mul_succ_r. lia.
Qed.

Lemma print_duplicates_length (duplicates : dict (list occurrence)) :
  List.length (print_duplicates duplicates)
  = (1 + 2 * List.length duplicates
     + list_sum (map (fun kv => List.length (snd kv)) duplicates))%nat.
Proof.
  unfold print_duplicates. cbn [List.length]. rewrite length_flat_map.
  rewrite (map_ext _ (fun kv => (2 + List.length (snd kv))%nat))
    by (intros kv; cbn [List.length]; rewrite length_app, length_map;
        cbn [List.length]; lia).
  rewrite list_sum_shift. reflexivity.
Qed.

(** X14. The report of the duplicates. It is the heading alone exactly when
    no name occurs twice in the catalog. Every name that occurs more than
    once has its block, opened by a line that gives the name and the number
    of entries of that name. The report has one line for the heading, two
    for each duplicate name (the opening line and an empty line) and one
    for each occurrence. *)
Theorem duplicates_report (cat : catalog) :
  let duplicates := analyze_duplicates cat in
  let report := print_duplicates duplicates in
  (report = [duplicates_heading] <-> forall n, (count_name n cat <= 1)%nat)
  /\ (forall n, (1 < count_name n cat)%nat ->
                In (method_line n (count_name n cat)) report)
  /\ List.length report
     = (1 + 2 * List.length duplicates
        + list_sum (map (fun kv => List.length (snd kv)) duplicates))%nat.
Proof.
  cbv zeta. split; [|split; [|apply print_duplicates_length]].
  - split.
    + intros H n.
      destruct (analyze_duplicates cat) as [|[k occs] d] eqn:E.
      * destruct (Nat.le_gt_cases (count_name n cat) 1) as [L|G]; [exact L|].
        apply duplicate_key_iff in G. rewrite E in G. destruct G.
      * discriminate H.
    + intros H. destruct (analyze_duplicates cat) as [|[k occs] d] eqn:E;
        [reflexivity|].
      assert (G : In k (keys (analyze_duplicates cat))) by (rewrite E; now left).
      apply duplicate_key_iff in G. specialize (H k). lia.
  - intros n G. apply duplicate_key_iff in G as K. unfold keys in K.
    apply in_map_iff in K as ([k occs] & E & Hin). cbn [fst] in E. subst k.
    unfold print_duplicates. right. apply in_flat_map.
    exists (n, occs). split; [exact Hin|]. left. cbn [fst snd].
    unfold method_line, len. now rewrite (duplicate_group cat n occs Hin).
Qed.

Lemma duplicates_report_witness :
  In (lit "Method: update (2 occurrences)")
     (print_duplicates (analyze_duplicates escaped_catalog))
  /\ print_duplicates (analyze_duplicates sample_effect_catalog) = [duplicates_heading].
Proof.
  destruct (duplicates_report escaped_catalog) as (_ & H & _).
  destruct (duplicates_report sample_effect_catalog) as (H' & _).
  split.
  - exact (H (lit "update") ltac:(vm_compute; lia)).
  - apply H'. intros n. unfold count_name.
    cbn [sample_effect_catalog flat_map snd app filter].
    destruct (str_eqb _ n); cbn [List.length]; lia.
Defined.

(** *** The similarity groups as a dictionary *)

Lemma keys_dict_append {V} (k : str) (x : V) (d : dict (list V)) :
  keys (dict_append k x d) = if mem k (keys d) then keys d else keys d ++ [k].
Proof.
  induction d as [|[k' v'] d IH]; [reflexivity|].
  cbn [dict_append keys map fst]. rewrite mem_cons.
  destruct (str_eqb k k'); [reflexivity|].
  cbn [map fst orb]. fold (keys (dict_append k x d)). fold (keys d). rewrite IH.
  now destruct (mem k (keys d)).
Qed.

Lemma dict_append_values {V} (k : str) (x : V) (d : dict (list V)) :
  Forall (fun kv => snd kv <> []) d ->
  Forall (fun kv => snd kv <> []) (dict_append k x d).
Proof.
  induction 1 as [|[k' v'] d Hv Hd IH]; cbn [dict_append].
  - constructor; [discriminate | constructor].
  - destruct (str_eqb k k'); constructor; auto.
    cbn [snd]. intros E. now apply app_eq_nil in E as [_ E].
Qed.

Lemma dict_append_only {V} (allowed : list str) (k : str) (x : V) (d : dict (list V)) :
  In k allowed -> appended_only allowed d -> appended_only allowed (dict_append k x d).
Proof.
  intros Hk (Hnd & Hv & Hi). unfold appended_only. rewrite keys_dict_append.
  split; [|split; [now apply dict_append_values|]].
  - destruct (mem k (keys d)) eqn:E; [exact Hnd|]. apply mem_not_In in E.
    apply NoDup_app; [exact Hnd | |].
    + constructor; [easy | constructor].
    + intros y Hy [<-|[]]. contradiction.
  - destruct (mem k (keys d)); [exact Hi|].
    intros y Hy. apply in_app_or in Hy as [Hy|[<-|[]]]; auto.
Qed.

Lemma dict_get_Some_In {V} (k : str) (v : V) (d : dict V) :
  dict_get k d = Some v -> In (k, v) d.
Proof.
  induction d as [|[k' v'] d IH]; [discriminate|]. cbn [dict_get].
  destruct (str_eqb k k') eqn:E.
  - apply str_eqb_eq in E as ->. intros [= ->]. now left.
  - intros H. right. now apply IH.
Qed.

Section Groups.

Variable lower : str -> str.

Lemma classify_only (allowed : list str) (cats : list (str * list str))
    (info : method_info) (m : entry) (g : dict (list method_info)) :
  incl (keys cats) allowed -> appended_only allowed g ->
  appended_only allowed (classify lower cats info m g).
Proof.
  revert g. induction cats as [|[c kws] cats IH]; intros g Hi Hg; [exact Hg|].
  cbn [classify]. apply IH; [intros y Hy; apply Hi; now right|].
  destruct (existsb (keyword_hit lower m) kws); [|exact Hg].
  apply dict_append_only; [|exact Hg]. apply Hi. now left.
Qed.

Lemma classify_methods_only (fp : str) (methods : list entry)
    (g : dict (list method_info)) :
  appended_only (keys Ana.patterns) g ->
  appended_only (keys Ana.patterns) (classify_methods lower fp methods g).
Proof.
  revert g. induction methods as [|m methods IH]; intros g Hg; [exact Hg|].
  cbn [classify_methods]. apply IH, classify_only; [apply incl_refl | exact Hg].
Qed.

Lemma classify_catalog_only (cat : catalog) (g : dict (list method_info)) :
  appended_only (keys Ana.patterns) g ->
  appended_only (keys Ana.patterns) (classify_catalog lower cat g).
Proof.
  revert g. induction cat as [|[fp methods] cat IH]; intros g Hg; [exact Hg|].
  cbn [classify_catalog]. now apply IH, classify_methods_only.
Qed.

Lemma analysis_only (cat : catalog) :
  appended_only (keys Ana.patterns) (analyze_similar_functionality lower cat).
Proof.
  apply classify_catalog_only. repeat split; [constructor | constructor | easy].
Qed.

Lemma group_in_analysis (cat : catalog) (k : str) (l : list method_info) :
  In (k, l) (analyze_similar_functionality lower cat) ->
  group_of k (analyze_similar_functionality lower cat) = l.
Proof.
  intros H. destruct (analysis_only cat) as (Hnd & _). unfold group_of.
  now rewrite (dict_get_In k l _ Hnd H).
Qed.

End Groups.

Lemma filed_entries_length (cat : catalog) :
  List.length (filed_entries cat) = List.length (flat_map snd cat).
Proof.
  unfold filed_entries. induction cat as [|kv cat IH]; [reflexivity|].
  cbn [flat_map]. now rewrite !length_app, length_map, IH.
Qed.

(** X15. The result of the similarity analysis, as a dictionary. Its keys
    are categories of the taxonomy, none twice, so at most eight; a
    category is a key exactly when some entry of the catalog hits one of
    its keywords, so no group is empty; and the group of a category is the
    list of the entries that hit it, in catalog order, so it has at most as
    many members as the catalog has entries. *)
Theorem similarity_result_shape (lower : str -> str) (cat : catalog) :
  let groups := analyze_similar_functionality lower cat in
  let hits := fun kws : list str =>
    filter (fun fm => existsb (keyword_hit lower (snd fm)) kws) (filed_entries cat) in
  NoDup (keys groups)
  /\ incl (keys groups) (keys Ana.patterns)
  /\ (List.length groups <= 8)%nat
  /\ Forall (fun kv => snd kv <> []
                       /\ (List.length (snd kv) <= List.length (flat_map snd cat))%nat)
            groups
  /\ forall k kws,
       In (k, kws) Ana.patterns ->
       (In k (keys groups) <-> hits kws <> [])
       /\ forall l, In (k, l) groups -> l = map info_of (hits kws).
Proof.
  cbv zeta. destruct (analysis_only lower cat) as (Hnd & Hv & Hi).
  assert (G : forall k kws l,
             In (k, kws) Ana.patterns ->
             In (k, l) (analyze_similar_functionality lower cat) ->
             l = map info_of
                   (filter (fun fm => existsb (keyword_hit lower (snd fm)) kws)
                           (filed_entries cat))).
  { intros k kws l Hk Hl. rewrite <- (group_of_analysis lower k kws cat Hk).
    symmetry. now apply group_in_analysis. }
  split; [exact Hnd|]. split; [exact Hi|]. split; [|split].
  - replace (List.length (analyze_similar_functionality lower cat))
      with (List.length (keys (analyze_similar_functionality lower cat)))
      by (unfold keys; apply length_map).
    exact (NoDup_incl_length Hnd Hi).
  - apply Forall_forall. intros [k l] Hl. cbn [snd].
    split; [exact (proj1 (Forall_forall _ _) Hv (k, l) Hl)|].
    assert (Hk : In k (keys Ana.patterns)).
    { apply Hi. unfold keys. apply in_map_iff. now exists (k, l). }
    unfold keys in Hk. apply in_map_iff in Hk as ([k' kws] & E & Hk).
    cbn [fst] in E. subst k'. rewrite (G k kws l Hk Hl), length_map.
    rewrite <- filed_entries_length. apply filter_length_le.
  - intros k kws Hk. split; [|intros l Hl; now apply (G k kws l Hk)].
    split.
    + intros Hin. unfold keys in Hin. apply in_map_iff in Hin as ([k' l] & E & Hl).
      cbn [fst] in E. subst k'. intros E.
      pose proof (G k kws l Hk Hl) as El. rewrite E in El. cbn [map] in El.
      exact (proj1 (Forall_forall _ _) Hv (k, l) Hl El).
    + intros Hne. destruct (in_dec (list_eq_dec N.eq_dec) k
                              (keys (analyze_similar_functionality lower cat)))
        as [Hin|Hout]; [exact Hin|].
      exfalso. apply Hne. apply dict_get_None in Hout.
      pose proof (group_of_analysis lower k kws cat Hk) as E.
      unfold group_of in E. rewrite Hout in E.
      destruct (filter _ (filed_entries cat)); [reflexivity | discriminate E].
Qed.

Lemma similarity_result_shape_witness :
  keys (analyze_similar_functionality (map ascii_lower) update_catalog) = [lit "update"]
  /\ In (lit "update")
        (keys (analyze_similar_functionality (map ascii_lower) update_catalog))
  /\ ~ In (lit "audio")
          (keys (analyze_similar_functionality (map ascii_lower) update_catalog)).
Proof.
  destruct (similarity_result_shape (map ascii_lower) update_catalog)
    as (_ & _ & _ & _ & H).
  split; [vm_compute; reflexivity|]. split.
  - apply (H (lit "update") [lit "update"; lit "tick"; lit "refresh"]).
    + vm_compute. auto.
    + vm_compute. discriminate.
  - intros Hin.
    apply (H (lit "audio") [lit "play"; lit "sound"; lit "audio"; lit "music"]) in Hin.
    + apply Hin. vm_compute. reflexivity.
    + vm_compute. auto 6.
Defined.


Lemma analysis_bounds (lower : str -> str) (cat : catalog) :
  (List.length (analyze_similar_functionality lower cat) <= 8)%nat
  /\ Forall (fun kv => (List.length (snd kv) <= List.length (flat_map snd cat))%nat)
            (analyze_similar_functionality lower cat).
Proof.
  destruct (analysis_only lower cat) as (Hnd & Hv & Hi). split.
  - replace (List.length (analyze_similar_functionality lower cat))
      with (List.length (keys (analyze_similar_functionality lower cat)))
      by (unfold keys; apply length_map).
    exact (NoDup_incl_length Hnd Hi).
  - apply Forall_forall. intros [k l] Hl. cbn [snd].
    assert (Hk : In k (keys Ana.patterns)).
    { apply Hi. unfold keys. apply in_map_iff. now exists (k, l). }
    unfold keys in Hk. apply in_map_iff in Hk as ([k' kws] & E & Hk).
    cbn [fst] in E. subst k'.
    rewrite <- (group_in_analysis lower cat k l Hl),
      (group_of_analysis lower k kws cat Hk), length_map.
    rewrite <- filed_entries_length. apply filter_length_le.
Qed.

(** *** The report of the similarity groups *)

Section SimilarReport.

Variable upper : str -> str.

Lemma print_similar_blocks (groups : dict (list method_info)) :
  print_similar_functionality upper groups
  = similar_heading :: flat_map (similar_block upper) groups.
Proof. reflexivity. Qed.

Lemma block_length (kv : str * list method_info) :
  List.length (similar_block upper kv)
  = if (3 <? List.length (snd kv))%nat
    then (2 + Nat.min 10 (List.length (snd kv))
          + (if (10 <? List.length (snd kv))%nat then 1 else 0))%nat
    else 0%nat.
Proof.
  unfold similar_block. cbv zeta. unfold len.
  destruct (3 <? List.length (snd kv))%nat eqn:E3.
  - apply Nat.ltb_lt in E3.
    destruct (3 <? Z.of_nat _)%Z eqn:F3; [|apply Z.ltb_ge in F3; lia].
    cbn [List.length]. rewrite !length_app, length_map, length_firstn.
    destruct (10 <? List.length (snd kv))%nat eqn:E10.
    + apply Nat.ltb_lt in E10.
      destruct (10 <? Z.of_nat _)%Z eqn:F10; [|apply Z.ltb_ge in F10; lia].
      cbn [List.length]. lia.
    + apply Nat.ltb_ge in E10.
      destruct (10 <? Z.of_nat _)%Z eqn:F10; [apply Z.ltb_lt in F10; lia|].
      cbn [List.length]. lia.
  - apply Nat.ltb_ge in E3.
    destruct (3 <? Z.of_nat _)%Z eqn:F3; [apply Z.ltb_lt in F3; lia | reflexivity].
Qed.

Lemma blocks_length (groups : dict (list method_info)) :
  (List.length (flat_map (similar_block upper) groups) <= 13 * List.length groups)%nat.
Proof.
  induction groups as [|kv groups IH]; [apply le_n|].
  cbn [flat_map List.length]. rewrite length_app, block_length, Nat.mul_succ_r.
  destruct (3 <? List.length (snd kv))%nat; [|lia].
  destruct (10 <? List.length (snd kv))%nat; lia.
Qed.

Lemma blocks_small (groups : dict (list method_info)) :
  Forall (fun kv => (List.length (snd kv) <= 3)%nat) groups ->
  flat_map (similar_block upper) groups = [].
Proof.
  induction 1 as [|kv groups Hkv Hg IH]; [reflexivity|].
  cbn [flat_map]. rewrite IH, app_nil_r.
  pose proof (block_length kv) as L.
  destruct (3 <? List.length (snd kv))%nat eqn:E; [apply Nat.ltb_lt in E; lia|].
  now destruct (similar_block upper kv).
Qed.

End SimilarReport.

(** X16. The report of the similarity groups. A group of three methods or
    fewer is not shown. A group that is shown takes its opening line, a
    line for each of its first ten methods, one more line that counts the
    rest when it has more than ten, and an empty line: 13 lines at most.
    With the heading and at most eight groups the report of an analysis
    never has more than 105 lines, and for a catalog of three entries or
    fewer it is the heading alone. *)
Theorem similarity_report_bounds (lower upper : str -> str) (cat : catalog) :
  let report :=
    print_similar_functionality upper (analyze_similar_functionality lower cat) in
  (forall groups,
      List.length (print_similar_functionality upper groups)
      = (1 + list_sum
               (map (fun kv =>
                       let n := List.length (snd kv) in
                       if (3 <? n)%nat
                       then 2 + Nat.min 10 n + (if (10 <? n)%nat then 1 else 0)
                       else 0)
                    groups))%nat)
  /\ (List.length report <= 105)%nat
  /\ ((List.length (flat_map snd cat) <= 3)%nat -> report = [similar_heading]).
Proof.
  cbv zeta. destruct (analysis_bounds lower cat) as (L8 & Hv).
  split; [|split].
  - intros groups. rewrite print_similar_blocks. cbn [List.length].
    rewrite length_flat_map. apply (f_equal S), (f_equal list_sum), map_ext.
    intros kv. apply block_length.
  - rewrite print_similar_blocks.
    change (List.length (?a :: ?l)) with (S (List.length l)).
    pose proof (blocks_length upper (analyze_similar_functionality lower cat)). lia.
  - intros H. rewrite print_similar_blocks, blocks_small; [reflexivity|].
    eapply Forall_impl; [|exact Hv]. cbn beta. intros kv Hkv. lia.
Qed.

Lemma similarity_report_bounds_witness :
  List.length (print_similar_functionality (map ascii_upper)
                 (analyze_similar_functionality (map ascii_lower) update_catalog))
  = 14%nat
  /\ print_similar_functionality (map ascii_upper)
       (analyze_similar_functionality (map ascii_lower) sample_effect_catalog)
     = [similar_heading].
Proof.
  destruct (similarity_report_bounds (map ascii_lower) (map ascii_upper) update_catalog)
    as (F & _).
  destruct (similarity_report_bounds (map ascii_lower) (map ascii_upper)
              sample_effect_catalog) as (_ & _ & S).
  split.
  - rewrite F. vm_compute. reflexivity.
  - apply S. vm_compute. lia.
Defined.


(** *** The file structure report *)

Lemma insert_desc_perm (x : str * Z) (l : list (str * Z)) :
  Permutation (insert_desc x l) (x :: l).
Proof.
  induction l as [|y l IH]; [apply Permutation_refl|]. cbn [insert_desc].
  destruct (snd y <? snd x)%Z; [apply Permutation_refl|].
  eapply perm_trans; [apply perm_skip, IH | apply perm_swap].
Qed.

Lemma sorted_from_perm (l acc : list (str * Z)) :
  Permutation (fold_left (fun a x => insert_desc x a) l acc) (acc ++ l).
Proof.
  revert acc. induction l as [|x l IH]; intros acc; cbn [fold_left].
  - rewrite app_nil_r. apply Permutation_refl.
  - eapply perm_trans; [apply IH|].
    eapply perm_trans; [apply Permutation_app_tail, insert_desc_perm|].
    cbn [app]. apply Permutation_middle.
Qed.

Lemma insert_desc_sorted (x : str * Z) (l : list (str * Z)) :
  StronglySorted by_count_desc l -> StronglySorted by_count_desc (insert_desc x l).
Proof.
  induction 1 as [|y l Hl IH Hy]; cbn [insert_desc].
  - repeat constructor.
  - destruct (snd y <? snd x)%Z eqn:E.
    + apply Z.ltb_lt in E. constructor; [now constructor|].
      constructor; [unfold by_count_desc; lia|].
      eapply Forall_impl; [|exact Hy]. unfold by_count_desc. intros z Hz. lia.
    + apply Z.ltb_ge in E. constructor; [exact IH|].
      eapply Permutation_Forall; [apply Permutation_sym, insert_desc_perm|].
      constructor; [exact E | exact Hy].
Qed.

Lemma sorted_from_sorted (l acc : list (str * Z)) :
  StronglySorted by_count_desc acc ->
  StronglySorted by_count_desc (fold_left (fun a x => insert_desc x a) l acc).
Proof.
  revert acc. induction l as [|x l IH]; intros acc H; [exact H|].
  cbn [fold_left]. now apply IH, insert_desc_sorted.
Qed.

(** An inserted file comes after the files of its own count. *)
Lemma insert_desc_stable (c : Z) (x : str * Z) (l : list (str * Z)) :
  StronglySorted by_count_desc l ->
  with_count c (insert_desc x l)
  = with_count c l ++ (if (snd x =? c)%Z then [x] else []).
Proof.
  unfold with_count.
  induction 1 as [|y l Hl IH Hy]; cbn [insert_desc filter].
  - now destruct (snd x =? c)%Z.
  - destruct (snd y <? snd x)%Z eqn:E.
    + apply Z.ltb_lt in E. cbn [filter].
      destruct (snd x =? c)%Z eqn:Ex.
      * apply Z.eqb_eq in Ex.
        assert (Ey : (snd y =? c)%Z = false) by (apply Z.eqb_neq; lia).
        rewrite Ey.
        assert (N : filter (fun fc => (snd fc =? c)%Z) l = []).
        { clear IH Hl. induction Hy as [|z l Hz Hy IH]; [reflexivity|].
          cbn [filter]. unfold by_count_desc in Hz.
          assert (Ez : (snd z =? c)%Z = false) by (apply Z.eqb_neq; lia).
          now rewrite Ez. }
        now rewrite N.
      * now rewrite app_nil_r.
    + cbn [filter]. rewrite IH. now destruct (snd y =? c)%Z.
Qed.

Lemma sorted_from_stable (c : Z) (l acc : list (str * Z)) :
  StronglySorted by_count_desc acc ->
  with_count c (fold_left (fun a x => insert_desc x a) l acc)
  = with_count c acc ++ with_count c l.
Proof.
  revert acc. induction l as [|x l IH]; intros acc H; cbn [fold_left].
  - unfold with_count at 3. cbn [filter]. now rewrite app_nil_r.
  - rewrite IH by now apply insert_desc_sorted.
    rewrite insert_desc_stable by exact H. rewrite <- app_assoc. f_equal.
    unfold with_count. cbn [filter]. now destruct (snd x =? c)%Z.
Qed.

Lemma file_stats_from (cat : catalog) (acc : dict Z) :
  NoDup (keys acc ++ keys cat) ->
  fold_left (fun d kv => dict_set (fst kv) (len (snd kv)) d) cat acc
  = acc ++ file_counts cat.
Proof.
  revert acc. induction cat as [|[k v] cat IH]; intros acc H; cbn [fold_left].
  - unfold file_counts. cbn [map]. now rewrite app_nil_r.
  - cbn [fst snd keys map] in *. fold (keys cat) in H.
    rewrite dict_set_fresh.
    + rewrite IH.
      * unfold file_counts. cbn [map fst snd]. now rewrite <- app_assoc.
      * unfold keys at 1. rewrite map_app. cbn [map fst]. fold (keys acc).
        now rewrite <- app_assoc.
    + apply NoDup_remove_2 in H. intros Hin. apply H. apply in_or_app. now left.
Qed.

(** X17. The file structure report lists the files with more than 15
    methods, each with its count, and nothing else: the listed files are a
    rearrangement of these files, arranged so that no file comes before one
    with more methods, and files with the same number of methods stay in
    the order of the catalog. *)
Theorem large_files_report (cat : catalog) :
  NoDup (keys cat) ->
  let listed := sorted_desc (large_files cat) in
  analyze_file_structure cat = structure_heading ++ map large_file_line listed ++ [[]]
  /\ Permutation listed (large_files cat)
  /\ StronglySorted by_count_desc listed
  /\ (forall c, with_count c listed = with_count c (large_files cat))
  /\ (forall fp methods,
         In (fp, methods) cat -> (15 < len methods)%Z ->
         In (large_file_line (fp, len methods)) (analyze_file_structure cat)).
Proof.
  intros Hnd listed.
  assert (E : analyze_file_structure cat
              = structure_heading ++ map large_file_line listed ++ [[]]).
  { unfold analyze_file_structure. cbv zeta.
    rewrite (file_stats_from cat []) by exact Hnd. reflexivity. }
  assert (P : Permutation listed (large_files cat))
    by apply (sorted_from_perm (large_files cat) []).
  split; [exact E|]. split; [exact P|]. split; [|split].
  - apply sorted_from_sorted. constructor.
  - intros c. unfold listed, sorted_desc.
    rewrite sorted_from_stable by constructor. reflexivity.
  - intros fp methods Hin Hlarge. rewrite E. apply in_or_app. right.
    apply in_or_app. left. apply in_map.
    apply (Permutation_in _ (Permutation_sym P)).
    unfold large_files. apply filter_In. split; [|now apply Z.ltb_lt].
    unfold file_counts. apply in_map_iff. now exists (fp, methods).
Qed.

Lemma large_files_report_witness :
  analyze_file_structure large_catalog
  = structure_heading
    ++ [lit "  - src/Ai.js: 31 methods"; lit "  - src/Game.js: 20 methods";
        lit "  - src/Net.js: 20 methods"; lit ""].
Proof.
  destruct (large_files_report large_catalog) as (E & _).
  - unfold keys. cbn [large_catalog map fst].
    repeat (apply NoDup_cons; [apply mem_not_In; vm_compute; reflexivity|]).
    apply NoDup_nil.
  - rewrite E. vm_compute. reflexivity.
Defined.

(** ** The analysis of a generated catalog *)

(** The occurrences recorded under one name are among the discoveries, in
    order: their places are distinct when those of the discoveries are. *)
Lemma occurrences_places (n : str) (ds : list (str * occurrence)) :
  NoDup (map (fun d => occurrence_place (snd d)) ds) ->
  NoDup (map occurrence_place (occurrences_of n ds)).
Proof.
  unfold occurrences_of.
  induction ds as [|[k o] ds IH]; intros Hnd; [constructor|].
  apply NoDup_cons_iff in Hnd as [Hout Hnd]. cbn [filter fst snd] in *.
  destruct (str_eqb k n); [|now apply IH].
  cbn [map snd]. apply NoDup_cons; [|now apply IH].
  intros Hin. apply Hout. apply in_map_iff in Hin as (o' & E & Ho').
  apply in_map_iff in Ho' as ([k' o''] & <- & Hd). apply filter_In in Hd as [Hd _].
  apply in_map_iff. now exists (k', o'').
Qed.

(** The places of the discoveries of a catalog are distinct when its keys
    are and no file has two entries of the same line. *)
Lemma discoveries_places (cat : catalog) :
  NoDup (keys cat) -> Forall (fun kv => NoDup (map line (snd kv))) cat ->
  NoDup (map (fun d => occurrence_place (snd d)) (discoveries cat)).
Proof.
  induction cat as [|[fp methods] cat IH]; [constructor|].
  cbn [keys map fst]. fold (keys cat). intros Hk Hl.
  inversion Hk as [|? ? Hfp Hk']; subst. inversion Hl as [|? ? Hm Hl']; subst.
  unfold discoveries. cbn [flat_map fst snd]. rewrite map_app, map_map.
  cbn [snd occurrence_place occ_file occ_line]. apply NoDup_app.
  - cbn [snd] in Hm. clear -Hm. induction methods as [|m methods IH]; [constructor|].
    cbn [map] in *. inversion Hm as [|? ? Hx Hr]; subst.
    constructor; [|now apply IH]. intros Hin. apply Hx.
    apply in_map_iff in Hin as (y & E & Hy). injection E as E.
    apply in_map_iff. now exists y.
  - now apply IH.
  - intros place H1 H2. apply in_map_iff in H1 as (m & <- & _).
    apply in_map_iff in H2 as ([n o] & E & Hd). cbn [snd] in E.
    unfold discoveries in Hd. apply in_flat_map in Hd as ([fp' ms] & Hin & Ho).
    apply in_map_iff in Ho as (m' & E' & _). cbn [fst] in E'.
    injection E' as _ <-. cbn [occurrence_place occ_file occ_line] in E.
    injection E as -> _. apply Hfp. unfold keys. apply in_map_iff.
    now exists (fp, ms).
Qed.

Lemma extract_lines_NoDup (fs : filesystem) (p : str) :
  NoDup (map line (file_functions fs p)).
Proof.
  unfold file_functions, extract_functions_from_file.
  destruct (fs p); [constructor|]. apply scan_lines_NoDup.
Qed.

Section Generated.

Variable os_path_exists : str -> bool.
Variable os_walk : str -> list (str * list str * list str).
Variable os_path_join : str -> str -> str.
Variable os_path_relpath : str -> str.
Variable fs : filesystem.
Variable source_dirs : list str.

Lemma generated_values :
  Forall (fun kv => snd kv <> [] /\ NoDup (map line (snd kv)))
         (snd (generate_catalog os_path_exists os_walk os_path_join os_path_relpath
                                fs source_dirs [])).
Proof.
  rewrite generate_catalog_snd. apply Forall_forall. intros [k v] H.
  apply fold_origin in H as [[]|(p & _ & _ & -> & Hne)].
  split; [exact Hne | apply extract_lines_NoDup].
Qed.

Lemma generated_total :
  let cat := snd (generate_catalog os_path_exists os_walk os_path_join
                                   os_path_relpath fs source_dirs []) in
  total_methods cat = 0%Z <-> cat = [].
Proof.
  cbv zeta. pose proof generated_values as H. rewrite total_methods_len.
  destruct (snd (generate_catalog _ _ _ _ _ _ _)) as [|[k v] cat].
  - split; reflexivity.
  - inversion H as [|? ? [Hne _] _]; subst. cbn [snd] in Hne.
    split; [|discriminate]. cbn [flat_map snd]. unfold len. rewrite length_app.
    destruct v; [contradiction|]. cbn [List.length]. lia.
Qed.

End Generated.

(** X18. In the analysis of a generated catalog no occurrence is listed
    twice: the occurrences of a duplicate name are at least two, and they
    are at different places, a place being the file an entry is filed under
    and its line. *)
Theorem duplicate_occurrences_distinct (os_path_exists : str -> bool)
    (os_walk : str -> list (str * list str * list str))
    (os_path_join : str -> str -> str) (os_path_relpath : str -> str)
    (fs : filesystem) (source_dirs : list str) (n : str) (occs : list occurrence) :
  let cat := snd (generate_catalog os_path_exists os_walk os_path_join
                                   os_path_relpath fs source_dirs []) in
  In (n, occs) (analyze_duplicates cat) ->
  NoDup (map occurrence_place occs) /\ (2 <= List.length occs)%nat.
Proof.
  cbv zeta. intros H. split.
  - pose proof (generated_keys_NoDup os_path_exists os_walk os_path_join
                  os_path_relpath fs source_dirs) as Hk.
    pose proof (generated_values os_path_exists os_walk os_path_join
                  os_path_relpath fs source_dirs) as Hv.
    rewrite analyze_duplicates_eq in H.
    apply in_map_iff in H as (k & [= -> <-] & _).
    apply occurrences_places, discoveries_places; [exact Hk|].
    eapply Forall_impl; [|exact Hv]. now intros kv [_ Hl].
  - rewrite (duplicate_group _ n occs H).
    assert (K : In n (keys (analyze_duplicates
                              (snd (generate_catalog os_path_exists os_walk os_path_join
                                      os_path_relpath fs source_dirs [])))))
      by (unfold keys; apply in_map_iff; now exists (n, occs)).
    apply duplicate_key_iff in K. lia.
Qed.

Lemma duplicate_occurrences_distinct_witness :
  let cat := snd (generate_catalog sample_exists sample_walk sample_join sample_relpath
                                   sample_tree default_source_dirs []) in
  let occs := [Occurrence (lit "src/a.js") no_description 1;
               Occurrence (lit "src/audio/mixer.js") no_description 6] in
  analyze_duplicates cat = [(lit "update", occs)]
  /\ NoDup (map occurrence_place occs).
Proof.
  cbv zeta. split; [vm_compute; reflexivity|].
  apply (duplicate_occurrences_distinct sample_exists sample_walk sample_join
           sample_relpath sample_tree default_source_dirs (lit "update")).
  vm_compute. left. reflexivity.
Defined.

(** X19. The analyzer on the generator's catalog. When the generator found
    no function at all (its catalog is empty, and the document reads [{}])
    the generator ends without an exception and the analyzer ends with
    [ZeroDivisionError]. When the generator found at least one function and
    its catalog can be encoded (no key and no string field holds a
    surrogate code point) both programs end without an exception. When its
    catalog cannot be encoded, as with a script whose name is not valid
    UTF-8, the generator ends with [UnicodeEncodeError] and the analyzer,
    run on the document that was left cut short, prints nothing and ends
    with [JSONDecodeError]. A generated catalog never holds a file without
    functions, so there is no other case. *)
Theorem analysis_of_generated_catalog (os_path_exists : str -> bool)
    (os_walk : str -> list (str * list str * list str))
    (os_path_join : str -> str -> str) (os_path_relpath : str -> str)
    (lower upper : str -> str) (fs : filesystem) :
  let cat := snd (generate_catalog os_path_exists os_walk os_path_join
                                   os_path_relpath fs [lit "src"; lit "assets"] []) in
  let ran := Gen.main os_path_exists os_walk os_path_join os_path_relpath fs in
  (cat = [] ->
   raised ran = None
   /\ store ran (lit "method_catalog.json") = inr (lit "{}")
   /\ snd (Ana.main lower upper (store ran)) = Some division_by_zero)
  /\ (cat <> [] -> catalog_encodable cat = true ->
      raised ran = None /\ snd (Ana.main lower upper (store ran)) = None)
  /\ (catalog_encodable cat = false ->
      raised ran = Some encode_error
      /\ Ana.main lower upper (store ran) = ([], Some decode_error)).
Proof.
  cbv zeta.
  pose proof (generated_total os_path_exists os_walk os_path_join os_path_relpath
                fs [lit "src"; lit "assets"]) as T. cbv zeta in T.
  pose proof (generated_keys_NoDup os_path_exists os_walk os_path_join
                os_path_relpath fs [lit "src"; lit "assets"]) as Hnd.
  pose proof (analyzer_after_generator os_path_exists os_walk os_path_join
                os_path_relpath lower upper fs) as A. cbv zeta in A.
  rewrite generator_main_eq in *.
  destruct (generate_catalog os_path_exists os_walk os_path_join os_path_relpath
              fs [lit "src"; lit "assets"] []) as [out1 cat].
  cbn [fst snd] in *. split; [|split].
  - intros E. rewrite (A ltac:(now subst cat)), main_on_result.
    rewrite generator_run_written by now subst cat.
    cbn [raised store]. split; [reflexivity|]. split.
    + subst cat. apply fs_write_read.
    + rewrite summary_zero by now apply T. reflexivity.
  - intros Hne He. rewrite (A He), main_on_result.
    rewrite generator_run_written by exact He. cbn [raised].
    split; [reflexivity|]. rewrite summary_nonzero; [reflexivity|].
    intros E. now apply Hne, T.
  - intros He.
    destruct (generator_run_cut out1 cat fs He) as (w & rest & R & Hcat & Hok & Hrest).
    rewrite R. cbn [raised store]. split; [reflexivity|].
    now apply analyzer_on_cut with (cat := cat) (rest := rest).
Qed.

Lemma analysis_of_generated_catalog_witness :
  snd (Ana.main (map ascii_lower) (map ascii_upper)
         (store (Gen.main no_directory empty_walk sample_join sample_relpath
                          empty_tree)))
  = Some division_by_zero
  /\ snd (Ana.main (map ascii_lower) (map ascii_upper)
            (store (Gen.main sample_exists sample_walk sample_join sample_relpath
                             sample_tree)))
     = None
  /\ snd (Ana.main (map ascii_lower) (map ascii_upper)
            (store (Gen.main sample_exists surrogate_walk sample_join sample_relpath
                             surrogate_tree)))
     = Some decode_error.
Proof.
  destruct (analysis_of_generated_catalog no_directory empty_walk sample_join
              sample_relpath (map ascii_lower) (map ascii_upper) empty_tree)
    as (H1 & _).
  destruct (analysis_of_generated_catalog sample_exists sample_walk sample_join
              sample_relpath (map ascii_lower) (map ascii_upper) sample_tree)
    as (_ & H2 & _).
  destruct (analysis_of_generated_catalog sample_exists surrogate_walk sample_join
              sample_relpath (map ascii_lower) (map ascii_upper) surrogate_tree)
    as (_ & _ & H3).
  split; [apply H1; reflexivity|]. split.
  - apply H2; [vm_compute; discriminate | reflexivity].
  - destruct (H3 eq_refl) as [_ E]. now rewrite E.
Defined.
